(** * QMCTorch: atomic orbitals, spherical harmonics and the
      electron-electron Jastrow factor

    A shallow embedding of

    - [qmctorch/wavefunction/orbitals/spherical_harmonics.py]
    - [qmctorch/wavefunction/orbitals/atomic_orbitals.py]
    - [qmctorch/wavefunction/jastrows/elec_elec/jastrow_factor_electron_electron.py]
    - [qmctorch/wavefunction/orbitals/norm_orbital.py]
    - [qmctorch/utils/interpolate.py] (the grids)

    Conventions of the embedding.

    - A torch tensor of rank k is a k-fold nested [list]; its trailing axis
      of size 3 (the spatial dimension of a displacement) is a [vec3].
      Floating-point numbers are idealised as real numbers ([R]); an
      integer that the source computes from a rounded number (a number of
      grid points) is a parameter.
    - Python exceptions are values of [exn]; a computation that may raise
      returns a [result].  Mutation of [self.nelec] is explicit state
      passing; tensors that are cloned or written in place live in a store.
    - Elementwise arithmetic on tensors of equal shape is [zip_with]; the
      shape agreement the source relies on appears as hypotheses of the
      theorems that need it. *)

From Stdlib Require Import Reals Lra Lia ZArith List String.
From stdpp Require Import base option list gmap strings.

(** ** Exceptions and results *)

Inductive exn : Type :=
  | ValueError
  | AssertionError
  | NotImplementedError
  | KeyError
  | IndexError
  | RuntimeError
  | AttributeError
  | TypeError
  | OverflowError.

Inductive result (A : Type) : Type :=
  | Ok (a : A)
  | Raise (e : exn).

Arguments Ok {A} a.
Arguments Raise {A} e.

Definition rbind {A B : Type} (m : result A) (k : A -> result B) : result B :=
  match m with
  | Ok a => k a
  | Raise e => Raise e
  end.

Notation "'let*' x ':=' m 'in' k" := (rbind m (fun x => k))
  (at level 10, x name, m at level 100, k at level 200).

Definition is_raise {A : Type} (m : result A) : Prop :=
  match m with
  | Ok _ => False
  | Raise _ => True
  end.

Fixpoint rmapM {A B : Type} (f : A -> result B) (l : list A) : result (list B) :=
  match l with
  | [] => Ok []
  | x :: l' => let* y := f x in let* ys := rmapM f l' in Ok (y :: ys)
  end.

(** ** Displacement vectors *)

Record vec3 : Type := V3 { vx : R; vy : R; vz : R }.

Definition zero3 : vec3 := V3 0 0 0.

(** [p.unsqueeze(-1) * v] : a scalar broadcast over the spatial axis. *)
Definition vscale (p : R) (v : vec3) : vec3 :=
  V3 (p * vx v) (p * vy v) (p * vz v).

(** [xyz.sum(3)] and [xyz.prod(-1)] on the spatial axis. *)
Definition vsum (v : vec3) : R := (vx v + vy v + vz v)%R.
Definition vprod (v : vec3) : R := (vx v * vy v * vz v)%R.

(** [(xyz**2).sum(3)] *)
Definition vsq (v : vec3) : R := (vx v ^ 2 + vy v ^ 2 + vz v ^ 2)%R.

(** [xyz[:, :, :, i]] for a literal index i. *)
Definition vnth (i : nat) (v : vec3) : R :=
  match i with
  | 0 => vx v
  | 1 => vy v
  | _ => vz v
  end.

(** ** Tensors *)

(** Rank-3 tensors (batch, electron, primitive or orbital) and rank-4 tensors
    with a trailing spatial axis. *)
Abbreviation tensor3 := (list (list (list R))).
Abbreviation tensor4 := (list (list (list vec3))).

Inductive tensor : Type :=
  | T3 (t : tensor3)
  | T4 (t : tensor4).

(** What a call returns: one tensor ([output[0]]) or a Python list/tuple. *)
Inductive pyout : Type :=
  | One (t : tensor)
  | Many (ts : list tensor).

(** The [derivative] argument: an int or a list of ints. *)
Inductive deriv_arg : Type :=
  | DInt (d : Z)
  | DList (ds : list Z).

(** [if not isinstance(derivative, list): derivative = [derivative]] *)
Definition as_list (d : deriv_arg) : list Z :=
  match d with
  | DInt z => [z]
  | DList l => l
  end.

Definition deriv_eqb (d : deriv_arg) (l : list Z) : bool :=
  match d with
  | DInt _ => false
  | DList ds => bool_decide (ds = l)
  end.

(** [if len(derivative) == 1: return output[0] else: return output] *)
Definition unwrap_single (output : list tensor) : pyout :=
  match output with
  | [t] => One t
  | _ => Many output
  end.

(** ** Real spherical harmonics: [spherical_harmonics.py] *)

Module SphericalHarmonics.

Local Open Scope R_scope.

(** Each [_*_spherical_harmonics_l*] function of the source is an
    elementwise expression over the (batch, electron, primitive) axes; its
    body is given here at one displacement vector. *)

(** *** l = 0 *)

Definition _spherical_harmonics_l0 (xyz : vec3) : R := 0.2820948 * 1.

Definition _nabla_spherical_harmonics_l0 (xyz : vec3) : R := 0.

Definition _grad_spherical_harmonics_l0 (xyz : vec3) : vec3 := zero3.

Definition _lap_spherical_harmonics_l0 (xyz : vec3) : R := 0.

(** *** l = 1 *)

(** [index = {-1: 1, 0: 2, 1: 0}]; any other key raises [KeyError]. *)
Definition index_l1 (m : Z) : result nat :=
  if (m =? -1)%Z then Ok 1%nat
  else if (m =? 0)%Z then Ok 2%nat
  else if (m =? 1)%Z then Ok 0%nat
  else Raise KeyError.

Definition _spherical_harmonics_l1 (xyz : vec3) (m : Z) : result R :=
  let r := sqrt (vsq xyz) in
  let c := 0.4886025119029199 in
  let* i := index_l1 m in
  Ok (c * vnth i xyz / r).

Definition _nabla_spherical_harmonics_l1 (xyz : vec3) (m : Z) : result R :=
  let r := sqrt (vsq xyz) in
  let r3 := r ^ 3 in
  let c := 0.4886025119029199 in
  let* i := index_l1 m in
  Ok (c * (1.0 / r - vnth i xyz * vsum xyz / r3)).

(** The function has one [if] per value of [m] and no final [else]: for
    any other [m] it returns Python's [None]. *)
Definition _grad_spherical_harmonics_l1 (xyz : vec3) (m : Z) : option vec3 :=
  let r := sqrt (vsq xyz) in
  let r3 := r ^ 3 in
  let c := 0.4886025119029199 in
  let p := c / r3 in
  let x := vx xyz in
  let y := vy xyz in
  let z := vz xyz in
  if (m =? -1)%Z then Some (vscale p (V3 (- y * x) (x ^ 2 + z ^ 2) (- y * z)))
  else if (m =? 0)%Z then Some (vscale p (V3 (- z * x) (- z * y) (x ^ 2 + y ^ 2)))
  else if (m =? 1)%Z then Some (vscale p (V3 (y ^ 2 + z ^ 2) (- x * y) (- x * z)))
  else None.

Definition _lap_spherical_harmonics_l1 (xyz : vec3) (m : Z) : result R :=
  let r := sqrt (vsq xyz) in
  let r3 := r ^ 3 in
  let c := 0.4886025119029199 in
  let* i := index_l1 m in
  Ok (c * (-2 * vnth i xyz / r3)).

(** *** l = 2 *)

(** [index = {-2: [0, 1], -1: [1, 2], 1: [2, 0]}] *)
Definition index_l2 (m : Z) : result (nat * nat) :=
  if (m =? -2)%Z then Ok (0%nat, 1%nat)
  else if (m =? -1)%Z then Ok (1%nat, 2%nat)
  else if (m =? 1)%Z then Ok (2%nat, 0%nat)
  else Raise KeyError.

Definition _spherical_harmonics_l2 (xyz : vec3) (m : Z) : result R :=
  let r2 := vsq xyz in
  let x := vx xyz in
  let y := vy xyz in
  let z := vz xyz in
  if (m =? 0)%Z then
    let c0 := 0.31539156525252005 in
    Ok (c0 * (- x ^ 2 - y ^ 2 + 2 * z ^ 2) / r2)
  else if (m =? 2)%Z then
    let c2 := 0.5462742152960396 in
    Ok (c2 * (x ^ 2 - y ^ 2) / r2)
  else
    let cm := 1.0925484305920792 in
    let* ij := index_l2 m in
    Ok (cm * vnth (fst ij) xyz * vnth (snd ij) xyz / r2).

Definition _nabla_spherical_harmonics_l2 (xyz : vec3) (m : Z) : result R :=
  let r := sqrt (vsq xyz) in
  let r2 := r ^ 2 in
  let r3 := r ^ 3 in
  let x := vx xyz in
  let y := vy xyz in
  let z := vz xyz in
  if (m =? 0)%Z then
    let c0 := 0.31539156525252005 in
    Ok (c0 * ((-2 * x - 2 * y + 4 * z) / r2
              - 2 * (- x ^ 2 - y ^ 2 + 2 * z ^ 2) * vsum xyz / r3))
  else if (m =? 2)%Z then
    let c2 := 0.5462742152960396 in
    Ok (c2 * (2 * (x - y) / r2 - 2 * (x ^ 2 - y ^ 2) * vsum xyz / r3))
  else
    let cm := 1.0925484305920792 in
    let* ij := index_l2 m in
    Ok (cm * ((vnth (fst ij) xyz + vnth (snd ij) xyz) / r2
              - 2 * vnth (fst ij) xyz * vnth (snd ij) xyz * vsum xyz / r3)).

Definition _grad_spherical_harmonics_l2 (xyz : vec3) (m : Z) : option vec3 :=
  let r := sqrt (vsq xyz) in
  let r4 := r ^ 4 in
  let x := vx xyz in
  let y := vy xyz in
  let z := vz xyz in
  if (m =? -2)%Z then
    let c0 := 0.31539156525252005 in
    let p := c0 / r4 in
    Some (vscale p (V3 (y * (- (x ^ 2) + y ^ 2 + z ^ 2))
                       (x * (- (y ^ 2) + x ^ 2 + z ^ 2))
                       (-2 * vprod xyz)))
  else if (m =? -1)%Z then
    let c0 := 0.31539156525252005 in
    let p := c0 / r4 in
    Some (vscale p (V3 (-2 * vprod xyz)
                       (z * (- (y ^ 2) + x ^ 2 + z ^ 2))
                       (y * (- (z ^ 2) + x ^ 2 + y ^ 2))))
  else if (m =? 0)%Z then
    let c0 := 0.31539156525252005 in
    let p := c0 / r4 in
    Some (vscale p (V3 (-6 * x * z * z)
                       (-6 * y * z * z)
                       (6 * x * x * z + 6 * y * y * z)))
  else if (m =? 1)%Z then
    let c0 := 0.31539156525252005 in
    let p := c0 / r4 in
    Some (vscale p (V3 (z * (- x * x + y * y + z * z))
                       (-2 * vprod xyz)
                       (x * (x * x + y * y - z * z))))
  else if (m =? 2)%Z then
    let c0 := 0.5462742152960396 in
    let p := c0 / r4 in
    Some (vscale p (V3 (4 * x * y * y + 2 * x * z * z)
                       (-4 * x * x * y - 2 * y * z * z)
                       (-2 * z * (x * x - y * y))))
  else None.

Definition _lap_spherical_harmonics_l2 (xyz : vec3) (m : Z) : result R :=
  let r := sqrt (vsq xyz) in
  let r4 := r ^ 4 in
  let r6 := r ^ 6 in
  let x2 := vx xyz ^ 2 in
  let y2 := vy xyz ^ 2 in
  let z2 := vz xyz ^ 2 in
  if (m =? 0)%Z then
    let c0 := 0.31539156525252005 in
    Ok (c0 * (6 / r6 * (x2 + y2) ^ 2 - z2 * (x2 + y2 - 2 * z2)))
  else if (m =? 2)%Z then
    let c2 := 0.5462742152960396 in
    Ok (c2 * (6 / r6 * z2 * (y2 - x2) + y2 ^ 2 - x2 ^ 2))
  else
    let cm := 1.0925484305920792 in
    let* ij := index_l2 m in
    Ok (cm * (-6 * vnth (fst ij) xyz * vnth (snd ij) xyz / r4)).

(** *** Dispatch over the primitives *)

(** [lval == l0] and [(lval == l0) * (m == m0)] : masks on the primitive
    axis, for [lval] and [m] of the same length, one entry per primitive
    (torch would broadcast a tensor of one entry and raise on any other
    mismatch; the theorems on the dispatch assume equal lengths). *)
Definition mask_l (lval : list Z) (l0 : Z) : list bool :=
  map (fun l => (l =? l0)%Z) lval.

Definition mask_lm (lval m : list Z) (l0 m0 : Z) : list bool :=
  zip_with (fun l mm => (l =? l0)%Z && (mm =? m0)%Z) lval m.

(** [torch.any(mask)], and [len(ind > 0)] for [ind = mask.nonzero()]. *)
Definition any (mask : list bool) : bool := existsb (fun b => b) mask.

(** [Y[:, :, ind] = f(xyz[:, :, ind, :])] on one (batch, electron) row, for
    [ind = mask.nonzero().view(-1)]: [f] is evaluated on the selected
    primitives only, the others keep their entry of [Y].  An index beyond
    the primitive axis raises [IndexError]. *)
Fixpoint assign_where {A : Type} (mask : list bool) (f : vec3 -> result A)
    (xyz : list vec3) (Y : list A) : result (list A) :=
  match mask, xyz, Y with
  | [], _, _ => Ok Y
  | b :: mask', v :: xyz', y :: Y' =>
      let* y' := (if b then f v else Ok y) in
      let* rest := assign_where mask' f xyz' Y' in
      Ok (y' :: rest)
  | _ :: _, _, _ => if any mask then Raise IndexError else Ok Y
  end.

(** The body of one [if derivative == d: Y[:, :, ind] = ...] statement. *)
Definition when_deriv {A : Type} (derivative d : Z) (mask : list bool)
    (f : vec3 -> result A) (xyz : list vec3) (Y : list A) : result (list A) :=
  if (derivative =? d)%Z then assign_where mask f xyz Y else Ok Y.

(** [for mval in mvals: ...] threading [Y]. *)
Fixpoint for_mval {A : Type} (mvals : list Z)
    (body : Z -> list A -> result (list A)) (Y : list A) : result (list A) :=
  match mvals with
  | [] => Ok Y
  | mval :: rest => let* Y' := body mval Y in for_mval rest body Y'
  end.

(** [get_spherical_harmonics] on one (batch, electron) row. *)
Definition get_spherical_harmonics_row (lval m : list Z) (derivative : Z)
    (xyz : list vec3) : result (list R) :=
  let Y := map (fun _ => 0) xyz in
  (* l = 0 *)
  let ind := mask_l lval 0 in
  let* Y := when_deriv derivative 0 ind (fun v => Ok (_spherical_harmonics_l0 v)) xyz Y in
  let* Y := when_deriv derivative 1 ind (fun v => Ok (_nabla_spherical_harmonics_l0 v)) xyz Y in
  (* l = 1 *)
  let* Y := (if any (mask_l lval 1) then
          for_mval [-1; 0; 1]%Z (fun mval Y =>
            let ind := mask_lm lval m 1 mval in
            if any ind then
              let* Y := when_deriv derivative 0 ind (fun v => _spherical_harmonics_l1 v mval) xyz Y in
              let* Y := when_deriv derivative 1 ind (fun v => _nabla_spherical_harmonics_l1 v mval) xyz Y in
              when_deriv derivative 2 ind (fun v => _lap_spherical_harmonics_l1 v mval) xyz Y
            else Ok Y) Y
        else Ok Y) in
  (* l = 2 *)
  if any (mask_l lval 2) then
    for_mval [-2; -1; 0; 1; 2]%Z (fun mval Y =>
      let ind := mask_lm lval m 2 mval in
      if any ind then
        let* Y := when_deriv derivative 0 ind (fun v => _spherical_harmonics_l2 v mval) xyz Y in
        let* Y := when_deriv derivative 1 ind (fun v => _nabla_spherical_harmonics_l2 v mval) xyz Y in
        when_deriv derivative 2 ind (fun v => _lap_spherical_harmonics_l2 v mval) xyz Y
      else Ok Y) Y
  else Ok Y.

Definition get_spherical_harmonics (xyz : tensor4) (lval m : list Z)
    (derivative : Z) : result tensor3 :=
  rmapM (rmapM (get_spherical_harmonics_row lval m derivative)) xyz.

(** Assigning Python's [None] into a tensor slice raises [TypeError]. *)
Definition of_py {A : Type} (o : option A) : result A :=
  match o with
  | Some a => Ok a
  | None => Raise TypeError
  end.

(** [get_grad_spherical_harmonics] on one (batch, electron) row. *)
Definition get_grad_spherical_harmonics_row (lval m : list Z)
    (xyz : list vec3) : result (list vec3) :=
  let Y := map (fun _ => zero3) xyz in
  (* l = 0 *)
  let* Y := assign_where (mask_l lval 0) (fun v => Ok (_grad_spherical_harmonics_l0 v)) xyz Y in
  (* l = 1 *)
  let* Y := (if any (mask_l lval 1) then
          for_mval [-1; 0; 1]%Z (fun mval Y =>
            let ind := mask_lm lval m 1 mval in
            if any ind then
              assign_where ind (fun v => of_py (_grad_spherical_harmonics_l1 v mval)) xyz Y
            else Ok Y) Y
        else Ok Y) in
  (* l = 2 *)
  if any (mask_l lval 2) then
    for_mval [-2; -1; 0; 1; 2]%Z (fun mval Y =>
      let ind := mask_lm lval m 2 mval in
      if any ind then
        assign_where ind (fun v => of_py (_grad_spherical_harmonics_l2 v mval)) xyz Y
      else Ok Y) Y
  else Ok Y.

Definition get_grad_spherical_harmonics (xyz : tensor4) (lval m : list Z)
    : result tensor4 :=
  rmapM (rmapM (get_grad_spherical_harmonics_row lval m)) xyz.

(** [SphericalHarmonics(xyz, l, m, derivative, sum_grad, sum_hess)] *)
Definition SphericalHarmonics (xyz : tensor4) (l m : list Z)
    (derivative : deriv_arg) (sum_grad sum_hess : bool) : result pyout :=
  if negb sum_hess then Raise NotImplementedError
  else
    let derivative := as_list derivative in
    if sum_grad then
      let* output := rmapM (fun d => let* Y := get_spherical_harmonics xyz l m d in Ok (T3 Y))
                      derivative in
      Ok (unwrap_single output)
    else
      if negb (bool_decide (derivative = [1%Z])) then Raise ValueError
      else
        let* Y := get_grad_spherical_harmonics xyz l m in
        Ok (One (T4 Y)).

End SphericalHarmonics.

(** ** Cartesian harmonics: [spherical_harmonics.py] *)

Module CartesianHarmonics.

Local Open Scope R_scope.

(** The exponents (kx, ky, kz) of one primitive: a row of [bas_k]. *)
Record k3 : Type := K3 { kx : Z; ky : Z; kz : Z }.

(** Modelled from the spec: [fast_power] lives in [qmctorch/utils], which is
    not part of the sources at hand.  Section 4.2 of the specification:
    the harmonic is x^kx * y^ky * z^kz, computed by repeated
    multiplication, for exponents that are never negative. *)
Definition fast_power_pt (x : R) (k : Z) : R := x ^ Z.to_nat k.

Definition fast_power (xyz : vec3) (k : k3) : vec3 :=
  V3 (fast_power_pt (vx xyz) (kx k))
     (fast_power_pt (vy xyz) (ky k))
     (fast_power_pt (vz xyz) (kz k)).

(** [km = k - j; km[km < 0] = 0] *)
Definition k_minus (k : k3) (j : Z) : k3 :=
  K3 (Z.max 0 (kx k - j)) (Z.max 0 (ky k - j)) (Z.max 0 (kz k - j)).

(** The four closures of [CartesianHarmonics], at one primitive and one
    displacement; [xyz_k = fast_power(xyz, k, mask0, mask2)]. *)
Definition _kernel (k : k3) (xyz : vec3) : R :=
  let xyz_k := fast_power xyz k in
  vprod xyz_k.

Definition _first_derivative_components (k : k3) (xyz : vec3) : vec3 :=
  let xyz_k := fast_power xyz k in
  let xyz_km1 := fast_power xyz (k_minus k 1) in
  let dx := IZR (kx k) * vx xyz_km1 * vy xyz_k * vz xyz_k in
  let dy := IZR (ky k) * vx xyz_k * vy xyz_km1 * vz xyz_k in
  let dz := IZR (kz k) * vx xyz_k * vy xyz_k * vz xyz_km1 in
  V3 dx dy dz.

Definition _second_derivative_components (k : k3) (xyz : vec3) : vec3 :=
  let xyz_k := fast_power xyz k in
  let xyz_km2 := fast_power xyz (k_minus k 2) in
  let d2x := IZR (kx k) * (IZR (kx k) - 1) * vx xyz_km2 * vy xyz_k * vz xyz_k in
  let d2y := IZR (ky k) * (IZR (ky k) - 1) * vx xyz_k * vy xyz_km2 * vz xyz_k in
  let d2z := IZR (kz k) * (IZR (kz k) - 1) * vx xyz_k * vy xyz_k * vz xyz_km2 in
  V3 d2x d2y d2z.

Definition _mixed_second_derivative_components (k : k3) (xyz : vec3) : vec3 :=
  let xyz_k := fast_power xyz k in
  let xyz_km1 := fast_power xyz (k_minus k 1) in
  let dxdy := IZR (kx k) * vx xyz_km1 * IZR (ky k) * vy xyz_km1 * vz xyz_k in
  let dxdz := IZR (kx k) * vx xyz_km1 * vy xyz_k * IZR (kz k) * vz xyz_km1 in
  let dydz := vx xyz_k * IZR (ky k) * vy xyz_km1 * IZR (kz k) * vz xyz_km1 in
  V3 dxdy dxdz dydz.

(** Lifting over the (batch, electron) axes; the primitive axis is paired
    with the rows of [k]. *)
Definition over_bas {A : Type} (f : k3 -> vec3 -> A) (k : list k3)
    (xyz : tensor4) : list (list (list A)) :=
  map (map (zip_with f k)) xyz.

(** The list [fns] of the source, each entry applied to the call's
    arguments. *)
Definition fns (k : list k3) (sum_grad sum_hess : bool) (xyz : tensor4)
    : list tensor :=
  [ T3 (over_bas _kernel k xyz);
    (if sum_grad
     then T3 (over_bas (fun k v => vsum (_first_derivative_components k v)) k xyz)
     else T4 (over_bas _first_derivative_components k xyz));
    (if sum_hess
     then T3 (over_bas (fun k v => vsum (_second_derivative_components k v)) k xyz)
     else T4 (over_bas _second_derivative_components k xyz));
    T4 (over_bas _mixed_second_derivative_components k xyz) ].

(** Python list indexing [l[i]]: negative indices count from the end,
    anything else out of range raises [IndexError]. *)
Definition py_index {A : Type} (l : list A) (i : Z) : result A :=
  let n := Z.of_nat (length l) in
  let j := if (i <? 0)%Z then (i + n)%Z else i in
  if (0 <=? j)%Z && (j <? n)%Z then
    match l !! Z.to_nat j with
    | Some a => Ok a
    | None => Raise IndexError
    end
  else Raise IndexError.

Definition CartesianHarmonics (xyz : tensor4) (k : list k3)
    (derivative : deriv_arg) (sum_grad sum_hess : bool) : result pyout :=
  let derivative := as_list derivative in
  let* output := rmapM (py_index (fns k sum_grad sum_hess xyz)) derivative in
  Ok (unwrap_single output).

End CartesianHarmonics.

(** ** The [Harmonics] class *)

Module Harmonics.

Inductive device : Type := Cpu | Cuda.

(** The documented keyword arguments of [Harmonics.__init__]; [None] is a
    key that is absent from [kwargs]. *)
Record kwargs : Type := Kwargs {
  kw_bas_l : option (list Z);
  kw_bas_m : option (list Z);
  kw_bas_kx : option (list Z);
  kw_bas_ky : option (list Z);
  kw_bas_kz : option (list Z);
  kw_cuda : option bool
}.

(** [kwargs[key]] *)
Definition getitem {A : Type} (o : option A) : result A :=
  match o with
  | Some a => Ok a
  | None => Raise KeyError
  end.

(** The attributes that [__init__] registers, by branch. *)
Inductive registered : Type :=
  | RegSph (bas_l bas_m : list Z)
  | RegCart (bas_kx bas_ky bas_kz : list Z) (bas_k : list CartesianHarmonics.k3)
  | RegNone.

Record t : Type := Build {
  type : string;
  dev : device;
  params : registered
}.

(** [torch.stack((bas_kx, bas_ky, bas_kz)).transpose(0, 1)]; the three
    tensors must have the same length. *)
Definition stack_k (bas_kx bas_ky bas_kz : list Z)
    : result (list CartesianHarmonics.k3) :=
  if (length bas_kx =? length bas_ky)%nat && (length bas_ky =? length bas_kz)%nat
  then Ok (zip_with (fun kxy z => CartesianHarmonics.K3 (fst kxy) (snd kxy) z)
                    (zip bas_kx bas_ky) bas_kz)
  else Raise RuntimeError.

(** [Harmonics.__init__(type, **kwargs)] *)
Definition __init__ (type : string) (kw : kwargs) : result t :=
  let cuda := match kw_cuda kw with None => false | Some c => c end in
  let dev := if cuda then Cuda else Cpu in
  if String.eqb type "sph" then
    let* bas_l := getitem (kw_bas_l kw) in
    let* bas_m := getitem (kw_bas_m kw) in
    Ok (Build type dev (RegSph bas_l bas_m))
  else if String.eqb type "cart" then
    let* bas_kx := getitem (kw_bas_kx kw) in
    let* bas_ky := getitem (kw_bas_ky kw) in
    let* bas_kz := getitem (kw_bas_kz kw) in
    let* bas_k := stack_k bas_kx bas_ky bas_kz in
    Ok (Build type dev (RegCart bas_kx bas_ky bas_kz bas_k))
  else
    Ok (Build type dev RegNone).

(** [Harmonics.__call__(xyz, derivative, sum_grad, sum_hess)]; reading an
    attribute that was never registered raises [AttributeError]. *)
Definition __call__ (self : t) (xyz : tensor4) (derivative : deriv_arg)
    (sum_grad sum_hess : bool) : result pyout :=
  if String.eqb (type self) "cart" then
    match params self with
    | RegCart _ _ _ bas_k =>
        CartesianHarmonics.CartesianHarmonics xyz bas_k derivative sum_grad sum_hess
    | _ => Raise AttributeError
    end
  else if String.eqb (type self) "sph" then
    match params self with
    | RegSph bas_l bas_m =>
        SphericalHarmonics.SphericalHarmonics xyz bas_l bas_m derivative sum_grad sum_hess
    | _ => Raise AttributeError
    end
  else Raise ValueError.

End Harmonics.

(** ** Index and shape operations shared by both engines *)

Abbreviation tensor2 := (list (list R)).

(** [out.index_add_(dim, index, source)] along the axis that [out] spans:
    [out[index[k]] += source[k]] for every [k].  The index and the source
    must have the same length and every index must be within [out]
    (torch raises [RuntimeError] for an index out of range). *)
Fixpoint index_add_go {A : Type} (add : A -> A -> A) (out : list A)
    (index : list nat) (source : list A) : result (list A) :=
  match index, source with
  | i :: index', s :: source' =>
      match out !! i with
      | Some o => index_add_go add (<[i := add o s]> out) index' source'
      | None => Raise RuntimeError
      end
  | _, _ => Ok out
  end.

Definition index_add_ {A : Type} (add : A -> A -> A) (out : list A)
    (index : list nat) (source : list A) : result (list A) :=
  if (length index =? length source)%nat
  then index_add_go add out index source
  else Raise RuntimeError.

(** [l.view(rows, cols)] of a flat sequence. *)
Fixpoint reshape {A : Type} (rows cols : nat) (l : list A) : list (list A) :=
  match rows with
  | 0 => []
  | S rows' => take cols l :: reshape rows' cols (drop cols l)
  end.

(** [t.sum(-1)] of a vector. *)
Definition rsum (l : list R) : R := foldr Rplus 0%R l.

Definition vadd (a b : vec3) : vec3 :=
  V3 (vx a + vx b) (vy a + vy b) (vz a + vz b).

(** ** Atomic orbitals: [atomic_orbitals.py] *)

Module AtomicOrbitals.

Local Open Scope R_scope.

(** *** Radial functions *)

(** Modelled from the spec: [radial_functions.py] is not part of the
    sources at hand.  Section 4.1 of the specification: a radial function
    maps the distance r, the exponent n and the decay exponent of one
    primitive to the value R and, with the displacement, to its first
    derivatives, diagonal second derivatives and mixed second derivatives;
    the "summed" modes reduce over the spatial axis.  One family of such
    pointwise functions stands for each of "sto", "gto", "sto_pure" and
    "gto_pure". *)
Record radial_family : Type := RadialFamily {
  rad_value : R -> R -> R -> R;
  rad_grad : vec3 -> R -> R -> R -> vec3;
  rad_hess : vec3 -> R -> R -> R -> vec3;
  rad_mixed : vec3 -> R -> R -> R -> vec3
}.

(** Elementwise lifting over the (batch, electron, primitive) axes; the
    primitive axis is paired with [bas_n] and [bas_exp]. *)
Definition over_r (f : R -> R -> R -> R) (bas_n bas_exp : list R)
    (r : tensor3) : tensor3 :=
  map (map (fun row => zip_with (fun x ne => f x (fst ne) (snd ne))
                                row (zip bas_n bas_exp))) r.

Definition over_xyz {A : Type} (f : vec3 -> R -> R -> R -> A)
    (bas_n bas_exp : list R) (r : tensor3) (xyz : tensor4)
    : list (list (list A)) :=
  zip_with (zip_with (fun rrow vrow =>
              zip_with (fun vr ne => f (fst vr) (snd vr) (fst ne) (snd ne))
                       (zip vrow rrow) (zip bas_n bas_exp))) r xyz.

(** The tensor requested by one entry of [derivative]; the derivatives need
    the keyword argument [xyz], whose default is Python's [None]. *)
Definition radial_order (fam : radial_family) (r : tensor3)
    (bas_n bas_exp : list R) (xyz : option tensor4) (sum_grad sum_hess : bool)
    (d : Z) : result tensor :=
  if (d =? 0)%Z then Ok (T3 (over_r (rad_value fam) bas_n bas_exp r))
  else
    match xyz with
    | None => Raise TypeError
    | Some xyz =>
        if (d =? 1)%Z then
          Ok (if sum_grad
              then T3 (over_xyz (fun v r n e => vsum (rad_grad fam v r n e))
                                bas_n bas_exp r xyz)
              else T4 (over_xyz (rad_grad fam) bas_n bas_exp r xyz))
        else if (d =? 2)%Z then
          Ok (if sum_hess
              then T3 (over_xyz (fun v r n e => vsum (rad_hess fam v r n e))
                                bas_n bas_exp r xyz)
              else T4 (over_xyz (rad_hess fam) bas_n bas_exp r xyz))
        else if (d =? 3)%Z then
          Ok (T4 (over_xyz (rad_mixed fam) bas_n bas_exp r xyz))
        else Raise ValueError
    end.

(** [self.radial(r, bas_n, bas_exp, xyz=xyz, derivative=..., sum_grad=...,
    sum_hess=...)] *)
Definition radial (fam : radial_family) (r : tensor3) (bas_n bas_exp : list R)
    (xyz : option tensor4) (derivative : list Z) (sum_grad sum_hess : bool)
    : result pyout :=
  let* output := rmapM (radial_order fam r bas_n bas_exp xyz sum_grad sum_hess)
                       derivative in
  Ok (unwrap_single output).

(** *** The object *)

Record t : Type := Build {
  nelec : nat;
  norb : nat;
  ndim : nat;
  atom_coords : list vec3;
  nshells : list nat;
  index_ctr : list nat;
  contract : bool;
  bas_coeffs : list R;
  bas_exp : list R;
  bas_n : list R;
  harmonics_type : string;
  (** [None]: [__init__] never assigned [self.harmonics]. *)
  harmonics : option Harmonics.t;
  radial_fam : radial_family;
  radial_type : string;
  norm_cst : list R
}.

(** [self.nelec = n] *)
Definition set_nelec (n : nat) (self : t) : t :=
  Build n (norb self) (ndim self) (atom_coords self) (nshells self)
        (index_ctr self) (contract self) (bas_coeffs self) (bas_exp self)
        (bas_n self) (harmonics_type self) (harmonics self) (radial_fam self)
        (radial_type self) (norm_cst self).

(** *** Construction *)

(** The fields of [mol.basis] and of [mol] that [__init__] reads. *)
Record basis : Type := Basis {
  nao : nat;
  atom_coords_internal : list vec3;
  b_nshells : list nat;
  b_index_ctr : list nat;
  b_bas_coeffs : list R;
  b_bas_exp : list R;
  b_harmonics_type : string;
  b_bas_n : list R;
  b_bas_l : list Z;
  b_bas_m : list Z;
  b_bas_kr : list R;
  b_bas_kx : list Z;
  b_bas_ky : list Z;
  b_bas_kz : list Z;
  b_radial_type : string
}.

Record Molecule : Type := Mol {
  mol_nelec : nat;
  mol_basis : basis
}.

(** [torch.unique(index_ctr)]: the distinct entries (only their number is
    used). *)
Definition unique (l : list nat) : list nat := remove_dups l.

(** [not len(torch.unique(self.index_ctr)) == len(self.index_ctr)] *)
Definition contract_flag (index_ctr : list nat) : bool :=
  negb (length (unique index_ctr) =? length index_ctr)%nat.

Section Construction.

(** The four radial families named by [radial_dict], and
    [norm_orbital.atomic_orbital_norm], which computes the normalisation
    constants once at construction. *)
Variables radial_slater radial_gaussian radial_slater_pure radial_gaussian_pure
  : radial_family.
Variable atomic_orbital_norm : basis -> result (list R).

Definition radial_dict (key : string) : result radial_family :=
  if String.eqb key "sto" then Ok radial_slater
  else if String.eqb key "gto" then Ok radial_gaussian
  else if String.eqb key "sto_pure" then Ok radial_slater_pure
  else if String.eqb key "gto_pure" then Ok radial_gaussian_pure
  else Raise KeyError.

Definition __init__ (mol : Molecule) (cuda : bool) : result t :=
  let b := mol_basis mol in
  let contract := contract_flag (b_index_ctr b) in
  let* bas_n_harm :=
    (if String.eqb (b_harmonics_type b) "sph" then
       let* h := Harmonics.__init__ (b_harmonics_type b)
                   (Harmonics.Kwargs (Some (b_bas_l b)) (Some (b_bas_m b))
                                     None None None (Some cuda)) in
       Ok (b_bas_n b, Some h)
     else if String.eqb (b_harmonics_type b) "cart" then
       let* h := Harmonics.__init__ (b_harmonics_type b)
                   (Harmonics.Kwargs None None (Some (b_bas_kx b))
                                     (Some (b_bas_ky b)) (Some (b_bas_kz b))
                                     (Some cuda)) in
       Ok (b_bas_kr b, Some h)
     else Ok ([], None)) in
  let* fam := radial_dict (b_radial_type b) in
  let* norm := atomic_orbital_norm b in
  Ok (Build (mol_nelec mol) (nao b) 3 (atom_coords_internal b) (b_nshells b)
            (b_index_ctr b) contract (b_bas_coeffs b) (b_bas_exp b)
            (fst bas_n_harm) (b_harmonics_type b) (snd bas_n_harm)
            fam (b_radial_type b) norm).

End Construction.

(** *** Positions *)

(** Consecutive triples of a flat coordinate sequence. *)
Fixpoint triples (l : list R) : list vec3 :=
  match l with
  | x :: y :: z :: l' => V3 x y z :: triples l'
  | _ => []
  end.

(** [pos.view(-1, self.nelec, 1, self.ndim)]: the flattened coordinates are
    regrouped; their number must be a multiple of [nelec * ndim].  The
    spatial axis has to match the three coordinates of an atom. *)
Definition view_pos (self : t) (pos : tensor2) : result (list (list vec3)) :=
  let flat := concat pos in
  let width := (nelec self * ndim self)%nat in
  if negb (ndim self =? 3)%nat then Raise RuntimeError
  else if (width =? 0)%nat || negb (length flat mod width =? 0)%nat
  then Raise RuntimeError
  else Ok (reshape (length flat / width) (nelec self) (triples flat)).

Definition vsub (a b : vec3) : vec3 :=
  V3 (vx a - vx b) (vy a - vy b) (vz a - vz b).

(** [torch.sqrt((xyz * xyz).sum(3))] at one displacement. *)
Definition dist (v : vec3) : R :=
  sqrt (vx v * vx v + vy v * vy v + vz v * vz v).

(** [_elec_atom_dist]: displacement and distance of every electron to every
    atom. *)
Definition _elec_atom_dist (self : t) (pos : tensor2)
    : result (tensor4 * tensor3) :=
  let* p := view_pos self pos in
  let xyz := map (map (fun e => map (fun a => vsub e a) (atom_coords self))) p in
  let r := map (map (map dist)) xyz in
  Ok (xyz, r).

(** [t.repeat_interleave(repeats, dim=2)] on one (batch, electron) row. *)
Definition repeat_interleave {A : Type} (repeats : list nat) (l : list A)
    : result (list A) :=
  match repeats with
  | [n] => Ok (concat (map (replicate n) l))
  | _ =>
      if (length repeats =? length l)%nat
      then Ok (concat (zip_with replicate repeats l))
      else Raise RuntimeError
  end.

Definition _process_position (self : t) (pos : tensor2)
    : result (tensor4 * tensor3) :=
  let* xyz_r := _elec_atom_dist self pos in
  let* xyz := rmapM (rmapM (repeat_interleave (nshells self))) (fst xyz_r) in
  let* r := rmapM (rmapM (repeat_interleave (nshells self))) (snd xyz_r) in
  Ok (xyz, r).

(** *** Elementwise arithmetic *)

Definition map2_3 {A B C : Type} (f : A -> B -> C)
    (a : list (list (list A))) (b : list (list (list B)))
    : list (list (list C)) :=
  zip_with (zip_with (zip_with f)) a b.

(** [c * t] and [c.unsqueeze(-1) * t] for a per-primitive vector [c]. *)
Definition scale_last {A : Type} (mul : R -> A -> A) (c : list R)
    (t : list (list (list A))) : list (list (list A)) :=
  map (map (zip_with mul c)) t.

Definition vmul (a b : vec3) : vec3 :=
  V3 (vx a * vx b) (vy a * vy b) (vz a * vz b).

(** [v * s.unsqueeze(-1)] *)
Definition vmulr (v : vec3) (s : R) : vec3 :=
  V3 (vx v * s) (vy v * s) (vz v * s).

(** *** Contraction *)

(** [cbas = torch.zeros(nbatch, self.nelec, width); cbas.index_add_(2,
    self.index_ctr, bas)]: the electron axis of [bas] must have size
    [self.nelec]. *)
Definition scatter_ctr {A : Type} (add : A -> A -> A) (zero : A) (self : t)
    (bas : list (list (list A))) : result (list (list (list A))) :=
  rmapM (fun m =>
           if (length m =? nelec self)%nat
           then rmapM (index_add_ add (replicate (norb self) zero) (index_ctr self)) m
           else Raise RuntimeError) bas.

Definition _contract (self : t) (bas : tensor3) : result tensor3 :=
  let bas := scale_last Rmult (bas_coeffs self) bas in
  scatter_ctr Rplus 0 self bas.

(** *** Kernels *)

Definition _ao_kernel (self : t) (R Y : tensor3) : result tensor3 :=
  let ao := map2_3 Rmult (scale_last Rmult (norm_cst self) R) Y in
  if contract self then _contract self ao else Ok ao.

Definition _sum_gradient_kernel (self : t) (R dR Y dY : tensor3)
    : result tensor3 :=
  let dao := scale_last Rmult (norm_cst self)
               (map2_3 Rplus (map2_3 Rmult dR Y) (map2_3 Rmult R dY)) in
  if contract self then _contract self dao else Ok dao.

(** [norm_cst.unsqueeze(-1) * bas_coeffs.unsqueeze(-1) * bas], then the
    scatter of the unsummed kernels. *)
Definition finish_unsummed (self : t) (bas : tensor4) : result tensor4 :=
  let bas := scale_last vscale (zip_with Rmult (norm_cst self) (bas_coeffs self))
                        bas in
  if contract self then scatter_ctr vadd zero3 self bas else Ok bas.

Definition _gradient_kernel (self : t) (R : tensor3) (dR : tensor4)
    (Y : tensor3) (dY : tensor4) : result tensor4 :=
  let bas := map2_3 vadd (map2_3 vmulr dR Y) (map2_3 vscale R dY) in
  finish_unsummed self bas.

Definition _sum_diag_hessian_kernel (self : t) (R : tensor3) (dR : tensor4)
    (d2R : tensor3) (Y : tensor3) (dY : tensor4) (d2Y : tensor3)
    : result tensor3 :=
  let d2ao := scale_last Rmult (norm_cst self)
    (map2_3 Rplus
       (map2_3 Rplus (map2_3 Rmult d2R Y)
                     (map (map (map (fun v => 2.0 * vsum v))) (map2_3 vmul dR dY)))
       (map2_3 Rmult R d2Y)) in
  if contract self then _contract self d2ao else Ok d2ao.

Definition _diag_hessian_kernel (self : t) (R : tensor3) (dR d2R : tensor4)
    (Y : tensor3) (dY d2Y : tensor4) : result tensor4 :=
  let bas :=
    map2_3 vadd
      (map2_3 vadd (map2_3 vmulr d2R Y)
                   (map (map (map (vscale 2.0))) (map2_3 vmul dR dY)))
      (map2_3 vscale R d2Y) in
  finish_unsummed self bas.

(** [(dR[..., [[0, 1], [0, 2], [1, 2]]] * dY[..., [[1, 0], [2, 0], [2, 1]]]).sum(-1)] *)
Definition cross_terms (dR dY : vec3) : vec3 :=
  V3 (vx dR * vy dY + vy dR * vx dY)
     (vx dR * vz dY + vz dR * vx dY)
     (vy dR * vz dY + vz dR * vy dY).

Definition _off_diag_hessian_kernel (self : t) (R : tensor3)
    (dR : tensor4) (d2R : tensor) (d2mR : tensor4) (Y : tensor3)
    (dY : tensor4) (d2Y : tensor) (d2mY : tensor4)
    : result tensor4 :=
  let bas :=
    map2_3 vadd
      (map2_3 vadd (map2_3 vmulr d2mR Y) (map2_3 cross_terms dR dY))
      (map2_3 vscale R d2mY) in
  finish_unsummed self bas.

(** *** Unpacking what [radial] and [harmonics] return *)

(** A tensor used where the arithmetic needs rank 3 (resp. rank 4). *)
Definition as3 (x : tensor) : result tensor3 :=
  match x with
  | T3 a => Ok a
  | T4 _ => Raise RuntimeError
  end.

Definition as4 (x : tensor) : result tensor4 :=
  match x with
  | T4 a => Ok a
  | T3 _ => Raise RuntimeError
  end.

(** [R = f(...)] *)
Definition unpack1 (o : pyout) : result tensor :=
  match o with
  | One a => Ok a
  | Many _ => Raise TypeError
  end.

(** [R, dR = f(...)], [R, dR, d2R = f(...)], [R, dR, d2R, d2mR = f(...)] *)
Definition unpack2 (o : pyout) : result (tensor * tensor) :=
  match o with
  | Many [a; b] => Ok (a, b)
  | _ => Raise ValueError
  end.

Definition unpack3 (o : pyout) : result (tensor * tensor * tensor) :=
  match o with
  | Many [a; b; c] => Ok (a, b, c)
  | _ => Raise ValueError
  end.

Definition unpack4 (o : pyout) : result (tensor * tensor * tensor * tensor) :=
  match o with
  | Many [a; b; c; d] => Ok (a, b, c, d)
  | _ => Raise ValueError
  end.

(** [self.harmonics(xyz, derivative=..., sum_grad=..., sum_hess=...)] *)
Definition call_harmonics (self : t) (xyz : tensor4) (derivative : list Z)
    (sum_grad sum_hess : bool) : result pyout :=
  match harmonics self with
  | Some h => Harmonics.__call__ h xyz (DList derivative) sum_grad sum_hess
  | None => Raise AttributeError
  end.

Definition call_radial (self : t) (r : tensor3) (xyz : option tensor4)
    (derivative : list Z) (sum_grad sum_hess : bool) : result pyout :=
  radial (radial_fam self) r (bas_n self) (bas_exp self) xyz derivative
         sum_grad sum_hess.

(** *** The evaluation paths *)

Definition _compute_ao_values (self : t) (pos : tensor2) : result tensor3 :=
  let* xyz_r := _process_position self pos in
  let xyz := fst xyz_r in
  let r := snd xyz_r in
  let* R := call_radial self r None [0%Z] true true in
  let* R := unpack1 R in
  let* R := as3 R in
  let* Y := call_harmonics self xyz [0%Z] true true in
  let* Y := unpack1 Y in
  let* Y := as3 Y in
  _ao_kernel self R Y.

Definition _compute_sum_gradient_ao_values (self : t) (pos : tensor2)
    : result tensor3 :=
  let* xyz_r := _process_position self pos in
  let xyz := fst xyz_r in
  let r := snd xyz_r in
  let* RdR := call_radial self r (Some xyz) [0; 1]%Z true true in
  let* RdR := unpack2 RdR in
  let* R := as3 (fst RdR) in
  let* dR := as3 (snd RdR) in
  let* YdY := call_harmonics self xyz [0; 1]%Z true true in
  let* YdY := unpack2 YdY in
  let* Y := as3 (fst YdY) in
  let* dY := as3 (snd YdY) in
  _sum_gradient_kernel self R dR Y dY.

Definition _compute_gradient_ao_values (self : t) (pos : tensor2)
    : result tensor4 :=
  let* xyz_r := _process_position self pos in
  let xyz := fst xyz_r in
  let r := snd xyz_r in
  let* RdR := call_radial self r (Some xyz) [0; 1]%Z false true in
  let* RdR := unpack2 RdR in
  let* R := as3 (fst RdR) in
  let* dR := as4 (snd RdR) in
  let* YdY := call_harmonics self xyz [0; 1]%Z false true in
  let* YdY := unpack2 YdY in
  let* Y := as3 (fst YdY) in
  let* dY := as4 (snd YdY) in
  _gradient_kernel self R dR Y dY.

Definition _compute_first_derivative_ao_values (self : t) (pos : tensor2)
    (sum_grad : bool) : result tensor :=
  if sum_grad
  then let* a := _compute_sum_gradient_ao_values self pos in Ok (T3 a)
  else let* a := _compute_gradient_ao_values self pos in Ok (T4 a).

Definition _compute_sum_diag_hessian_ao_values (self : t) (pos : tensor2)
    : result tensor3 :=
  let* xyz_r := _process_position self pos in
  let xyz := fst xyz_r in
  let r := snd xyz_r in
  let* Rs := call_radial self r (Some xyz) [0; 1; 2]%Z false true in
  let* Rs := unpack3 Rs in
  let* R := as3 (fst (fst Rs)) in
  let* dR := as4 (snd (fst Rs)) in
  let* d2R := as3 (snd Rs) in
  let* Ys := call_harmonics self xyz [0; 1; 2]%Z false true in
  let* Ys := unpack3 Ys in
  let* Y := as3 (fst (fst Ys)) in
  let* dY := as4 (snd (fst Ys)) in
  let* d2Y := as3 (snd Ys) in
  _sum_diag_hessian_kernel self R dR d2R Y dY d2Y.

Definition _compute_diag_hessian_ao_values (self : t) (pos : tensor2)
    : result tensor4 :=
  let* xyz_r := _process_position self pos in
  let xyz := fst xyz_r in
  let r := snd xyz_r in
  let* Rs := call_radial self r (Some xyz) [0; 1; 2]%Z false false in
  let* Rs := unpack3 Rs in
  let* R := as3 (fst (fst Rs)) in
  let* dR := as4 (snd (fst Rs)) in
  let* d2R := as4 (snd Rs) in
  let* Ys := call_harmonics self xyz [0; 1; 2]%Z false false in
  let* Ys := unpack3 Ys in
  let* Y := as3 (fst (fst Ys)) in
  let* dY := as4 (snd (fst Ys)) in
  let* d2Y := as4 (snd Ys) in
  _diag_hessian_kernel self R dR d2R Y dY d2Y.

Definition _compute_second_derivative_ao_values (self : t) (pos : tensor2)
    (sum_hess : bool) : result tensor :=
  if sum_hess
  then let* a := _compute_sum_diag_hessian_ao_values self pos in Ok (T3 a)
  else let* a := _compute_diag_hessian_ao_values self pos in Ok (T4 a).

Definition _compute_mixed_second_derivative_ao_values (self : t)
    (pos : tensor2) : result tensor4 :=
  let* xyz_r := _process_position self pos in
  let xyz := fst xyz_r in
  let r := snd xyz_r in
  let* Rs := call_radial self r (Some xyz) [0; 1; 2; 3]%Z false true in
  let* Rs := unpack4 Rs in
  let* R := as3 (fst (fst (fst Rs))) in
  let* dR := as4 (snd (fst (fst Rs))) in
  let d2R := snd (fst Rs) in
  let* d2mR := as4 (snd Rs) in
  let* Ys := call_harmonics self xyz [0; 1; 2; 3]%Z false true in
  let* Ys := unpack4 Ys in
  let* Y := as3 (fst (fst (fst Ys))) in
  let* dY := as4 (snd (fst (fst Ys))) in
  let d2Y := snd (fst Ys) in
  let* d2mY := as4 (snd Ys) in
  _off_diag_hessian_kernel self R dR d2R d2mR Y dY d2Y d2mY.

Definition _compute_all_ao_values (self : t) (pos : tensor2)
    : result (list tensor) :=
  let* xyz_r := _process_position self pos in
  let xyz := fst xyz_r in
  let r := snd xyz_r in
  let* Rs := call_radial self r (Some xyz) [0; 1; 2]%Z false true in
  let* Rs := unpack3 Rs in
  let* R := as3 (fst (fst Rs)) in
  let* dR := as4 (snd (fst Rs)) in
  let* d2R := as3 (snd Rs) in
  let* Ys := call_harmonics self xyz [0; 1; 2]%Z false true in
  let* Ys := unpack3 Ys in
  let* Y := as3 (fst (fst Ys)) in
  let* dY := as4 (snd (fst Ys)) in
  let* d2Y := as3 (snd Ys) in
  let* ao := _ao_kernel self R Y in
  let* dao := _gradient_kernel self R dR Y dY in
  let* d2ao := _sum_diag_hessian_kernel self R dR d2R Y dY d2Y in
  Ok [T3 ao; T4 dao; T3 d2ao].

(** *** [forward] *)

(** The [if / elif / else] chain on [derivative], run on the object as it
    is at that point (its [nelec] may have been overwritten). *)
Definition dispatch (self : t) (pos : tensor2) (derivative : list Z)
    (sum_grad sum_hess : bool) : result pyout :=
  if bool_decide (derivative = [0%Z]) then
    let* ao := _compute_ao_values self pos in Ok (One (T3 ao))
  else if bool_decide (derivative = [1%Z]) then
    let* ao := _compute_first_derivative_ao_values self pos sum_grad in Ok (One ao)
  else if bool_decide (derivative = [2%Z]) then
    let* ao := _compute_second_derivative_ao_values self pos sum_hess in Ok (One ao)
  else if bool_decide (derivative = [3%Z]) then
    let* ao := _compute_mixed_second_derivative_ao_values self pos in
    Ok (One (T4 ao))
  else if bool_decide (derivative = [0; 1; 2]%Z) then
    let* ao := _compute_all_ao_values self pos in Ok (Many ao)
  else Raise ValueError.

(** [forward(pos, derivative, sum_grad, sum_hess, one_elec)]: the outcome
    and the object after the call.  An exception leaves the object as it
    was when the exception was raised. *)
Definition forward (self : t) (pos : tensor2) (derivative : deriv_arg)
    (sum_grad sum_hess one_elec : bool) : result pyout * t :=
  let derivative := as_list derivative in
  if negb sum_grad && negb (bool_decide (1%Z ∈ derivative))
  then (Raise AssertionError, self)
  else if negb sum_hess && negb (bool_decide (2%Z ∈ derivative))
  then (Raise AssertionError, self)
  else
    let nelec_save := nelec self in
    let self1 := if one_elec then set_nelec 1 self else self in
    match dispatch self1 pos derivative sum_grad sum_hess with
    | Raise e => (Raise e, self1)
    | Ok ao =>
        let self2 := if one_elec then set_nelec nelec_save self1 else self1 in
        (Ok ao, self2)
    end.

(** *** [update] *)

(** Tensors live in a store; a reference is a key of the store. *)
Abbreviation store := (gmap nat tensor3).

(** [pos[:, ids:ide]] *)
Definition slice_cols (ids ide : nat) (pos : tensor2) : tensor2 :=
  map (fun row => take (ide - ids) (drop ids row)) pos.

(** [t.squeeze(1)] of a tensor whose axis 1 has size 1.  ([forward] with
    [one_elec=True] evaluates with [nelec = 1], so the electron axis of
    what it returns has size 1.) *)
Definition squeeze1 (a : tensor3) : result tensor2 :=
  rmapM (fun m => match m with
                  | [row] => Ok row
                  | _ => Raise RuntimeError
                  end) a.

(** Broadcasting of one axis of the right-hand side of an assignment: the
    sizes agree, or the right-hand side has size 1. *)
Definition broadcast_to {A : Type} (n : nat) (l : list A) : result (list A) :=
  if (length l =? n)%nat then Ok l
  else match l with
       | [x] => Ok (replicate n x)
       | _ => Raise RuntimeError
       end.

(** [ao_new[:, idelec, :] = v]: the index selects the rows to write
    ([IndexError] when [idelec] is out of range), then the right-hand side
    is broadcast to them. *)
Definition setitem_elec (ao_new : tensor3) (idelec : nat) (v : tensor2)
    : result tensor3 :=
  let* view := rmapM (fun m => match m !! idelec with
                               | None => Raise IndexError
                               | Some old => Ok old
                               end) ao_new in
  let* v := broadcast_to (length ao_new) v in
  rmapM (fun mv =>
           match fst mv !! idelec with
           | None => Raise IndexError
           | Some old =>
               let* row := broadcast_to (length old) (snd mv) in
               Ok (<[idelec := row]> (fst mv))
           end) (zip ao_new v).

(** [update(ao, pos, idelec)], for a rank-3 tensor [ao] (the "AO matrix" of
    the docstring) held at reference [ao] of the store.  Returns the
    outcome, the store and the object after the call. *)
Definition update (self : t) (st : store) (ao : nat) (pos : tensor2)
    (idelec : nat) : result nat * store * t :=
  match st !! ao with
  | None => (Raise AttributeError, st, self)
  | Some a =>
      (* ao_new = ao.clone() *)
      let ao_new := fresh (dom st) in
      let st1 := <[ao_new := a]> st in
      let ids := (idelec * 3)%nat in
      let ide := ((idelec + 1) * 3)%nat in
      let '(out, self') :=
        forward self (slice_cols ids ide pos) (DList [0%Z]) true true true in
      match (let* out := out in
             let* out := unpack1 out in
             let* out := as3 out in
             let* v := squeeze1 out in
             setitem_elec a idelec v) with
      | Raise e => (Raise e, st1, self')
      | Ok a' => (Ok ao_new, <[ao_new := a']> st1, self')
      end
  end.

End AtomicOrbitals.

(** ** The electron-electron Jastrow factor:
       [jastrow_factor_electron_electron.py] *)

Module JastrowFactorElectronElectron.

Local Open Scope R_scope.

(** The interface of a Jastrow kernel ([JastrowKernelElectronElectronBase]
    and its subclasses are not part of the sources at hand): the value on
    the unique pair distances (batch, pair), and the first and second
    derivatives (batch, dimension, pair). *)
Record kernel : Type := Kernel {
  kernel_forward : tensor2 -> tensor2;
  compute_derivative : tensor2 -> tensor3 -> tensor3;
  compute_second_derivative : tensor2 -> tensor3 -> tensor3 -> tensor3;
  requires_autograd : bool
}.

(** The interface of [ElectronElectronDistance] (not part of the sources at
    hand): [edist(pos)] of shape (batch, electron, electron) and
    [edist(pos, derivative=d)] of shape (batch, dimension, electron,
    electron). *)
Record distance : Type := Distance {
  edist_value : tensor2 -> tensor3;
  edist_derivative : nat -> tensor2 -> list tensor3
}.

Record t : Type := Build {
  nup : nat;
  ndown : nat;
  nelec : nat;
  ndim : nat;
  jastrow_kernel : kernel;
  mask_tri_up : list (list bool);
  index_col : list nat;
  index_row : list nat;
  edist : distance
}.

(** [mask[i, j] = True] *)
Definition mask_set (mask : list (list bool)) (i j : nat) : list (list bool) :=
  match mask !! i with
  | Some row => <[i := <[j := true]> row]> mask
  | None => mask
  end.

(** [get_mask_tri_up]: the two nested [for] loops, threading the mask and
    the two index lists. *)
Definition get_mask_tri_up (nelec : nat)
    : list (list bool) * list nat * list nat :=
  let mask := replicate nelec (replicate nelec false) in
  foldl (fun acc i =>
           foldl (fun (acc : list (list bool) * list nat * list nat) j =>
                    let '(mask, index_col, index_row) := acc in
                    (mask_set mask i j, index_col ++ [j], index_row ++ [i]))
                 acc (seq (i + 1) (nelec - (i + 1))))
        (mask, [], []) (seq 0 (nelec - 1)).

(** [JastrowFactorElectronElectron.__init__]; the kernel class and the
    distance class are applied to their constructor arguments. *)
Definition __init__ (mol_nup mol_ndown : nat)
    (jastrow_kernel : nat -> nat -> bool -> kernel)
    (ElectronElectronDistance : nat -> nat -> bool -> R -> distance)
    (scale : bool) (scale_factor : R) (cuda : bool) : t :=
  let nelec := (mol_nup + mol_ndown)%nat in
  let ndim := 3%nat in
  let '(mask, index_col, index_row) := get_mask_tri_up nelec in
  Build mol_nup mol_ndown nelec ndim
        (jastrow_kernel mol_nup mol_ndown cuda)
        mask index_col index_row
        (ElectronElectronDistance nelec ndim scale scale_factor).

(** [m.masked_select(mask)] on one matrix: the selected entries in
    row-major order. *)
Definition masked_select (mask : list (list bool)) (m : list (list R)) : list R :=
  concat (zip_with (fun (mrow : list bool) (row : list R) =>
                      omap (fun bx : bool * R =>
                              if fst bx then Some (snd bx) else None)
                           (zip mrow row)) mask m).

(** [x.view(nbatch, -1)] of a flat sequence. *)
Definition view_rows {A : Type} (nbatch : nat) (flat : list A)
    : result (list (list A)) :=
  if (nbatch =? 0)%nat || negb (length flat mod nbatch =? 0)%nat
  then Raise RuntimeError
  else Ok (reshape nbatch (length flat / nbatch) flat).

(** [extract_tri_up(inp)] for [inp] of shape (nbatch, n, n). *)
Definition extract_tri_up (self : t) (inp : tensor3) : result tensor2 :=
  let nbatch := length inp in
  view_rows nbatch (concat (map (masked_select (mask_tri_up self)) inp)).

(** [extract_tri_up(inp)] for [inp] of shape (nbatch, 3, n, n): the mask is
    broadcast over the two leading axes. *)
Definition extract_tri_up4 (self : t) (inp : list tensor3) : result tensor2 :=
  let nbatch := length inp in
  view_rows nbatch
    (concat (map (fun b => concat (map (masked_select (mask_tri_up self)) b)) inp)).

(** [get_edist_unique(pos)], the branch [derivative == 0]. *)
Definition get_edist_unique (self : t) (pos : tensor2) : result tensor2 :=
  extract_tri_up self (edist_value (edist self) pos).

(** [get_edist_unique(pos, derivative=d)], the branches [derivative == 1]
    and [derivative == 2]: [....view(nbatch, 3, -1)] with
    [nbatch = pos.shape[0]]. *)
Definition get_edist_unique_der (self : t) (pos : tensor2) (d : nat)
    : result tensor3 :=
  let nbatch := length pos in
  let* u := extract_tri_up4 self (edist_derivative (edist self) d pos) in
  let flat := concat u in
  if (nbatch =? 0)%nat || negb (length flat mod (nbatch * 3) =? 0)%nat
  then Raise RuntimeError
  else
    let npair := (length flat / (nbatch * 3))%nat in
    Ok (map (reshape 3 npair) (reshape nbatch (3 * npair) flat)).

(** [m.sum(-2)]: the sum of the rows of a matrix. *)
Definition sum_rows (m : list (list R)) : list R :=
  match m with
  | [] => []
  | row :: rows => foldl (zip_with Rplus) row rows
  end.

(** [a * b] on the last axis, where one side may have size 1. *)
Definition bmul (a b : list R) : list R :=
  match b with
  | [y] => map (fun x => x * y) a
  | _ => match a with
         | [x] => map (fun y => x * y) b
         | _ => zip_with Rmult a b
         end
  end.

(** [out = torch.zeros(shape[:-1] + [nelec]); out.index_add_(-1,
    self.index_row, src); out.index_add_(-1, self.index_col, -src)] on one
    vector [src] of per-pair entries. *)
Definition signed_scatter (self : t) (src : list R) : result (list R) :=
  let out := replicate (nelec self) 0 in
  let* out := index_add_ Rplus out (index_row self) src in
  index_add_ Rplus out (index_col self) (map Ropp src).

(** The same with [src] added at both the row and the column index. *)
Definition unsigned_scatter (self : t) (src : list R) : result (list R) :=
  let out := replicate (nelec self) 0 in
  let* out := index_add_ Rplus out (index_row self) src in
  index_add_ Rplus out (index_col self) src.

Inductive jtensor : Type :=
  | J2 (a : tensor2)
  | J3 (a : tensor3).

(** What [forward] returns: [None], one tensor or a tuple. *)
Inductive jout : Type :=
  | JNone
  | JOne (a : jtensor)
  | JTuple (l : list jtensor).

Definition jastrow_factor_derivative (self : t) (r : tensor2) (dr : tensor3)
    (jast : tensor2) (sum_grad : bool) : result jtensor :=
  if sum_grad then
    let djast := map sum_rows (compute_derivative (jastrow_kernel self) r dr) in
    let djast := zip_with bmul djast jast in
    let* out := rmapM (signed_scatter self) djast in
    Ok (J2 out)
  else
    let djast := compute_derivative (jastrow_kernel self) r dr in
    (* jast.unsqueeze(-1) has shape (nbatch, 1, 1) *)
    let djast := zip_with (fun m j => map (fun row => bmul row j) m) djast jast in
    let* out := rmapM (rmapM (signed_scatter self)) djast in
    Ok (J3 out).

(** [partial_derivative(djast)]: [(out**2).sum(-2)] after the signed
    scatter-add. *)
Definition partial_derivative (self : t) (djast : tensor3) : result tensor2 :=
  let* out := rmapM (rmapM (signed_scatter self)) djast in
  Ok (map (fun m => sum_rows (map (map (fun x => x ^ 2)) m)) out).

Definition jastrow_factor_second_derivative (self : t) (r : tensor2)
    (dr d2r : tensor3) (jast : tensor2) : result tensor2 :=
  let d2jast :=
    map sum_rows (compute_second_derivative (jastrow_kernel self) r dr d2r) in
  let* hess_jast := rmapM (unsigned_scatter self) d2jast in
  (* mixed terms *)
  let djast := compute_derivative (jastrow_kernel self) r dr in
  let* pd := partial_derivative self djast in
  let hess_jast := zip_with (zip_with Rplus) hess_jast pd in
  Ok (zip_with bmul hess_jast jast).

(** [forward(pos, derivative, sum_grad)] *)
Definition forward (self : t) (pos : tensor2) (derivative : deriv_arg)
    (sum_grad : bool) : result jout :=
  (* assert size[1] == self.nelec * self.ndim *)
  if negb (forallb (fun row => (length row =? nelec self * ndim self)%nat) pos)
  then Raise AssertionError
  else
    let* r := get_edist_unique self pos in
    let kern_vals := kernel_forward (jastrow_kernel self) r in
    let jast := map (fun row => [exp (rsum row)]) kern_vals in
    match derivative with
    | DInt 0%Z => Ok (JOne (J2 jast))
    | DInt 1%Z =>
        let* dr := get_edist_unique_der self pos 1 in
        let* d := jastrow_factor_derivative self r dr jast sum_grad in
        Ok (JOne d)
    | DInt 2%Z =>
        let* dr := get_edist_unique_der self pos 1 in
        let* d2r := get_edist_unique_der self pos 2 in
        let* d2 := jastrow_factor_second_derivative self r dr d2r jast in
        Ok (JOne (J2 d2))
    | DList [0; 1; 2]%Z =>
        let* dr := get_edist_unique_der self pos 1 in
        let* d2r := get_edist_unique_der self pos 2 in
        let* d := jastrow_factor_derivative self r dr jast sum_grad in
        let* d2 := jastrow_factor_second_derivative self r dr d2r jast in
        Ok (JTuple [J2 jast; d; J2 d2])
    | _ => Ok JNone
    end.

End JastrowFactorElectronElectron.

(** ** Concrete systems *)

Module Examples.

Local Open Scope R_scope.

(** Modelled from the spec: the "sto_pure" radial family of section 4.1,
    R = exp(-zeta r), with its derivatives by the chain rule through
    r = |x|. *)
Definition slater_pure : AtomicOrbitals.radial_family :=
  AtomicOrbitals.RadialFamily
    (fun r n zeta => exp (- zeta * r))
    (fun v r n zeta => vscale (- zeta * exp (- zeta * r) / r) v)
    (fun v r n zeta =>
       V3 (exp (- zeta * r) * (zeta ^ 2 * vx v ^ 2 / r ^ 2 - zeta / r + zeta * vx v ^ 2 / r ^ 3))
          (exp (- zeta * r) * (zeta ^ 2 * vy v ^ 2 / r ^ 2 - zeta / r + zeta * vy v ^ 2 / r ^ 3))
          (exp (- zeta * r) * (zeta ^ 2 * vz v ^ 2 / r ^ 2 - zeta / r + zeta * vz v ^ 2 / r ^ 3)))
    (fun v r n zeta =>
       V3 (exp (- zeta * r) * (zeta ^ 2 / r ^ 2 + zeta / r ^ 3) * (vx v * vy v))
          (exp (- zeta * r) * (zeta ^ 2 / r ^ 2 + zeta / r ^ 3) * (vx v * vz v))
          (exp (- zeta * r) * (zeta ^ 2 / r ^ 2 + zeta / r ^ 3) * (vy v * vz v))).

(** One s-type primitive (l = 0, exponent 1, unit normalisation) on one
    atom at the origin, for [n] electrons. *)
Definition s_orbital (n : nat) : AtomicOrbitals.t :=
  AtomicOrbitals.Build n 1 3 [V3 0 0 0] [1%nat] [0%nat] false [1] [1] [0]
    "sph" (Some (Harmonics.Build "sph" Harmonics.Cpu
                   (Harmonics.RegSph [0%Z] [0%Z])))
    slater_pure "sto_pure" [1].

(** The same primitive with contraction coefficient 3 and normalisation
    constant 7; the contraction map is the identity, so the object is not
    contracted. *)
Definition weighted_orbital (n : nat) : AtomicOrbitals.t :=
  AtomicOrbitals.Build n 1 3 [V3 0 0 0] [1%nat] [0%nat] false [3] [1] [0]
    "sph" (Some (Harmonics.Build "sph" Harmonics.Cpu
                   (Harmonics.RegSph [0%Z] [0%Z])))
    slater_pure "sto_pure" [7].

(** Two primitives on one atom contracted into one orbital. *)
Definition contracted_orbital (n : nat) : AtomicOrbitals.t :=
  AtomicOrbitals.Build n 1 3 [V3 0 0 0] [2%nat] [0%nat; 0%nat] true
    [1; 2] [1; 1] [0; 0]
    "sph" (Some (Harmonics.Build "sph" Harmonics.Cpu
                   (Harmonics.RegSph [0%Z; 0%Z] [0%Z; 0%Z])))
    slater_pure "sto_pure" [1; 1].

(** A Pade-type kernel w0 r / (1 + w r) with w0 = 1/2 and w = 1, applied
    to every pair distance, and its derivatives by the chain rule. *)
Definition pade : JastrowFactorElectronElectron.kernel :=
  JastrowFactorElectronElectron.Kernel
    (map (map (fun r => (1 / 2) * r / (1 + r))))
    (fun r dr =>
       zip_with (fun rrow m =>
                   map (fun drow =>
                          zip_with (fun x dx => (1 / 2) / (1 + x) ^ 2 * dx) rrow drow) m)
                r dr)
    (fun r dr d2r =>
       zip_with (fun rrow md =>
                   zip_with (fun drow d2row =>
                               zip_with (fun x dd =>
                                           (1 / 2) / (1 + x) ^ 2 * snd dd
                                           - 1 / (1 + x) ^ 3 * fst dd ^ 2)
                                        rrow (zip drow d2row))
                            (fst md) (snd md))
                r (zip dr d2r))
    false.

(** The plain (unscaled) electron-electron distance matrix of every batch
    element, and its first and second derivatives along each axis with
    respect to the first electron of the pair. *)
Definition plain_distance : JastrowFactorElectronElectron.distance :=
  JastrowFactorElectronElectron.Distance
    (map (fun row =>
            let p := AtomicOrbitals.triples row in
            map (fun a => map (fun b => AtomicOrbitals.dist (AtomicOrbitals.vsub a b)) p) p))
    (fun order pos =>
       map (fun row =>
              let p := AtomicOrbitals.triples row in
              map (fun k =>
                     map (fun a =>
                            map (fun b =>
                                   let u := vnth k (AtomicOrbitals.vsub a b) in
                                   let d := AtomicOrbitals.dist (AtomicOrbitals.vsub a b) in
                                   match order with
                                   | 1%nat => u / d
                                   | _ => 1 / d - u ^ 2 / d ^ 3
                                   end) p) p)
                  [0%nat; 1%nat; 2%nat]) pos).

(** The Jastrow factor of one spin-up and one spin-down electron, and of
    two spin-up and one spin-down electrons. *)
Definition two_electron_jastrow : JastrowFactorElectronElectron.t :=
  JastrowFactorElectronElectron.__init__ 1 1 (fun _ _ _ => pade)
    (fun _ _ _ _ => plain_distance) false 0.6 false.

Definition three_electron_jastrow : JastrowFactorElectronElectron.t :=
  JastrowFactorElectronElectron.__init__ 2 1 (fun _ _ _ => pade)
    (fun _ _ _ _ => plain_distance) false 0.6 false.

End Examples.

(** ** Normalisation of the primitives: [norm_orbital.py] *)

Module NormOrbital.

Local Open Scope R_scope.

(** The fields of [basis] that [atomic_orbital_norm] reads.  The quantum
    numbers and the cartesian exponents are integers here: the source
    passes them to [math.factorial] and to [astype("int")]. *)
Record namespace : Type := Namespace {
  harmonics_type : string;
  radial_type : string;
  bas_n : list Z;
  bas_exp : list R;
  bas_kx : list Z;
  bas_ky : list Z;
  bas_kz : list Z;
  bas_kr : list Z
}.

(** [math.factorial(k)], a Python integer: a negative argument raises
    [ValueError]. *)
Fixpoint fact_Z (n : nat) : Z :=
  match n with
  | O => 1
  | S m => Z.of_nat (S m) * fact_Z m
  end.

Definition factorial (k : Z) : result Z :=
  if (k <? 0)%Z then Raise ValueError else Ok (fact_Z (Z.to_nat k)).

(** A Python integer stored in a floating-point tensor
    ([torch.as_tensor(..., dtype=torch.get_default_dtype())]): an integer
    that rounds beyond the largest double, that is of magnitude
    2^1024 - 2^970 or more, raises [OverflowError]. *)
Definition float_of_int (k : Z) : result R :=
  if (Z.abs k <? 2 ^ 1024 - 2 ^ 970)%Z then Ok (IZR k) else Raise OverflowError.

(** [norm_slater_spherical]: the factorials first, then their conversion,
    then the elementwise expression
    [(2 * bas_exp) ** bas_n * sqrt(2 * bas_exp / nfact)]. *)
Definition norm_slater_spherical (bas_n : list Z) (bas_exp : list R)
    : result (list R) :=
  let* facts := rmapM (fun n => factorial (2 * n)) bas_n in
  let* nfact := rmapM float_of_int facts in
  Ok (zip_with (fun ne nf =>
                  (2 * snd ne) ^ Z.to_nat (fst ne) * sqrt (2 * snd ne / nf))
               (zip bas_n bas_exp) nfact).

Section Norms.

(** The three other normalisations are parameters: they call
    [double_factorial] of [qmctorch/utils/algebra_utils.py], or raise a
    real number to a real power. *)
Variable norm_gaussian_spherical : list Z -> list R -> result (list R).
Variable norm_slater_cartesian :
  list Z -> list Z -> list Z -> list Z -> list R -> result (list R).
Variable norm_gaussian_cartesian :
  list Z -> list Z -> list Z -> list R -> result (list R).

(** [atomic_orbital_norm(basis)]; [None] is what Python returns when no
    branch of the outer [if / elif] is taken. *)
Definition atomic_orbital_norm (basis : namespace) : result (option (list R)) :=
  if String.eqb (harmonics_type basis) "sph" then
    if String.prefix "sto" (radial_type basis) then
      let* v := norm_slater_spherical (bas_n basis) (bas_exp basis) in Ok (Some v)
    else if String.prefix "gto" (radial_type basis) then
      let* v := norm_gaussian_spherical (bas_n basis) (bas_exp basis) in Ok (Some v)
    else Raise ValueError
  else if String.eqb (harmonics_type basis) "cart" then
    if String.prefix "sto" (radial_type basis) then
      let* v := norm_slater_cartesian (bas_kx basis) (bas_ky basis) (bas_kz basis)
                                      (bas_kr basis) (bas_exp basis) in
      Ok (Some v)
    else if String.prefix "gto" (radial_type basis) then
      let* v := norm_gaussian_cartesian (bas_kx basis) (bas_ky basis)
                                        (bas_kz basis) (bas_exp basis) in
      Ok (Some v)
    else Raise ValueError
  else Ok None.

End Norms.

End NormOrbital.

(** ** Grids for the interpolation: [utils/interpolate.py] *)

Module Interpolate.

Local Open Scope R_scope.

(** [x // 2 * 2 == x] on Python integers; [//] rounds towards minus
    infinity, as [Z.div] does for a positive divisor. *)
Definition is_even (x : Z) : bool := (x / 2 * 2 =? x)%Z.

(** [np.linspace(start, stop, num)]: [num] evenly spaced points with both
    ends included; a negative [num] raises [ValueError]. *)
Definition linspace (start stop : R) (num : Z) : result (list R) :=
  if (num <? 0)%Z then Raise ValueError
  else
    let n := Z.to_nat num in
    let div := (n - 1)%nat in
    Ok (map (fun i => if (0 <? div)%nat
                      then INR i * ((stop - start) / INR div) + start
                      else INR i * (stop - start) + start)
            (seq 0 n)).

(** [np.logspace(start, stop, num)]: [10 ** np.linspace(start, stop, num)]. *)
Definition np_logspace (start stop : R) (num : Z) : result (list R) :=
  let* y := linspace start stop num in
  Ok (map (fun t => Rpower 10 t) y).

(** [logspace(n, length)], for [length > -1] (where [np.log] is the real
    logarithm). *)
Definition logspace (n : Z) (length : R) : result (list R) :=
  let k := ln (length + 1) / ln 10 in
  if is_even n then
    let* x := np_logspace 0.01 k (n / 2) in
    let x := map (fun t => t - 1) x in
    Ok (map Ropp (rev x) ++ drop 1 x)
  else
    let* x := np_logspace 0.0 k (n / 2 + 1) in
    let x := map (fun t => t - 1) x in
    Ok (map Ropp (rev x) ++ drop 1 x).

(** The argument of [get_boundaries] by its Python type; the positions are
    rows of three coordinates. *)
Inductive positions : Type :=
  | Tensor (rows : list vec3)
  | NdArray (rows : list vec3)
  | PyList (rows : list vec3)
  | Other.

Definition vmin (a b : vec3) : vec3 :=
  V3 (Rmin (vx a) (vx b)) (Rmin (vy a) (vy b)) (Rmin (vz a) (vz b)).

Definition vmax (a b : vec3) : vec3 :=
  V3 (Rmax (vx a) (vx b)) (Rmax (vy a) (vy b)) (Rmax (vz a) (vz b)).

(** [a.min(0)] and [a.max(0)]: the reduction over the rows; on no row at
    all torch raises [IndexError] and numpy [ValueError]. *)
Definition min0 (empty : exn) (rows : list vec3) : result vec3 :=
  match rows with
  | [] => Raise empty
  | a :: rows' => Ok (foldl vmin a rows')
  end.

Definition max0 (empty : exn) (rows : list vec3) : result vec3 :=
  match rows with
  | [] => Raise empty
  | a :: rows' => Ok (foldl vmax a rows')
  end.

(** [get_boundaries(atomic_positions, border_length)] *)
Definition get_boundaries (atomic_positions : positions) (border_length : R)
    : result (vec3 * vec3) :=
  let* pminmax :=
    match atomic_positions with
    | Tensor rows =>
        let* pmin := min0 IndexError rows in
        let* pmax := max0 IndexError rows in
        Ok (pmin, pmax)
    | NdArray rows | PyList rows =>
        let* pmin := min0 ValueError rows in
        let* pmax := max0 ValueError rows in
        Ok (pmin, pmax)
    | Other => Raise ValueError
    end in
  let pmin := fst pminmax in
  let pmax := snd pminmax in
  Ok (V3 (vx pmin - border_length) (vy pmin - border_length)
         (vz pmin - border_length),
      V3 (vx pmax + border_length) (vy pmax + border_length)
         (vz pmax + border_length)).

Section Grid.

(** [np.ceil(length / resolution).astype("int")]: the number of points of
    an axis of the given length.  The ceiling is taken of the quotient
    rounded to a double, which the real quotient does not determine (a
    quotient just above an integer may round to that integer): the count
    is a parameter. *)
Variable npts_of : R -> R -> Z.

(** [get_reg_grid(atomic_positions, resolution, border_length)] *)
Definition get_reg_grid (atomic_positions : positions)
    (resolution border_length : R) : result (list R * list R * list R) :=
  let* pminmax := get_boundaries atomic_positions border_length in
  let pmin := fst pminmax in
  let pmax := snd pminmax in
  let npts := fun k => npts_of (vnth k pmax - vnth k pmin) resolution in
  let* x := linspace (vnth 0 pmin) (vnth 0 pmax) (npts 0%nat) in
  let* y := linspace (vnth 1 pmin) (vnth 1 pmax) (npts 1%nat) in
  let* z := linspace (vnth 2 pmin) (vnth 2 pmax) (npts 2%nat) in
  Ok (x, y, z).

End Grid.

End Interpolate.

(** * Vocabulary of the statements *)

(** ** Results and requests *)

Module ResultVocabulary.
(** The value of a result, with a default for a raised exception. *)
Definition get {A : Type} (d : A) (m : result A) : A :=
  match m with
  | Ok a => a
  | Raise _ => d
  end.

Definition ok {A : Type} (m : result A) : Prop := exists a, m = Ok a.
(** An argument record with no keyword given. *)
Definition no_kwargs : Harmonics.kwargs :=
  Harmonics.Kwargs None None None None None None.

(** The derivative requests that [AtomicOrbitals.forward] serves. *)
Definition supported (derivative : list Z) : Prop :=
  derivative = [0%Z] \/ derivative = [1%Z] \/ derivative = [2%Z] \/
  derivative = [3%Z] \/ derivative = [0; 1; 2]%Z.

(** The requests that [JastrowFactorElectronElectron.forward] serves. *)
Definition served (derivative : deriv_arg) : Prop :=
  derivative = DInt 0 \/ derivative = DInt 1 \/ derivative = DInt 2 \/
  derivative = DList [0; 1; 2]%Z.
End ResultVocabulary.

(** ** Gradients of the l = 2 harmonics *)

Module GradientVocabulary.
Local Open Scope R_scope.
(** The l = 2 value formula as a function of the displacement. *)
Definition Y2 (m : Z) (v : vec3) : R :=
  match SphericalHarmonics._spherical_harmonics_l2 v m with
  | Ok y => y
  | Raise _ => 0
  end.

(** [g] is the coordinate gradient of [f] at [v]: its components are the
    derivatives of [f] along x, y and z. *)
Definition is_gradient (f : vec3 -> R) (v g : vec3) : Prop :=
  derivable_pt_lim (fun t => f (V3 t (vy v) (vz v))) (vx v) (vx g) /\
  derivable_pt_lim (fun t => f (V3 (vx v) t (vz v))) (vy v) (vy g) /\
  derivable_pt_lim (fun t => f (V3 (vx v) (vy v) t)) (vz v) (vz g).

(** The coordinate gradients of the five l = 2 value formulas, each with
    the constant of its value formula. *)
Definition analytic_grad_l2 (m : Z) (v : vec3) : vec3 :=
  let x := vx v in
  let y := vy v in
  let z := vz v in
  let r4 := vsq v ^ 2 in
  let c0 := 0.31539156525252005 in
  let c2 := 0.5462742152960396 in
  let cm := 1.0925484305920792 in
  if (m =? -2)%Z then
    vscale (cm / r4) (V3 (y * (- x ^ 2 + y ^ 2 + z ^ 2))
                         (x * (x ^ 2 - y ^ 2 + z ^ 2))
                         (-2 * x * y * z))
  else if (m =? -1)%Z then
    vscale (cm / r4) (V3 (-2 * x * y * z)
                         (z * (x ^ 2 - y ^ 2 + z ^ 2))
                         (y * (x ^ 2 + y ^ 2 - z ^ 2)))
  else if (m =? 0)%Z then
    vscale (c0 / r4) (V3 (-6 * x * z ^ 2) (-6 * y * z ^ 2)
                         (6 * z * (x ^ 2 + y ^ 2)))
  else if (m =? 1)%Z then
    vscale (cm / r4) (V3 (z * (- x ^ 2 + y ^ 2 + z ^ 2))
                         (-2 * x * y * z)
                         (x * (x ^ 2 + y ^ 2 - z ^ 2)))
  else if (m =? 2)%Z then
    vscale (c2 / r4) (V3 (2 * x * (2 * y ^ 2 + z ^ 2))
                         (-2 * y * (2 * x ^ 2 + z ^ 2))
                         (-2 * z * (x ^ 2 - y ^ 2)))
  else zero3.
End GradientVocabulary.

(** ** Scatter-add and the shapes of the Jastrow tensors *)

Module ScatterVocabulary.
Import JastrowFactorElectronElectron.
Local Open Scope R_scope.
(** The sum of [src[k]] over the positions [k] with [index[k] = e]: what a
    scatter-add along [index] accumulates at entry [e]. *)
Definition scatter_sum (index : list nat) (src : list R) (e : nat) : R :=
  rsum (omap (fun p : nat * R => if (fst p =? e)%nat then Some (snd p) else None)
             (zip index src)).
(** The index arrays of an object are those of its electron count. *)
Definition valid_indices (self : t) : Prop :=
  length (index_col self) = length (index_row self) /\
  Forall (fun j => (j < nelec self)%nat) (index_col self) /\
  Forall (fun i => (i < nelec self)%nat) (index_row self).

(** A vector with exactly one entry: the pair axis of a two-electron
    system, or the trailing axis of the Jastrow value. *)
Definition single (row : list R) : Prop := exists k, row = [k].

(** A 2 x 2 matrix; its entry (0, 1) is the distance of the pair. *)
Definition two_by_two (M : list (list R)) : Prop :=
  exists a r12 c d, M = [[a; r12]; [c; d]].

Definition r12 (M : list (list R)) : R := nth 1 (nth 0 M []) 0.

(** A (dimension, pair) matrix: at least one row, one column per pair. *)
Definition well_shaped (npair : nat) (m : list (list R)) : Prop :=
  m <> [] /\ Forall (fun row => length row = npair) m.
End ScatterVocabulary.

(** ** The second derivative with the cross term summed over the pair axis *)

Module WordedSecondDerivative.
Import JastrowFactorElectronElectron.
Local Open Scope R_scope.

(** The cross term as the specification words it: the signed scatter-add,
    squared, and summed over the axis the scatter-add runs along (the
    electron-pair axis before the scatter, the electron axis after it). *)
Definition cross_term_over_pair_axis (self : t) (djast : tensor3)
    : result tensor2 :=
  let* out := rmapM (rmapM (signed_scatter self)) djast in
  Ok (map (map (fun row => rsum (map (fun x => x ^ 2) row))) out).

(** The second derivative with that cross term in the place of
    [partial_derivative]. *)
Definition second_derivative_as_worded (self : t) (r : tensor2)
    (dr d2r : tensor3) (jast : tensor2) : result tensor2 :=
  let d2jast :=
    map sum_rows (compute_second_derivative (jastrow_kernel self) r dr d2r) in
  let* hess_jast := rmapM (unsigned_scatter self) d2jast in
  let djast := compute_derivative (jastrow_kernel self) r dr in
  let* pd := cross_term_over_pair_axis self djast in
  let hess_jast := zip_with (zip_with Rplus) hess_jast pd in
  Ok (zip_with bmul hess_jast jast).
End WordedSecondDerivative.

(** ** Contraction *)

Module ContractionVocabulary.
Import AtomicOrbitals.
Local Open Scope R_scope.
(** The per-primitive output in the words of the specification ("radial x
    harmonic x normalization x contraction-coefficient per primitive"):
    primitive p of electron e in batch element b carries
    bas_coeffs[p] * (norm_cst[p] * R[b, e, p] * Y[b, e, p]). *)
Definition worded_per_primitive (self : t) (R Y : tensor3) : tensor3 :=
  scale_last Rmult (bas_coeffs self)
    (map2_3 Rmult (scale_last Rmult (norm_cst self) R) Y).

(** A tensor of shape (batch, nelec, n). *)
Definition has_shape (nelec n : nat) (a : tensor3) : Prop :=
  Forall (fun m => length m = nelec /\ Forall (fun row => length row = n) m) a.
End ContractionVocabulary.

(** ** The orbitals of one electron *)

Module RowVocabulary.
Import AtomicOrbitals ResultVocabulary.
Local Open Scope R_scope.

(** The object has a harmonics engine of a recognised type with the
    parameters of that type. *)
Definition harm_ok (self : t) : Prop :=
  match harmonics self with
  | Some h =>
      if String.eqb (Harmonics.type h) "cart" then
        match Harmonics.params h with
        | Harmonics.RegCart _ _ _ _ => True
        | _ => False
        end
      else if String.eqb (Harmonics.type h) "sph" then
        match Harmonics.params h with
        | Harmonics.RegSph _ _ => True
        | _ => False
        end
      else False
  | None => False
  end.

(** The harmonics of the primitives of one electron. *)
Definition harm_row (self : t) (xyz : list vec3) : result (list R) :=
  match harmonics self with
  | Some h =>
      if String.eqb (Harmonics.type h) "cart" then
        match Harmonics.params h with
        | Harmonics.RegCart _ _ _ bas_k =>
            Ok (zip_with CartesianHarmonics._kernel bas_k xyz)
        | _ => Raise AttributeError
        end
      else if String.eqb (Harmonics.type h) "sph" then
        match Harmonics.params h with
        | Harmonics.RegSph bas_l bas_m =>
            SphericalHarmonics.get_spherical_harmonics_row bas_l bas_m 0 xyz
        | _ => Raise AttributeError
        end
      else Raise ValueError
  | None => Raise AttributeError
  end.

(** The stages of the value of the orbitals at one electron position [e]:
    displacements and distances to the primitives, radial part, harmonics,
    normalised product, contraction. *)
Definition atom_row (self : t) (e : vec3) : list vec3 :=
  map (fun a => vsub e a) (atom_coords self).

Definition xyz_row (self : t) (e : vec3) : list vec3 :=
  get [] (repeat_interleave (nshells self) (atom_row self e)).

Definition r_row (self : t) (e : vec3) : list R :=
  get [] (repeat_interleave (nshells self) (map dist (atom_row self e))).

Definition R_row (self : t) (e : vec3) : list R :=
  zip_with (fun x ne => rad_value (radial_fam self) x (fst ne) (snd ne))
           (r_row self e) (zip (bas_n self) (bas_exp self)).

Definition Y_row (self : t) (e : vec3) : list R :=
  get [] (harm_row self (xyz_row self e)).

Definition prim_row (self : t) (e : vec3) : list R :=
  zip_with Rmult (zip_with Rmult (norm_cst self) (R_row self e)) (Y_row self e).

Definition contract_row (self : t) (bas : list R) : result (list R) :=
  index_add_ Rplus (replicate (norb self) 0) (index_ctr self)
             (zip_with Rmult (bas_coeffs self) bas).

Definition ao_row (self : t) (e : vec3) : list R :=
  if contract self then get [] (contract_row self (prim_row self e))
  else prim_row self e.

(** Every stage succeeds at [e]. *)
Definition row_ok (self : t) (e : vec3) : Prop :=
  ok (repeat_interleave (nshells self) (atom_row self e)) /\
  ok (repeat_interleave (nshells self) (map dist (atom_row self e))) /\
  ok (harm_row self (xyz_row self e)) /\
  (contract self = true -> ok (contract_row self (prim_row self e))).
End RowVocabulary.

(** ** One moved electron *)

Module UpdateVocabulary.
(** Row [rown] of a position batch differs from row [rowo] in the three
    coordinates of electron [idelec] at most. *)
Definition moved_only (idelec : nat) (rowo rown : list R) : Prop :=
  take (3 * idelec) rown = take (3 * idelec) rowo /\
  drop (3 * idelec + 3) rown = drop (3 * idelec + 3) rowo.
End UpdateVocabulary.

Module HarmonicsVocabulary.
Import SphericalHarmonics ResultVocabulary.
Local Open Scope R_scope.
(** The l = 1 value formula as a function of the displacement. *)
Definition Y1 (m : Z) (v : vec3) : R :=
  match _spherical_harmonics_l1 v m with
  | Ok y => y
  | Raise _ => 0
  end.

(** The function that [get_spherical_harmonics] assigns for derivative
    order 0, 1 or 2. *)
Definition pick {A : Type} (d : Z) (f0 f1 f2 : A) : A :=
  if (d =? 0)%Z then f0 else if (d =? 1)%Z then f1 else f2.

Definition served_order (d : Z) : bool :=
  (d =? 0)%Z || (d =? 1)%Z || (d =? 2)%Z.

(** The entry of the row of harmonics for a primitive with quantum numbers
    (l, mi) at displacement [v], for derivative order [d]: the formula of
    (l, mi) when d is 0, 1 or 2 and l is 0, or l is 1 or 2 with |mi| <= l,
    and zero otherwise. *)
Definition sph_entry (d l mi : Z) (v : vec3) : R :=
  if negb (served_order d) then 0
  else if (l =? 0)%Z then
    pick d (_spherical_harmonics_l0 v) (_nabla_spherical_harmonics_l0 v) 0
  else if (l =? 1)%Z && (-1 <=? mi)%Z && (mi <=? 1)%Z then
    get 0 (pick d (_spherical_harmonics_l1 v mi)
                  (_nabla_spherical_harmonics_l1 v mi)
                  (_lap_spherical_harmonics_l1 v mi))
  else if (l =? 2)%Z && (-2 <=? mi)%Z && (mi <=? 2)%Z then
    get 0 (pick d (_spherical_harmonics_l2 v mi)
                  (_nabla_spherical_harmonics_l2 v mi)
                  (_lap_spherical_harmonics_l2 v mi))
  else 0.

(** One block [for mval in mvals: ...] of [get_spherical_harmonics], for
    the value L of l and the three functions of that l. *)
Definition block (lval m : list Z) (d : Z) (xyz : list vec3) (L : Z)
    (F0 F1 F2 : Z -> vec3 -> result R) (mvals : list Z) (Y : list R)
    : result (list R) :=
  for_mval mvals (fun mval Y =>
    let ind := mask_lm lval m L mval in
    if any ind then
      let* Y := when_deriv d 0 ind (F0 mval) xyz Y in
      let* Y := when_deriv d 1 ind (F1 mval) xyz Y in
      when_deriv d 2 ind (F2 mval) xyz Y
    else Ok Y) Y.

(** The quantum numbers that the engine assigns a formula to: l = 0
    (whatever m is), or l = 1 or 2 with |m| <= l. *)
Definition supported_lm (l mi : Z) : Prop :=
  l = 0%Z \/ (l = 1%Z /\ (-1 <= mi <= 1)%Z) \/ (l = 2%Z /\ (-2 <= mi <= 2)%Z).
End HarmonicsVocabulary.

Module TranslationVocabulary.
Import AtomicOrbitals.
Local Open Scope R_scope.
(** A row of electron coordinates with every electron moved by [w]. *)
Fixpoint translate_row (w : vec3) (row : list R) : list R :=
  match row with
  | x :: y :: z :: row' =>
      (x + vx w) :: (y + vy w) :: (z + vz w) :: translate_row w row'
  | _ => row
  end.

(** The object with every atom moved by [w]. *)
Definition translate_atoms (w : vec3) (self : t) : t :=
  Build (nelec self) (norb self) (ndim self)
        (map (fun a => vadd a w) (atom_coords self)) (nshells self)
        (index_ctr self) (contract self) (bas_coeffs self) (bas_exp self)
        (bas_n self) (harmonics_type self) (harmonics self) (radial_fam self)
        (radial_type self) (norm_cst self).
End TranslationVocabulary.

Module PairVocabulary.
(** The pairs (i, j) with i < j < n, row by row. *)
Definition pairs_from (n i : nat) : list (nat * nat) :=
  map (fun j => (i, j)) (seq (i + 1) (n - (i + 1))).

Definition pairs (n : nat) : list (nat * nat) :=
  flat_map (pairs_from n) (seq 0 (n - 1)).
End PairVocabulary.

Module GridVocabulary.

Import Interpolate.
Local Open Scope R_scope.

(** The three kinds of argument that [get_boundaries] accepts, over the
    same rows. *)
Definition holds (atomic_positions : positions) (rows : list vec3) : Prop :=
  atomic_positions = Tensor rows \/ atomic_positions = NdArray rows \/
  atomic_positions = PyList rows.

(** [pmin] and [pmax] bound a box that keeps every atom [border] away from
    its faces, and each face is exactly [border] away from some atom. *)
Definition tight_box (rows : list vec3) (border : R) (pmin pmax : vec3) : Prop :=
  forall k : nat,
    (forall a, a ∈ rows ->
       vnth k pmin + border <= vnth k a <= vnth k pmax - border) /\
    (exists a, a ∈ rows /\ vnth k a = vnth k pmin + border) /\
    (exists a, a ∈ rows /\ vnth k a = vnth k pmax - border).

(** One axis of [n] points of the regular grid over [[lo, hi]]: the
    points start at [lo], end at [hi] when there are two of them or more,
    are evenly spaced and lie between [lo] and [hi]. *)
Definition regular_axis (lo hi : R) (n : Z) (g : list R) : Prop :=
  length g = Z.to_nat n /\
  ((1 <= n)%Z -> head g = Some lo) /\
  ((2 <= n)%Z -> last g = Some hi) /\
  (forall i a b, g !! i = Some a -> g !! S i = Some b ->
     b - a = (hi - lo) / INR (length g - 1)) /\
  Forall (fun t => lo <= t <= hi) g.

End GridVocabulary.

(** * Properties *)

(** ** Results *)

Lemma rbind_Ok {A B : Type} (m : result A) (k : A -> result B) (b : B) :
  rbind m k = Ok b <-> exists a, m = Ok a /\ k a = Ok b.
Proof.
  destruct m as [a|e]; simpl; split.
  - intros H. exists a. split; [reflexivity | exact H].
  - intros (a' & Ha & Hk). injection Ha as ->. exact Hk.
  - discriminate.
  - intros (a' & Ha & _). discriminate.
Qed.

Lemma is_raise_bind {A B : Type} (m : result A) (k : A -> result B) :
  (forall a, is_raise (k a)) -> is_raise (rbind m k).
Proof. intros H. destruct m; simpl; [apply H | exact I]. Qed.

Lemma is_raise_bind_l {A B : Type} (m : result A) (k : A -> result B) :
  is_raise m -> is_raise (rbind m k).
Proof. destruct m; simpl; [intros [] | intros _; exact I]. Qed.

Lemma not_raise_Ok {A : Type} (m : result A) :
  ~ is_raise m <-> exists a, m = Ok a.
Proof.
  destruct m as [a|e]; simpl; split.
  - intros _. exists a. reflexivity.
  - intros _ [].
  - intros H. exfalso. apply H. exact I.
  - intros [a Ha]. discriminate.
Qed.

(** ** C9: an unrecognised harmonics type *)

Module HarmonicsFacts.
Import ResultVocabulary.

Import Harmonics.

(** C9, as stated, fails: with the unrecognised type "foo" the constructor
    returns an object, and it is the evaluation call that raises
    [ValueError]. *)
Lemma unknown_type_is_built_and_fails_at_call :
  __init__ "foo" no_kwargs = Ok (Build "foo" Cpu RegNone) /\
  __call__ (Build "foo" Cpu RegNone) [[[V3 1 0 0]]] (DList [0%Z]) true true
    = Raise ValueError.
Proof. split; reflexivity. Qed.

(** C9, amended: for a type that is neither "cart" nor "sph" the
    constructor succeeds, registering no parameter, and every later
    evaluation call on the object raises [ValueError]. *)
Theorem unknown_type_raises_at_evaluation (ty : string) (kw : kwargs) :
  ty <> "cart"%string -> ty <> "sph"%string ->
  exists h, __init__ ty kw = Ok h /\ type h = ty /\ params h = RegNone /\
    forall xyz derivative sum_grad sum_hess,
      __call__ h xyz derivative sum_grad sum_hess = Raise ValueError.
Proof.
  intros Hc Hs.
  apply String.eqb_neq in Hc, Hs.
  eexists. unfold __init__. rewrite Hs, Hc. split; [reflexivity|].
  split; [reflexivity|]. split; [reflexivity|].
  intros. unfold __call__. simpl. rewrite Hc, Hs. reflexivity.
Qed.

Lemma unknown_type_raises_at_evaluation_witness :
  exists h, __init__ "foo" no_kwargs = Ok h /\ type h = "foo"%string /\
    params h = RegNone /\
    forall xyz derivative sum_grad sum_hess,
      __call__ h xyz derivative sum_grad sum_hess = Raise ValueError.
Proof.
  apply (unknown_type_raises_at_evaluation "foo" no_kwargs); discriminate.
Defined.

(** The recognised types do fail at construction when a parameter they
    need is missing. *)
Lemma sph_without_parameters_raises :
  __init__ "sph" no_kwargs = Raise KeyError.
Proof. reflexivity. Qed.

End HarmonicsFacts.

(** ** C3 and C10: the dispatch of [forward] *)

Module ForwardFacts.
Import ResultVocabulary.

Import AtomicOrbitals.

Lemma dispatch_unsupported self pos derivative sum_grad sum_hess :
  ~ supported derivative ->
  dispatch self pos derivative sum_grad sum_hess = Raise ValueError.
Proof.
  intros H. unfold dispatch, supported in *.
  repeat case_bool_decide; try reflexivity; exfalso; apply H; tauto.
Qed.

(** The orbital engine raises on every request outside the supported set,
    whatever the other arguments are. *)
Lemma forward_unsupported_raises self pos derivative sum_grad sum_hess one_elec :
  ~ supported (as_list derivative) ->
  is_raise (fst (forward self pos derivative sum_grad sum_hess one_elec)).
Proof.
  intros H. unfold forward.
  destruct (negb sum_grad && _); [exact I|].
  destruct (negb sum_hess && _); [exact I|].
  rewrite dispatch_unsupported by exact H. exact I.
Qed.

(** Spherical harmonics refuse the unsummed Hessian. *)
Lemma spherical_unsummed_hessian_raises xyz l m derivative sum_grad :
  SphericalHarmonics.SphericalHarmonics xyz l m derivative sum_grad false
  = Raise NotImplementedError.
Proof. reflexivity. Qed.

Lemma forward_spherical_unsummed_hessian_raises self pos bas_l bas_m dev
    sum_grad one_elec :
  harmonics self = Some (Harmonics.Build "sph" dev (Harmonics.RegSph bas_l bas_m)) ->
  is_raise (fst (forward self pos (DList [2%Z]) sum_grad false one_elec)).
Proof.
  intros Hh. unfold forward.
  destruct (negb sum_grad && _); [exact I|].
  simpl.
  set (self1 := if one_elec then set_nelec 1 self else self).
  assert (Hh1 : harmonics self1 =
                Some (Harmonics.Build "sph" dev (Harmonics.RegSph bas_l bas_m))).
  { subst self1. destruct one_elec; exact Hh. }
  assert (Hr : is_raise (dispatch self1 pos [2%Z] sum_grad false)).
  { unfold dispatch. simpl.
    apply is_raise_bind_l.
    unfold _compute_second_derivative_ao_values. apply is_raise_bind_l.
    unfold _compute_diag_hessian_ao_values, call_harmonics. rewrite Hh1.
    repeat (match goal with
            | |- is_raise (rbind ?m _) => destruct m; simpl; try exact I
            end). }
  revert Hr. 
  destruct (dispatch self1 pos [2%Z] sum_grad false); simpl; tauto.
Qed.

Lemma set_nelec_restore self n : set_nelec (nelec self) (set_nelec n self) = self.
Proof. destruct self; reflexivity. Qed.

(** C10: a call of [forward] that returns normally leaves [nelec] as it
    was.  With [one_elec] the evaluation itself runs on the object with
    [nelec = 1], and the saved value is put back before the return; the
    object after the call is the object before it. *)
Theorem forward_restores_nelec self pos derivative sum_grad sum_hess one_elec
    out self' :
  forward self pos derivative sum_grad sum_hess one_elec = (Ok out, self') ->
  nelec self' = nelec self /\ self' = self /\
  dispatch (if one_elec then set_nelec 1 self else self) pos
           (as_list derivative) sum_grad sum_hess = Ok out.
Proof.
  unfold forward.
  destruct (negb sum_grad && _); [discriminate|].
  destruct (negb sum_hess && _); [discriminate|].
  destruct (dispatch _ pos (as_list derivative) sum_grad sum_hess) as [ao|e] eqn:E;
    [|discriminate].
  intros H. injection H as <- <-.
  destruct one_elec.
  - rewrite set_nelec_restore. auto.
  - auto.
Qed.

Lemma forward_restores_nelec_witness :
  nelec (snd (forward (Examples.s_orbital 2) [[1; 0; 0]%R] (DList [0%Z])
                      true true true)) = nelec (Examples.s_orbital 2).
Proof.
  eapply (forward_restores_nelec (Examples.s_orbital 2) [[1; 0; 0]%R]
            (DList [0%Z]) true true true).
  reflexivity.
Defined.

(** While the evaluation of a one-electron call runs, the electron count
    is 1. *)
Lemma one_elec_runs_with_one_electron self :
  nelec (set_nelec 1 self) = 1%nat.
Proof. reflexivity. Qed.

(** A call that raises after [self.nelec = 1] leaves the count at 1. *)
Lemma forward_raise_keeps_one_electron :
  forward (Examples.s_orbital 2) [[1; 0; 0]%R] (DList [7%Z]) true true true
  = (Raise ValueError, set_nelec 1 (Examples.s_orbital 2)).
Proof. reflexivity. Qed.

End ForwardFacts.

Module JastrowForwardFacts.
Import ResultVocabulary.

Import JastrowFactorElectronElectron.

(** Outside the served requests the chain of [if / elif] has no final
    [else]: once the shape assertion and the distance extraction pass, the
    call returns [None]. *)
Lemma forward_unserved self pos derivative sum_grad r :
  ~ served derivative ->
  forallb (fun row => (length row =? nelec self * ndim self)%nat) pos = true ->
  get_edist_unique self pos = Ok r ->
  forward self pos derivative sum_grad = Ok JNone.
Proof.
  intros Hd Ha Hr. unfold forward. rewrite Ha, Hr. simpl.
  unfold served in Hd.
  destruct derivative as [d|ds].
  - destruct d as [|p|p]; [tauto| |reflexivity].
    destruct p as [p|p|]; [destruct p; reflexivity| |tauto].
    destruct p; try reflexivity. tauto.
  - repeat (match goal with
            | |- context [match ?l with [] => _ | _ :: _ => _ end] =>
                destruct l; try reflexivity
            | |- context [match ?z with Z0 => _ | Zpos _ => _ | Zneg _ => _ end] =>
                destruct z; try reflexivity
            | |- context [match ?p with xI _ => _ | xO _ => _ | xH => _ end] =>
                destruct p; try reflexivity
            end).
    tauto.
Qed.

(** C3 at derivative order 3 (the mixed second derivative, which the
    orbital engine serves): the Jastrow engine returns [None] and raises
    nothing. *)
Theorem jastrow_forward_order_3_returns_none :
  forward Examples.two_electron_jastrow [[1; 0; 0; 0; 0; 0]%R] (DInt 3) true
  = Ok JNone.
Proof. reflexivity. Qed.

(** A list-valued request for the value alone is not served either. *)
Lemma jastrow_forward_list_0_returns_none :
  forward Examples.two_electron_jastrow [[1; 0; 0; 0; 0; 0]%R] (DList [0%Z]) true
  = Ok JNone.
Proof. reflexivity. Qed.

End JastrowForwardFacts.

Module SphericalHarmonicsFacts.
Import SphericalHarmonics GradientVocabulary.
Local Open Scope R_scope.

Lemma derivable_quadratic a b c x :
  derivable_pt_lim (fun t => a * t ^ 2 + b * t + c) x (2 * a * x + b).
Proof.
  pose proof (derivable_pt_lim_pow x 2) as H2.
  pose proof (derivable_pt_lim_scal _ a x _ H2) as Ha.
  pose proof (derivable_pt_lim_scal _ b x _ (derivable_pt_lim_id x)) as Hb.
  pose proof (derivable_pt_lim_const c x) as Hc.
  pose proof (derivable_pt_lim_plus _ _ _ _ _
                (derivable_pt_lim_plus _ _ _ _ _ Ha Hb) Hc) as H.
  eapply derivable_pt_lim_ext; [| replace (2 * a * x + b) with
    (a * (INR 2 * x ^ Init.Nat.pred 2) + b * 1 + 0) by (simpl; ring); exact H].
  intros t. unfold plus_fct, mult_real_fct, fct_cte, id. reflexivity.
Qed.

(** The derivative of a ratio of a quadratic and a shifted square: the
    shape of every l = 2 value formula along one coordinate. *)
Lemma derivable_ratio (f : R -> R) a b c d x l :
  (forall t, f t = (a * t ^ 2 + b * t + c) / (t ^ 2 + d)) ->
  x ^ 2 + d <> 0 ->
  l = ((2 * a * x + b) * (x ^ 2 + d) - (a * x ^ 2 + b * x + c) * (2 * x))
      / (x ^ 2 + d) ^ 2 ->
  derivable_pt_lim f x l.
Proof.
  intros Hf Hd ->.
  pose proof (derivable_quadratic a b c x) as HN.
  pose proof (derivable_quadratic 1 0 d x) as HD.
  assert (HD0 : (fun t => 1 * t ^ 2 + 0 * t + d) x <> 0).
  { simpl. intros E. apply Hd. rewrite <- E. ring. }
  pose proof (derivable_pt_lim_div _ _ _ _ _ HN HD HD0) as H.
  eapply derivable_pt_lim_ext; [| match type of H with
      derivable_pt_lim _ _ ?l0 => replace
        (((2 * a * x + b) * (x ^ 2 + d) - (a * x ^ 2 + b * x + c) * (2 * x))
         / (x ^ 2 + d) ^ 2) with l0; [exact H|] end].
  - intros t. rewrite Hf. unfold div_fct.
    replace (1 * t ^ 2 + 0 * t + d) with (t ^ 2 + d) by ring. reflexivity.
  - unfold Rsqr. field. exact Hd.
Qed.

Lemma sqrt_pow4 s : 0 <= s -> sqrt s ^ 4 = s ^ 2.
Proof.
  intros Hs. replace (sqrt s ^ 4) with ((sqrt s * sqrt s) * (sqrt s * sqrt s)) by ring.
  rewrite sqrt_sqrt by exact Hs. ring.
Qed.

Lemma vsq_nonneg v : 0 <= vsq v.
Proof. unfold vsq. nra. Qed.

Ltac unset := repeat match goal with x := _ : R |- _ => subst x end.

Ltac vsq_nonzero Hv :=
  let E := fresh in
  intros E; apply Hv; unfold vsq; cbn -[pow]; rewrite <- E; ring.

Ltac partial a b c d Hv :=
  apply (derivable_ratio _ a b c d);
  [ intros t; unfold Y2; cbn -[pow]; unfold vsq; cbn -[pow]; unset;
    unfold Rdiv; apply (f_equal2 Rmult); [ring | apply f_equal; ring]
  | vsq_nonzero Hv
  | cbn -[pow]; unfold vsq; cbn -[pow]; unset; field; vsq_nonzero Hv ].

(** The closed forms of [analytic_grad_l2] are the gradients of the value
    formulas of [_spherical_harmonics_l2]. *)
Lemma analytic_grad_l2_m0 v :
  vsq v <> 0 -> is_gradient (Y2 0) v (analytic_grad_l2 0 v).
Proof.
  destruct v as [x y z]. intros Hv. unfold is_gradient. cbn -[Y2 analytic_grad_l2].
  set (c0 := 0.31539156525252005).
  split; [|split].
  - partial (- c0) 0 (c0 * (- y ^ 2 + 2 * z ^ 2)) (y ^ 2 + z ^ 2) Hv.
  - partial (- c0) 0 (c0 * (- x ^ 2 + 2 * z ^ 2)) (x ^ 2 + z ^ 2) Hv.
  - partial (2 * c0) 0 (c0 * (- x ^ 2 - y ^ 2)) (x ^ 2 + y ^ 2) Hv.
Qed.

Lemma analytic_grad_l2_m2 v :
  vsq v <> 0 -> is_gradient (Y2 2) v (analytic_grad_l2 2 v).
Proof.
  destruct v as [x y z]. intros Hv. unfold is_gradient. cbn -[Y2 analytic_grad_l2].
  set (c2 := 0.5462742152960396).
  split; [|split].
  - partial c2 0 (c2 * (- y ^ 2)) (y ^ 2 + z ^ 2) Hv.
  - partial (- c2) 0 (c2 * x ^ 2) (x ^ 2 + z ^ 2) Hv.
  - partial 0 0 (c2 * (x ^ 2 - y ^ 2)) (x ^ 2 + y ^ 2) Hv.
Qed.

Lemma analytic_grad_l2_mm2 v :
  vsq v <> 0 -> is_gradient (Y2 (-2)) v (analytic_grad_l2 (-2) v).
Proof.
  destruct v as [x y z]. intros Hv. unfold is_gradient. cbn -[Y2 analytic_grad_l2].
  set (cm := 1.0925484305920792).
  split; [|split].
  - partial 0 (cm * y) 0 (y ^ 2 + z ^ 2) Hv.
  - partial 0 (cm * x) 0 (x ^ 2 + z ^ 2) Hv.
  - partial 0 0 (cm * x * y) (x ^ 2 + y ^ 2) Hv.
Qed.

Lemma analytic_grad_l2_mm1 v :
  vsq v <> 0 -> is_gradient (Y2 (-1)) v (analytic_grad_l2 (-1) v).
Proof.
  destruct v as [x y z]. intros Hv. unfold is_gradient. cbn -[Y2 analytic_grad_l2].
  set (cm := 1.0925484305920792).
  split; [|split].
  - partial 0 0 (cm * y * z) (y ^ 2 + z ^ 2) Hv.
  - partial 0 (cm * z) 0 (x ^ 2 + z ^ 2) Hv.
  - partial 0 (cm * y) 0 (x ^ 2 + y ^ 2) Hv.
Qed.

Lemma analytic_grad_l2_m1 v :
  vsq v <> 0 -> is_gradient (Y2 1) v (analytic_grad_l2 1 v).
Proof.
  destruct v as [x y z]. intros Hv. unfold is_gradient. cbn -[Y2 analytic_grad_l2].
  set (cm := 1.0925484305920792).
  split; [|split].
  - partial 0 (cm * z) 0 (y ^ 2 + z ^ 2) Hv.
  - partial 0 0 (cm * z * x) (x ^ 2 + z ^ 2) Hv.
  - partial 0 (cm * x) 0 (x ^ 2 + y ^ 2) Hv.
Qed.

(** What the engine returns for l = 2, against the analytic gradient. *)
Lemma grad_l2_m0_is_analytic v :
  vsq v <> 0 ->
  _grad_spherical_harmonics_l2 v 0 = Some (analytic_grad_l2 0 v).
Proof.
  destruct v as [x y z]. intros Hv.
  unfold _grad_spherical_harmonics_l2, analytic_grad_l2, vscale, vprod.
  cbn -[pow vsq]. rewrite sqrt_pow4 by apply vsq_nonneg.
  do 2 f_equal; unfold vsq in *; cbn -[pow] in *; field; exact Hv.
Qed.

Lemma grad_l2_m2_is_analytic v :
  vsq v <> 0 ->
  _grad_spherical_harmonics_l2 v 2 = Some (analytic_grad_l2 2 v).
Proof.
  destruct v as [x y z]. intros Hv.
  unfold _grad_spherical_harmonics_l2, analytic_grad_l2, vscale, vprod.
  cbn -[pow vsq]. rewrite sqrt_pow4 by apply vsq_nonneg.
  do 2 f_equal; unfold vsq in *; cbn -[pow] in *; field; exact Hv.
Qed.

(** For m = -2, -1 and 1 the engine multiplies the right polynomial by
    0.31539156525252005, the constant of m = 0, where the value formula
    has 1.0925484305920792. *)
Lemma grad_l2_cross_terms_rescaled v m :
  vsq v <> 0 ->
  m = (-2)%Z \/ m = (-1)%Z \/ m = 1%Z ->
  _grad_spherical_harmonics_l2 v m =
  Some (vscale (0.31539156525252005 / 1.0925484305920792) (analytic_grad_l2 m v)).
Proof.
  destruct v as [x y z]. intros Hv [->|[->| ->]];
    unfold _grad_spherical_harmonics_l2, analytic_grad_l2, vscale, vprod;
    cbn -[pow vsq]; rewrite sqrt_pow4 by apply vsq_nonneg;
    do 2 f_equal; unfold vsq in *; cbn -[pow] in *; field;
    (split; [exact Hv | lra]).
Qed.

Lemma is_gradient_unique f v g1 g2 :
  is_gradient f v g1 -> is_gradient f v g2 -> g1 = g2.
Proof.
  destruct g1, g2. intros (Hx1 & Hy1 & Hz1) (Hx2 & Hy2 & Hz2). simpl in *.
  f_equal; eapply uniqueness_limite; eassumption.
Qed.

End SphericalHarmonicsFacts.

Module DispatchFacts.
Import SphericalHarmonics GradientVocabulary SphericalHarmonicsFacts.

Lemma any_false_lookup mask i : any mask = false -> mask !! i <> Some true.
Proof.
  unfold any. revert i. induction mask as [|b mask IH]; intros i H.
  - rewrite lookup_nil. discriminate.
  - simpl in H. apply orb_false_iff in H as [-> H].
    destruct i; simpl; [discriminate | apply IH, H].
Qed.

(** One masked assignment: the selected entries are recomputed, the others
    are kept. *)
Lemma assign_where_lookup {A : Type} mask (f : vec3 -> result A) xyz Y Y' i :
  assign_where mask f xyz Y = Ok Y' ->
  match mask !! i with
  | Some true => exists v y', xyz !! i = Some v /\ f v = Ok y' /\ Y' !! i = Some y'
  | _ => Y' !! i = Y !! i
  end.
Proof.
  revert xyz Y Y' i. induction mask as [|b mask IH]; intros xyz Y Y' i H.
  - simpl in H. injection H as <-. rewrite lookup_nil. reflexivity.
  - destruct xyz as [|v xyz], Y as [|y Y];
      try (cbn [assign_where] in H;
           destruct (any (b :: mask)) eqn:E; [discriminate|]; injection H as <-;
           pose proof (any_false_lookup _ i E) as Hn;
           destruct ((b :: mask) !! i) as [[]|]; [congruence|reflexivity|reflexivity]).
    simpl in H.
    apply rbind_Ok in H as (y' & Hy & H).
    apply rbind_Ok in H as (rest & Hr & H). injection H as <-.
    destruct i as [|i]; simpl.
    + destruct b; [|injection Hy as <-; reflexivity].
      exists v, y'. auto.
    + apply (IH _ _ _ i) in Hr. exact Hr.
Qed.

Lemma assign_where_length {A : Type} mask (f : vec3 -> result A) xyz Y Y' :
  assign_where mask f xyz Y = Ok Y' -> length Y' = length Y.
Proof.
  revert xyz Y Y'. induction mask as [|b mask IH]; intros xyz Y Y' H.
  - simpl in H. injection H as <-. reflexivity.
  - destruct xyz as [|v xyz], Y as [|y Y];
      try (cbn [assign_where] in H; destruct (any (b :: mask)); [discriminate|];
           injection H as <-; reflexivity).
    simpl in H.
    apply rbind_Ok in H as (y' & Hy & H).
    apply rbind_Ok in H as (rest & Hr & H). injection H as <-.
    simpl. f_equal. eapply IH, Hr.
Qed.

Lemma mask_l_true lval l0 i :
  mask_l lval l0 !! i = Some true <-> lval !! i = Some l0.
Proof.
  unfold mask_l. rewrite list_lookup_fmap.
  destruct (lval !! i) as [l|]; simpl; [|split; discriminate].
  destruct (Z.eqb_spec l l0); split; intros H; try congruence.
Qed.

Lemma mask_lm_true lval m l0 m0 i :
  mask_lm lval m l0 m0 !! i = Some true <->
  lval !! i = Some l0 /\ m !! i = Some m0.
Proof.
  unfold mask_lm. rewrite lookup_zip_with.
  destruct (lval !! i) as [l|]; simpl; [|split; [discriminate|intros [? _]; discriminate]].
  destruct (m !! i) as [mm|]; simpl; [|split; [discriminate|intros [_ ?]; discriminate]].
  destruct (Z.eqb_spec l l0), (Z.eqb_spec mm m0); simpl; split;
    try discriminate; try (intros [? ?]; congruence); subst; auto.
Qed.

(** A guarded pass, [if any ind then assign ... else Ok Y], at an index it
    does not select. *)
Lemma guarded_keep {A : Type} mask (f : vec3 -> result A) xyz Y Y' i :
  (if any mask then assign_where mask f xyz Y else Ok Y) = Ok Y' ->
  mask !! i <> Some true -> Y' !! i = Y !! i.
Proof.
  intros H Hn. destruct (any mask).
  - apply (assign_where_lookup _ _ _ _ _ i) in H.
    destruct (mask !! i) as [[]|]; [congruence | exact H | exact H].
  - injection H as <-. reflexivity.
Qed.

Lemma guarded_set {A : Type} mask (f : vec3 -> result A) xyz Y Y' i :
  (if any mask then assign_where mask f xyz Y else Ok Y) = Ok Y' ->
  mask !! i = Some true ->
  exists v y', xyz !! i = Some v /\ f v = Ok y' /\ Y' !! i = Some y'.
Proof.
  intros H Hs. destruct (any mask) eqn:E.
  - apply (assign_where_lookup _ _ _ _ _ i) in H. rewrite Hs in H. exact H.
  - exfalso. eapply any_false_lookup; eassumption.
Qed.

(** The loop over [mval] of one value of l, on an entry with another l. *)
Lemma for_mval_keep {A : Type} lval m L (F : Z -> vec3 -> result A) xyz
    mvals Y Y' i :
  for_mval mvals (fun mval Y =>
      let ind := mask_lm lval m L mval in
      if any ind then assign_where ind (F mval) xyz Y else Ok Y) Y = Ok Y' ->
  (forall mval, In mval mvals -> ~ (lval !! i = Some L /\ m !! i = Some mval)) ->
  Y' !! i = Y !! i.
Proof.
  revert Y. induction mvals as [|mval mvals IH]; intros Y H Hn.
  - simpl in H. injection H as <-. reflexivity.
  - simpl in H. apply rbind_Ok in H as (Y1 & H1 & H).
    rewrite (IH _ H) by (intros mv Hin; apply Hn; right; exact Hin).
    eapply guarded_keep; [exact H1|].
    rewrite mask_lm_true. apply Hn. left. reflexivity.
Qed.

(** The same loop on an entry with this l and one of the listed m. *)
Lemma for_mval_set {A : Type} lval m L (F : Z -> vec3 -> result A) xyz
    mvals Y Y' i mi :
  for_mval mvals (fun mval Y =>
      let ind := mask_lm lval m L mval in
      if any ind then assign_where ind (F mval) xyz Y else Ok Y) Y = Ok Y' ->
  NoDup mvals -> In mi mvals ->
  lval !! i = Some L -> m !! i = Some mi ->
  exists v y', xyz !! i = Some v /\ F mi v = Ok y' /\ Y' !! i = Some y'.
Proof.
  revert Y. induction mvals as [|mval mvals IH]; intros Y H Hnd Hin Hl Hm.
  - destruct Hin.
  - simpl in H. apply rbind_Ok in H as (Y1 & H1 & H).
    apply NoDup_cons in Hnd as [Hnotin Hnd].
    destruct (decide (mi = mval)) as [->|Hne].
    + eapply guarded_set in H1 as (v & y' & Hv & Hf & Hy);
        [|apply mask_lm_true; split; eassumption].
      exists v, y'. split; [exact Hv|]. split; [exact Hf|].
      rewrite <- Hy. eapply for_mval_keep; [exact H|].
      intros mv Hmv [_ Hm']. rewrite Hm in Hm'. injection Hm' as <-.
      apply Hnotin. apply list_elem_of_In. exact Hmv.
    + destruct Hin as [->|Hin]; [congruence|].
      eapply IH; eassumption.
Qed.

Lemma mask_l_false_any lval L i l :
  lval !! i = Some l -> l <> L -> mask_l lval L !! i <> Some true.
Proof. intros Hl Hne H. apply mask_l_true in H. congruence. Qed.

Ltac open_row H :=
  unfold get_grad_spherical_harmonics_row in H;
  apply rbind_Ok in H as (Y1 & H0 & H);
  apply rbind_Ok in H as (Y2 & H1 & H).

(** For a primitive with l = 0 the engine returns the zero vector. *)
Lemma grad_row_l0 lval m xyz Y i :
  get_grad_spherical_harmonics_row lval m xyz = Ok Y ->
  lval !! i = Some 0%Z ->
  Y !! i = Some zero3.
Proof.
  intros H Hl. open_row H.
  assert (E2 : Y !! i = Y2 !! i).
  { destruct (any (mask_l lval 2)); [|injection H as <-; reflexivity].
    eapply for_mval_keep; [exact H|]. intros mv _ [Hl' _]. congruence. }
  assert (E1 : Y2 !! i = Y1 !! i).
  { destruct (any (mask_l lval 1)); [|injection H1 as <-; reflexivity].
    eapply for_mval_keep; [exact H1|]. intros mv _ [Hl' _]. congruence. }
  rewrite E2, E1.
  apply (assign_where_lookup _ _ _ _ _ i) in H0.
  apply mask_l_true in Hl. rewrite Hl in H0.
  destruct H0 as (v & y' & _ & Hf & Hy). injection Hf as <-. exact Hy.
Qed.

(** For a primitive with l = 2 the engine returns what
    [_grad_spherical_harmonics_l2] computes at its displacement. *)
Lemma grad_row_l2 lval m xyz Y i mi :
  get_grad_spherical_harmonics_row lval m xyz = Ok Y ->
  lval !! i = Some 2%Z -> m !! i = Some mi ->
  In mi [-2; -1; 0; 1; 2]%Z ->
  exists v g, xyz !! i = Some v /\
    _grad_spherical_harmonics_l2 v mi = Some g /\ Y !! i = Some g.
Proof.
  intros H Hl Hm Hin. open_row H.
  assert (Ha : any (mask_l lval 2) = true).
  { destruct (any (mask_l lval 2)) eqn:E; [reflexivity|].
    exfalso. eapply any_false_lookup; [exact E|]. apply mask_l_true. exact Hl. }
  rewrite Ha in H.
  eapply for_mval_set in H as (v & g & Hv & Hg & Hy); try eassumption.
  - exists v, g. split; [exact Hv|]. split; [|exact Hy].
    destruct (_grad_spherical_harmonics_l2 v mi); [|discriminate].
    simpl in Hg. congruence.
  - repeat constructor; rewrite ?list_elem_of_In; simpl; intuition lia.
Qed.

Lemma rmapM_lookup {A B : Type} (f : A -> result B) l k i x :
  rmapM f l = Ok k -> l !! i = Some x ->
  exists y, f x = Ok y /\ k !! i = Some y.
Proof.
  revert k i. induction l as [|a l IH]; intros k i H Hx.
  - rewrite lookup_nil in Hx. discriminate.
  - simpl in H. apply rbind_Ok in H as (y & Hy & H).
    apply rbind_Ok in H as (ys & Hys & H). injection H as <-.
    destruct i as [|i]; simpl in *.
    + injection Hx as <-. exists y. auto.
    + eapply IH; eassumption.
Qed.

(** The two statements on the whole tensor. *)
Lemma grad_engine_l0 xyz lval m Y b e row i :
  get_grad_spherical_harmonics xyz lval m = Ok Y ->
  xyz !! b = Some e -> e !! row = Some i ->
  forall p, lval !! p = Some 0%Z ->
  exists Yb Ye, Y !! b = Some Yb /\ Yb !! row = Some Ye /\ Ye !! p = Some zero3.
Proof.
  intros H Hb He p Hl. unfold get_grad_spherical_harmonics in H.
  eapply rmapM_lookup in H as (Yb & HYb & Hlb); [|exact Hb].
  eapply rmapM_lookup in HYb as (Ye & HYe & Hle); [|exact He].
  exists Yb, Ye. split; [exact Hlb|]. split; [exact Hle|].
  eapply grad_row_l0; eassumption.
Qed.

Lemma grad_engine_l2 xyz lval m Y b e row i :
  get_grad_spherical_harmonics xyz lval m = Ok Y ->
  xyz !! b = Some e -> e !! row = Some i ->
  forall p mi, lval !! p = Some 2%Z -> m !! p = Some mi ->
  In mi [-2; -1; 0; 1; 2]%Z ->
  exists Yb Ye v g, Y !! b = Some Yb /\ Yb !! row = Some Ye /\
    i !! p = Some v /\ _grad_spherical_harmonics_l2 v mi = Some g /\
    Ye !! p = Some g.
Proof.
  intros H Hb He p mi Hl Hm Hin. unfold get_grad_spherical_harmonics in H.
  eapply rmapM_lookup in H as (Yb & HYb & Hlb); [|exact Hb].
  eapply rmapM_lookup in HYb as (Ye & HYe & Hle); [|exact He].
  destruct (grad_row_l2 _ _ _ _ _ _ HYe Hl Hm Hin) as (v & g & Hv & Hg & Hy).
  exists Yb, Ye, v, g. auto.
Qed.

End DispatchFacts.

Module GradientBug.
Import SphericalHarmonics GradientVocabulary SphericalHarmonicsFacts DispatchFacts.
Local Open Scope R_scope.

(** Wherever the analytic gradient of a cross-term harmonic (m = -2, -1 or
    1) is not zero, what the engine returns is not the gradient of the
    value formula. *)
Lemma grad_l2_cross_terms_not_gradient v m g :
  vsq v <> 0 ->
  m = (-2)%Z \/ m = (-1)%Z \/ m = 1%Z ->
  analytic_grad_l2 m v <> zero3 ->
  _grad_spherical_harmonics_l2 v m = Some g ->
  ~ is_gradient (Y2 m) v g.
Proof.
  intros Hv Hm Hnz Hg Hgrad.
  rewrite (grad_l2_cross_terms_rescaled v m Hv Hm) in Hg. injection Hg as <-.
  assert (Ha : is_gradient (Y2 m) v (analytic_grad_l2 m v)).
  { destruct Hm as [->|[->| ->]];
      [apply analytic_grad_l2_mm2 | apply analytic_grad_l2_mm1
       | apply analytic_grad_l2_m1]; exact Hv. }
  pose proof (is_gradient_unique _ _ _ _ Hgrad Ha) as E.
  apply Hnz. destruct (analytic_grad_l2 m v) as [a b c].
  unfold vscale, zero3 in *. simpl in E. injection E as Ex Ey Ez.
  f_equal; lra.
Qed.

(** C2 at the l = 2, m = -2 primitive and the displacement (1, 2, 0): the
    x component that the engine returns carries the constant
    0.31539156525252005, the derivative of the value formula along x
    carries 1.0925484305920792, and the two numbers differ. *)
Theorem grad_l2_m_minus_2_wrong_constant :
  (exists g,
     get_grad_spherical_harmonics [[[V3 1 2 0]]] [2%Z] [(-2)%Z] = Ok [[[g]]] /\
     vx g = 0.31539156525252005 * 6 / 25) /\
  derivable_pt_lim (fun t => Y2 (-2) (V3 t 2 0)) 1
                   (1.0925484305920792 * 6 / 25) /\
  0.31539156525252005 * 6 / 25 <> 1.0925484305920792 * 6 / 25.
Proof.
  split; [|split].
  - eexists. split; [reflexivity|].
    cbn -[pow vsq]. rewrite sqrt_pow4 by apply vsq_nonneg.
    unfold vsq. cbn -[pow]. field.
  - assert (Hv : vsq (V3 1 2 0) <> 0) by (unfold vsq; cbn; lra).
    destruct (analytic_grad_l2_mm2 _ Hv) as [Hx _].
    cbn -[pow Y2] in Hx.
    replace (1.0925484305920792 * 6 / 25) with
      (1.0925484305920792 / vsq (V3 1 2 0) ^ 2 * (2 * (- 1 ^ 2 + 2 ^ 2 + 0 ^ 2))).
    + exact Hx.
    + unfold vsq. cbn -[pow]. field.
  - lra.
Qed.

End GradientBug.

Module JastrowFacts.
Import ScatterVocabulary.
Import JastrowFactorElectronElectron.
Local Open Scope R_scope.

Section TwoElectrons.

Variables (nup ndown : nat).
Variable kernel_class : nat -> nat -> bool -> kernel.
Variable distance_class : nat -> nat -> bool -> R -> distance.
Variables (scale : bool) (scale_factor : R) (cuda : bool).
Hypothesis two : (nup + ndown = 2)%nat.

Let self : t :=
  __init__ nup ndown kernel_class distance_class scale scale_factor cuda.

Lemma two_nelec : nelec self = 2%nat.
Proof. subst self. unfold __init__. rewrite two. reflexivity. Qed.

Lemma two_index_row : index_row self = [0%nat].
Proof. subst self. unfold __init__. rewrite two. reflexivity. Qed.

Lemma two_index_col : index_col self = [1%nat].
Proof. subst self. unfold __init__. rewrite two. reflexivity. Qed.

Lemma two_mask : mask_tri_up self = [[false; true]; [false; false]].
Proof. subst self. unfold __init__. rewrite two. reflexivity. Qed.

Lemma two_ndim : ndim self = 3%nat.
Proof. subst self. unfold __init__. rewrite two. reflexivity. Qed.

(** The signed scatter-add of the single pair. *)
Lemma two_signed_scatter d : signed_scatter self [d] = Ok [d; - d].
Proof.
  unfold signed_scatter. rewrite two_nelec, two_index_row, two_index_col.
  cbn. rewrite !Rplus_0_l. reflexivity.
Qed.

Lemma rmapM_map_Ok {A B : Type} (f : A -> result B) (g : A -> B) l :
  (forall x, In x l -> f x = Ok (g x)) -> rmapM f l = Ok (map g l).
Proof.
  induction l as [|x l IH]; intros H; [reflexivity|].
  simpl. rewrite (H x) by (left; reflexivity). simpl.
  rewrite IH by (intros y Hy; apply H; right; exact Hy). reflexivity.
Qed.

Lemma rmapM_zip_with_Ok {A B C D : Type} (f : C -> result D)
    (g : A -> B -> C) (h : A -> B -> D) (P : A -> Prop) (Q : B -> Prop) la lb :
  (forall a b, P a -> Q b -> f (g a b) = Ok (h a b)) ->
  Forall P la -> Forall Q lb ->
  rmapM f (zip_with g la lb) = Ok (zip_with h la lb).
Proof.
  intros Hf Ha. revert lb. induction Ha as [|a la Pa Ha IH]; intros lb Hb.
  - reflexivity.
  - destruct Hb as [|b lb Qb Hb]; [reflexivity|].
    simpl. rewrite (Hf a b Pa Qb). simpl. rewrite (IH lb Hb). reflexivity.
Qed.

(** C5: with two electrons the sole pair has electron 0 as its row member
    and electron 1 as its column member, and the gradient assembly puts
    the kernel derivative (times J) with sign +1 at electron 0 and with
    sign -1 at electron 1, in the summed and in the per-dimension mode. *)
Theorem two_electron_gradient_antisymmetric r dr jast :
  let D := compute_derivative (jastrow_kernel self) r dr in
  Forall single jast ->
  index_row self = [0%nat] /\ index_col self = [1%nat] /\
  (Forall (fun m => single (sum_rows m)) D ->
   jastrow_factor_derivative self r dr jast true =
   Ok (J2 (zip_with (fun m jr =>
                       let d := hd 0 (sum_rows m) * hd 0 jr in [d; - d])
                    D jast))) /\
  (Forall (Forall single) D ->
   jastrow_factor_derivative self r dr jast false =
   Ok (J3 (zip_with (fun m jr =>
                       map (fun row => let d := hd 0 row * hd 0 jr in [d; - d]) m)
                    D jast))).
Proof.
  intros D Hj. split; [apply two_index_row|]. split; [apply two_index_col|].
  split; intros HD; unfold jastrow_factor_derivative; fold D.
  - rewrite zip_with_fmap_l.
    erewrite (rmapM_zip_with_Ok _ _ _ _ _ D jast); [reflexivity| |exact HD|exact Hj].
    intros m jr [k Hk] [j ->]. rewrite Hk. simpl. apply two_signed_scatter.
  - erewrite (rmapM_zip_with_Ok _ _ _ _ _ D jast); [reflexivity| |exact HD|exact Hj].
    intros m jr Hm [j ->]. simpl.
    induction Hm as [|row m [k ->] Hm IH]; [reflexivity|].
    simpl. rewrite two_signed_scatter. simpl. rewrite IH. reflexivity.
Qed.

Lemma reshape_singletons {A : Type} (l : list A) :
  reshape (length l) 1 l = map (fun x => [x]) l.
Proof.
  induction l as [|x l IH]; [reflexivity|].
  simpl. rewrite take_0, drop_0, IH. reflexivity.
Qed.

Lemma two_extract_tri_up (E : tensor3) :
  E <> [] -> Forall two_by_two E ->
  extract_tri_up self E = Ok (map (fun M => [r12 M]) E).
Proof.
  intros Hne HE. unfold extract_tri_up. rewrite two_mask.
  assert (Hflat : concat (map (masked_select [[false; true]; [false; false]]) E)
                  = map r12 E).
  { induction HE as [|M E (a & x & c & d & ->) HE IH]; [reflexivity|].
    simpl. f_equal. destruct E; [reflexivity|]. apply IH. discriminate. }
  rewrite Hflat. unfold view_rows. rewrite length_map.
  destruct E as [|M E]; [congruence|].
  replace (length (M :: E) =? 0)%nat with false by reflexivity.
  rewrite Nat.Div0.mod_same, Nat.div_same by (simpl; lia).
  simpl negb. simpl orb. cbv iota.
  rewrite <- (length_map r12 (M :: E)), reshape_singletons, map_map.
  reflexivity.
Qed.

(** C7: with two electrons the value of the Jastrow factor is, for every
    element of the batch, exp of the kernel at the single pair distance,
    and the tensor returned has shape (batch, 1). *)
Theorem two_electron_value pos sum_grad :
  let E := edist_value (edist self) pos in
  let K := kernel_forward (jastrow_kernel self) (map (fun M => [r12 M]) E) in
  pos <> [] ->
  Forall (fun row => length row = 6%nat) pos ->
  length E = length pos -> Forall two_by_two E ->
  length K = length pos -> Forall single K ->
  let J := map (fun row => [exp (hd 0 row)]) K in
  forward self pos (DInt 0) sum_grad = Ok (JOne (J2 J)) /\
  length J = length pos /\
  Forall (fun row => length row = 1%nat) J /\
  forall b k, K !! b = Some [k] -> J !! b = Some [exp k].
Proof.
  intros E K Hne Hpos HlenE HE HlenK HK J.
  split; [|split; [|split]].
  - unfold forward. rewrite two_nelec, two_ndim.
    assert (Ha : forallb (fun row => (length row =? 2 * 3)%nat) pos = true).
    { apply forallb_forall. intros row Hin.
      rewrite Forall_forall in Hpos. apply list_elem_of_In in Hin.
      rewrite (Hpos row Hin). reflexivity. }
    rewrite Ha. simpl negb. cbv iota.
    unfold get_edist_unique. fold E.
    rewrite two_extract_tri_up; [|destruct E, pos; simpl in *; congruence|exact HE].
    simpl. fold K. do 3 f_equal. subst J.
    clear -HK. induction HK as [|row K [k ->] HK IH]; [reflexivity|].
    simpl. rewrite IH. unfold rsum. simpl. rewrite Rplus_0_r. reflexivity.
  - subst J. rewrite length_map. exact HlenK.
  - subst J. apply Forall_forall. intros row Hin.
    apply list_elem_of_fmap in Hin as (x & -> & _). reflexivity.
  - intros b k Hb. subst J. rewrite list_lookup_fmap, Hb. reflexivity.
Qed.

End TwoElectrons.

Lemma two_electron_gradient_antisymmetric_witness :
  jastrow_factor_derivative Examples.two_electron_jastrow
    [[1]] [[[1]; [0]; [0]]] [[2]] true
  = Ok (J2 [[hd 0 (sum_rows [[1 / 2 / (1 + 1) ^ 2 * 1]; [1 / 2 / (1 + 1) ^ 2 * 0];
                             [1 / 2 / (1 + 1) ^ 2 * 0]]) * 2;
             - (hd 0 (sum_rows [[1 / 2 / (1 + 1) ^ 2 * 1]; [1 / 2 / (1 + 1) ^ 2 * 0];
                                [1 / 2 / (1 + 1) ^ 2 * 0]]) * 2)]]).
Proof.
  pose proof (two_electron_gradient_antisymmetric 1 1 (fun _ _ _ => Examples.pade)
                (fun _ _ _ _ => Examples.plain_distance) false 0.6 false
                eq_refl [[1]] [[[1]; [0]; [0]]] [[2]]) as H.
  cbv zeta in H.
  destruct H as (_ & _ & H & _).
  - repeat constructor. exists 2. reflexivity.
  - apply H. repeat constructor. eexists. reflexivity.
Defined.

Lemma two_electron_value_witness :
  exists J,
    forward Examples.two_electron_jastrow [[1; 0; 0; 0; 0; 0]] (DInt 0) true
    = Ok (JOne (J2 J)) /\ length J = 1%nat.
Proof.
  destruct (two_electron_value 1 1 (fun _ _ _ => Examples.pade)
              (fun _ _ _ _ => Examples.plain_distance) false 0.6 false
              eq_refl [[1; 0; 0; 0; 0; 0]] true) as (H & Hl & _).
  - discriminate.
  - repeat constructor.
  - reflexivity.
  - repeat constructor. unfold two_by_two. eexists _, _, _, _. reflexivity.
  - reflexivity.
  - repeat constructor. unfold single. eexists. reflexivity.
  - eexists. split; [exact H | exact Hl].
Defined.

End JastrowFacts.

Module ScatterFacts.
Import JastrowFactorElectronElectron ScatterVocabulary.
Local Open Scope R_scope.

Lemma foldl_invariant {A B : Type} (P : A -> Prop) (Q : B -> Prop)
    (f : A -> B -> A) l a :
  P a -> Forall Q l -> (forall a b, P a -> Q b -> P (f a b)) -> P (foldl f a l).
Proof.
  intros Ha Hl Hf. revert a Ha. induction Hl as [|b l Hb Hl IH]; intros a Ha.
  - exact Ha.
  - simpl. apply IH. apply Hf; assumption.
Qed.

(** The index arrays built by [get_mask_tri_up]: one row index and one
    column index per pair, all of them electrons of the system, the row
    index below the column index. *)
Lemma tri_up_indices n :
  let '(_, index_col, index_row) := get_mask_tri_up n in
  length index_col = length index_row /\
  Forall (fun j => (j < n)%nat) index_col /\
  Forall (fun i => (i < n)%nat) index_row /\
  Forall2 (fun i j => (i < j)%nat) index_row index_col.
Proof.
  unfold get_mask_tri_up.
  set (P := fun acc : list (list bool) * list nat * list nat =>
              let '(_, c, r) := acc in
              length c = length r /\ Forall (fun j => (j < n)%nat) c /\
              Forall (fun i => (i < n)%nat) r /\ Forall2 (fun i j => (i < j)%nat) r c).
  change (P (foldl (fun acc i =>
           foldl (fun (acc : list (list bool) * list nat * list nat) j =>
                    let '(mask, index_col, index_row) := acc in
                    (mask_set mask i j, index_col ++ [j], index_row ++ [i]))
                 acc (seq (i + 1) (n - (i + 1))))
        (replicate n (replicate n false), [], []) (seq 0 (n - 1)))).
  apply (foldl_invariant P (fun i => (i < n)%nat)).
  - simpl. repeat split; constructor.
  - apply Forall_forall. intros i Hi. apply elem_of_seq in Hi. lia.
  - intros acc i Hacc Hi.
    apply (foldl_invariant P (fun j => (i < j < n)%nat)); [exact Hacc| |].
    + apply Forall_forall. intros j Hj. apply elem_of_seq in Hj. lia.
    + intros [[mask c] r] j (Hlen & Hc & Hr & Hrc) Hj. simpl.
      rewrite !length_app, Hlen. split; [reflexivity|].
      split; [apply Forall_app; split; [exact Hc|repeat constructor; lia]|].
      split; [apply Forall_app; split; [exact Hr|repeat constructor; lia]|].
      apply Forall2_app; [exact Hrc|repeat constructor; lia].
Qed.

Lemma scatter_sum_cons i s index src e :
  scatter_sum (i :: index) (s :: src) e =
  if (i =? e)%nat then s + scatter_sum index src e else scatter_sum index src e.
Proof. unfold scatter_sum. simpl. destruct (i =? e)%nat; reflexivity. Qed.

Lemma scatter_sum_opp index src e :
  scatter_sum index (map Ropp src) e = - scatter_sum index src e.
Proof.
  revert src. induction index as [|i index IH]; intros src.
  - unfold scatter_sum. simpl. lra.
  - destruct src as [|s src]; [unfold scatter_sum; simpl; lra|].
    simpl map. rewrite !scatter_sum_cons, IH. destruct (i =? e)%nat; lra.
Qed.

(** [index_add_] with indices inside [out] and as many sources as indices
    succeeds, keeps the length, and adds at each entry the sources
    scattered to it. *)
Lemma index_add_go_spec out index src :
  Forall (fun i => (i < length out)%nat) index ->
  length index = length src ->
  exists out', index_add_go Rplus out index src = Ok out' /\
    length out' = length out /\
    forall e o, out !! e = Some o ->
                out' !! e = Some (o + scatter_sum index src e).
Proof.
  intros Hi. revert out Hi src.
  induction index as [|i index IH]; intros out Hi src Hlen.
  - destruct src; [|discriminate]. exists out. split; [reflexivity|].
    split; [reflexivity|]. intros e o Ho. rewrite Ho. f_equal.
    unfold scatter_sum. simpl. lra.
  - destruct src as [|s src]; [discriminate|]. simpl in Hlen.
    apply Forall_cons in Hi as [Hi0 Hi].
    destruct (lookup_lt_is_Some_2 out i Hi0) as [oi Hoi].
    simpl. rewrite Hoi.
    destruct (IH (<[i := oi + s]> out)) with (src := src)
      as (out' & Hgo & Hl & Hspec).
    { rewrite length_insert. exact Hi. }
    { lia. }
    exists out'. split; [exact Hgo|]. rewrite length_insert in Hl.
    split; [exact Hl|]. intros e o Ho.
    rewrite scatter_sum_cons.
    destruct (Nat.eqb_spec i e) as [->|Hne].
    + rewrite Ho in Hoi. injection Hoi as <-.
      rewrite (Hspec e (o + s)) by (apply list_lookup_insert_eq; exact Hi0).
      f_equal. lra.
    + apply Hspec. rewrite list_lookup_insert_ne by exact Hne. exact Ho.
Qed.

Lemma index_add_spec out index src :
  Forall (fun i => (i < length out)%nat) index ->
  length index = length src ->
  exists out', index_add_ Rplus out index src = Ok out' /\
    length out' = length out /\
    forall e o, out !! e = Some o ->
                out' !! e = Some (o + scatter_sum index src e).
Proof.
  intros Hi Hlen. unfold index_add_. rewrite Hlen, Nat.eqb_refl.
  apply index_add_go_spec; assumption.
Qed.

Lemma init_valid_indices nup ndown kernel_class distance_class scale
    scale_factor cuda :
  valid_indices (__init__ nup ndown kernel_class distance_class scale
                          scale_factor cuda).
Proof.
  unfold __init__, valid_indices.
  pose proof (tri_up_indices (nup + ndown)) as H.
  destruct (get_mask_tri_up (nup + ndown)) as [[mask c] r]. simpl.
  tauto.
Qed.

Section Scatter.

Variable self : t.
Hypothesis valid : valid_indices self.

Lemma signed_scatter_spec src :
  length src = length (index_row self) ->
  exists v, signed_scatter self src = Ok v /\ length v = nelec self /\
    forall e, (e < nelec self)%nat ->
      v !! e = Some (scatter_sum (index_row self) src e
                     - scatter_sum (index_col self) src e).
Proof.
  destruct valid as (Hlen & Hc & Hr). intros Hs. unfold signed_scatter.
  destruct (index_add_spec (replicate (nelec self) 0) (index_row self) src)
    as (v1 & H1 & Hl1 & Hs1).
  { rewrite length_replicate. exact Hr. }
  { lia. }
  rewrite H1. simpl.
  destruct (index_add_spec v1 (index_col self) (map Ropp src))
    as (v2 & H2 & Hl2 & Hs2).
  { rewrite Hl1, length_replicate. exact Hc. }
  { rewrite length_map. lia. }
  rewrite length_replicate in Hl1.
  exists v2. split; [exact H2|]. split; [lia|].
  intros e He.
  rewrite (Hs2 e _ (Hs1 e 0 (lookup_replicate_2 _ _ _ He))).
  rewrite scatter_sum_opp. f_equal. lra.
Qed.

Lemma unsigned_scatter_spec src :
  length src = length (index_row self) ->
  exists v, unsigned_scatter self src = Ok v /\ length v = nelec self /\
    forall e, (e < nelec self)%nat ->
      v !! e = Some (scatter_sum (index_row self) src e
                     + scatter_sum (index_col self) src e).
Proof.
  destruct valid as (Hlen & Hc & Hr). intros Hs. unfold unsigned_scatter.
  destruct (index_add_spec (replicate (nelec self) 0) (index_row self) src)
    as (v1 & H1 & Hl1 & Hs1).
  { rewrite length_replicate. exact Hr. }
  { lia. }
  rewrite H1. simpl.
  destruct (index_add_spec v1 (index_col self) src)
    as (v2 & H2 & Hl2 & Hs2).
  { rewrite Hl1, length_replicate. exact Hc. }
  { lia. }
  rewrite length_replicate in Hl1.
  exists v2. split; [exact H2|]. split; [lia|].
  intros e He.
  rewrite (Hs2 e _ (Hs1 e 0 (lookup_replicate_2 _ _ _ He))).
  f_equal. lra.
Qed.

End Scatter.

End ScatterFacts.

Module SecondDerivativeFacts.
Import ScatterVocabulary.
Import JastrowFactorElectronElectron ScatterVocabulary ScatterFacts JastrowFacts.
Local Open Scope R_scope.

Lemma rmapM_exists {A B : Type} (f : A -> result B) (P : A -> B -> Prop) l :
  Forall (fun x => exists y, f x = Ok y /\ P x y) l ->
  exists k, rmapM f l = Ok k /\ Forall2 P l k.
Proof.
  induction 1 as [|x l (y & Hy & Py) Hl (k & Hk & HP)].
  - exists []. split; [reflexivity | constructor].
  - exists (y :: k). simpl. rewrite Hy. simpl. rewrite Hk. simpl.
    split; [reflexivity | constructor; assumption].
Qed.

(** [sum(-2)] entry by entry. *)
Lemma foldl_zip_lookup acc rows n e :
  length acc = n -> Forall (fun row => length row = n) rows -> (e < n)%nat ->
  length (foldl (zip_with Rplus) acc rows) = n /\
  exists a, acc !! e = Some a /\
    foldl (zip_with Rplus) acc rows !! e
    = Some (a + rsum (map (fun row => nth e row 0) rows)).
Proof.
  intros Ha Hrows He. revert acc Ha.
  induction Hrows as [|row rows Hrow Hrows IH]; intros acc Ha.
  - simpl. split; [exact Ha|].
    destruct (lookup_lt_is_Some_2 acc e) as [a Hae]; [lia|].
    exists a. split; [exact Hae|]. rewrite Hae. f_equal. unfold rsum. simpl. lra.
  - simpl.
    destruct (lookup_lt_is_Some_2 acc e) as [a Hae]; [lia|].
    destruct (lookup_lt_is_Some_2 row e) as [x Hx]; [lia|].
    destruct (IH (zip_with Rplus acc row)) as (Hl & a' & Ha' & Hf).
    { rewrite length_zip_with. lia. }
    split; [exact Hl|]. exists a. split; [exact Hae|].
    rewrite Hf. rewrite lookup_zip_with, Hae in Ha'. simpl in Ha'.
    rewrite Hx in Ha'. simpl in Ha'. injection Ha' as <-.
    f_equal. unfold rsum. simpl.
    rewrite (nth_lookup_Some _ _ _ _ Hx). fold (rsum (map (fun row => nth e row 0) rows)).
    lra.
Qed.

Lemma sum_rows_length m n :
  m <> [] -> Forall (fun row => length row = n) m -> length (sum_rows m) = n.
Proof.
  intros Hne Hm. destruct m as [|row rows]; [congruence|].
  apply Forall_cons in Hm as [Hrow Hrows]. simpl.
  clear Hne. revert row Hrow.
  induction Hrows as [|r rows Hr Hrows IH]; intros row Hrow; simpl; [exact Hrow|].
  apply IH. rewrite length_zip_with. lia.
Qed.

Lemma sum_rows_lookup m n e :
  m <> [] -> Forall (fun row => length row = n) m -> (e < n)%nat ->
  sum_rows m !! e = Some (rsum (map (fun row => nth e row 0) m)).
Proof.
  intros Hne Hm He. destruct m as [|row rows]; [congruence|].
  apply Forall_cons in Hm as [Hrow Hrows]. simpl.
  destruct (foldl_zip_lookup row rows n e Hrow Hrows He) as (_ & a & Ha & Hf).
  rewrite Hf. f_equal. unfold rsum. simpl.
  rewrite (nth_lookup_Some _ _ _ _ Ha). reflexivity.
Qed.

Section SecondDerivative.

Variables (nup ndown : nat).
Variable kernel_class : nat -> nat -> bool -> kernel.
Variable distance_class : nat -> nat -> bool -> R -> distance.
Variables (scale : bool) (scale_factor : R) (cuda : bool).

Let self : t :=
  __init__ nup ndown kernel_class distance_class scale scale_factor cuda.

Let valid : valid_indices self :=
  init_valid_indices nup ndown kernel_class distance_class scale
                     scale_factor cuda.

(** The cross term of one batch element: the signed scatter-add of every
    spatial component, squared, summed over the spatial axis. *)
Lemma cross_term_row m1 :
  well_shaped (length (index_row self)) m1 ->
  exists out, rmapM (signed_scatter self) m1 = Ok out /\
    length (sum_rows (map (map (fun x => x ^ 2)) out)) = nelec self /\
    forall e, (e < nelec self)%nat ->
      sum_rows (map (map (fun x => x ^ 2)) out) !! e
      = Some (rsum (map (fun row =>
                           (scatter_sum (index_row self) row e
                            - scatter_sum (index_col self) row e) ^ 2) m1)).
Proof.
  intros [Hne Hm].
  destruct (rmapM_exists (signed_scatter self)
              (fun row v => length v = nelec self /\
                 forall e, (e < nelec self)%nat ->
                   v !! e = Some (scatter_sum (index_row self) row e
                                  - scatter_sum (index_col self) row e)) m1)
    as (out & Hout & HP).
  { eapply Forall_impl; [exact Hm|]. intros row Hrow.
    destruct (signed_scatter_spec self valid row Hrow) as (v & Hv & Hl & Hs).
    exists v. auto. }
  exists out. split; [exact Hout|].
  assert (Hone : map (map (fun x => x ^ 2)) out <> []).
  { destruct HP; [congruence|discriminate]. }
  assert (Hlen : Forall (fun row => length row = nelec self)
                        (map (map (fun x => x ^ 2)) out)).
  { apply Forall_fmap. clear -HP. induction HP as [|? ? ? ? [Hl _]]; constructor.
    - simpl. rewrite length_map. exact Hl.
    - assumption. }
  split; [apply sum_rows_length; assumption|].
  intros e He. rewrite (sum_rows_lookup _ (nelec self)) by assumption.
  f_equal. clear -HP He. induction HP as [|row v m1 out [_ Hv] HP IH].
  - reflexivity.
  - cbn [map]. unfold rsum in *. cbn [foldr]. rewrite IH. f_equal.
    apply nth_lookup_Some. rewrite list_lookup_fmap, (Hv e He). reflexivity.
Qed.

(** C6, amended: the second derivative is J times the sum of the direct
    term, the scatter-add of the kernel second derivatives (summed over
    the spatial axis) at the row and at the column index, both with sign
    +1, and of the cross term, the signed scatter-add of the kernel first
    derivatives, squared and summed over the spatial axis. *)
Theorem second_derivative_formula r dr d2r jast :
  let D2 := compute_second_derivative (jastrow_kernel self) r dr d2r in
  let D1 := compute_derivative (jastrow_kernel self) r dr in
  let npair := length (index_row self) in
  Forall (well_shaped npair) D2 -> Forall (well_shaped npair) D1 ->
  Forall single jast ->
  length D1 = length D2 -> length jast = length D2 ->
  exists H, jastrow_factor_second_derivative self r dr d2r jast = Ok H /\
    length H = length D2 /\
    forall b m2 m1 j e,
      D2 !! b = Some m2 -> D1 !! b = Some m1 -> jast !! b = Some [j] ->
      (e < nelec self)%nat ->
      exists Hb, H !! b = Some Hb /\ length Hb = nelec self /\
        Hb !! e = Some
          ((scatter_sum (index_row self) (sum_rows m2) e
            + scatter_sum (index_col self) (sum_rows m2) e
            + rsum (map (fun row =>
                           (scatter_sum (index_row self) row e
                            - scatter_sum (index_col self) row e) ^ 2) m1))
           * j).
Proof.
  intros D2 D1 npair HD2 HD1 Hj Hlen1 Hlenj.
  unfold jastrow_factor_second_derivative. fold D2 D1.
  (* the direct term *)
  destruct (rmapM_exists (unsigned_scatter self)
              (fun s v => length v = nelec self /\
                 forall e, (e < nelec self)%nat ->
                   v !! e = Some (scatter_sum (index_row self) s e
                                  + scatter_sum (index_col self) s e))
              (map sum_rows D2)) as (direct & Hdirect & HPd).
  { apply Forall_fmap. eapply Forall_impl; [exact HD2|].
    intros m2 [Hne Hm]. simpl.
    destruct (unsigned_scatter_spec self valid (sum_rows m2)) as (v & Hv & Hl & Hs).
    { apply sum_rows_length; assumption. }
    exists v. auto. }
  rewrite Hdirect. simpl. apply Forall2_fmap_l in HPd.
  (* the cross term *)
  unfold partial_derivative.
  destruct (rmapM_exists (rmapM (signed_scatter self))
              (fun m1 out =>
                 length (sum_rows (map (map (fun x => x ^ 2)) out)) = nelec self /\
                 forall e, (e < nelec self)%nat ->
                   sum_rows (map (map (fun x => x ^ 2)) out) !! e
                   = Some (rsum (map (fun row =>
                              (scatter_sum (index_row self) row e
                               - scatter_sum (index_col self) row e) ^ 2) m1)))
              D1) as (outs & Houts & HPc).
  { eapply Forall_impl; [exact HD1|]. intros m1 Hm1.
    destruct (cross_term_row m1 Hm1) as (out & Hout & Hl & Hs).
    exists out. auto. }
  rewrite Houts. cbn -[pow].
  eexists. split; [reflexivity|].
  pose proof (Forall2_length _ _ _ HPd) as Hld.
  pose proof (Forall2_length _ _ _ HPc) as Hlc.
  split.
  { rewrite !length_zip_with, length_map. lia. }
  intros b m2 m1 j e Hm2 Hm1 Hjb He.
  destruct (Forall2_lookup_l _ _ _ _ _ HPd Hm2) as (dv & Hdv & Hdl & Hds).
  destruct (Forall2_lookup_l _ _ _ _ _ HPc Hm1) as (out & Hout & Hcl & Hcs).
  rewrite !lookup_zip_with, Hdv, list_lookup_fmap, Hout, Hjb. cbn -[pow].
  eexists. split; [reflexivity|].
  split.
  { rewrite length_map, length_zip_with. lia. }
  rewrite list_lookup_fmap, lookup_zip_with, (Hds e He), (Hcs e He).
  reflexivity.
Qed.

End SecondDerivative.

End SecondDerivativeFacts.

Module SecondDerivativeCounterexample.
Import ScatterVocabulary.
Import JastrowFactorElectronElectron WordedSecondDerivative SecondDerivativeFacts JastrowFacts.
Local Open Scope R_scope.

(** C6, as stated, fails: for three electrons, unit pair distances and a
    displacement derivative along x of the first pair only, the code sums
    the squared scatter over the spatial axis and returns -7/64 for
    electron 0, where the sum over the pair axis gives -3/32. *)
Lemma second_derivative_sums_over_spatial_axis :
  exists H W,
    jastrow_factor_second_derivative Examples.three_electron_jastrow
      [[1; 1; 1]] [[[1; 0; 0]; [0; 0; 0]; [0; 0; 0]]]
      [[[0; 0; 0]; [0; 0; 0]; [0; 0; 0]]] [[1]] = Ok [H] /\
    second_derivative_as_worded Examples.three_electron_jastrow
      [[1; 1; 1]] [[[1; 0; 0]; [0; 0; 0]; [0; 0; 0]]]
      [[[0; 0; 0]; [0; 0; 0]; [0; 0; 0]]] [[1]] = Ok [W] /\
    nth 0 H 0 = - 7 / 64 /\ nth 0 W 0 = - 3 / 32 /\ H <> W.
Proof.
  eexists _, _. split; [cbn -[pow]; reflexivity|].
  split; [cbn -[pow]; reflexivity|].
  assert (E1 : forall a b c d : R, a = d -> nth 0 [a; b; c] 0 = d) by (intros; assumption).
  split; [apply E1; lra|]. split; [apply E1; lra|].
  intros E. injection E as E _ _. lra.
Qed.

(** On the cross term alone. *)
Lemma partial_derivative_sums_over_spatial_axis :
  partial_derivative Examples.three_electron_jastrow
    [[[1; 0; 0]; [0; 0; 0]; [0; 0; 0]]]
  <> cross_term_over_pair_axis Examples.three_electron_jastrow
       [[[1; 0; 0]; [0; 0; 0]; [0; 0; 0]]].
Proof. cbn -[pow]. intros E. injection E as E _ _. lra. Qed.

Lemma second_derivative_formula_witness :
  exists H,
    jastrow_factor_second_derivative Examples.three_electron_jastrow
      [[1; 1; 1]] [[[1; 0; 0]; [0; 0; 0]; [0; 0; 0]]]
      [[[0; 0; 0]; [0; 0; 0]; [0; 0; 0]]] [[1]] = Ok H /\
    length H = 1%nat.
Proof.
  destruct (second_derivative_formula 2 1 (fun _ _ _ => Examples.pade)
              (fun _ _ _ _ => Examples.plain_distance) false 0.6 false
              [[1; 1; 1]] [[[1; 0; 0]; [0; 0; 0]; [0; 0; 0]]]
              [[[0; 0; 0]; [0; 0; 0]; [0; 0; 0]]] [[1]]) as (H & HH & Hl & _).
  - repeat constructor; discriminate.
  - repeat constructor; discriminate.
  - repeat constructor. exists 1. reflexivity.
  - reflexivity.
  - reflexivity.
  - exists H. split; [exact HH | exact Hl].
Defined.

End SecondDerivativeCounterexample.

Module ContractionFacts.
Import ContractionVocabulary.
Import AtomicOrbitals ScatterVocabulary ScatterFacts.
Local Open Scope R_scope.

Lemma remove_dups_NoDup (l : list nat) : NoDup l -> remove_dups l = l.
Proof.
  induction 1 as [|x l Hx Hl IH]; [reflexivity|].
  simpl. destruct (decide_rel elem_of x l); [contradiction|]. rewrite IH. reflexivity.
Qed.

(** The "is contracted" flag of the identity map is false. *)
Lemma contract_flag_identity n : contract_flag (seq 0 n) = false.
Proof.
  unfold contract_flag, unique. rewrite remove_dups_NoDup by apply NoDup_seq.
  rewrite Nat.eqb_refl. reflexivity.
Qed.

(** A map that sends two primitives to one orbital is flagged. *)
Lemma contract_flag_grouping : contract_flag [0; 0]%nat = true.
Proof. reflexivity. Qed.

(** [__init__] derives the flag from the contraction map. *)
Lemma init_contract_flag rs rg rsp rgp norm mol cuda self :
  __init__ rs rg rsp rgp norm mol cuda = Ok self ->
  contract self = contract_flag (index_ctr self) /\
  index_ctr self = b_index_ctr (mol_basis mol).
Proof.
  unfold __init__. intros H.
  apply rbind_Ok in H as (bh & _ & H).
  apply rbind_Ok in H as (fam & _ & H).
  apply rbind_Ok in H as (nrm & _ & H).
  injection H as <-. split; reflexivity.
Qed.

Lemma scatter_sum_seq k row e x :
  row !! e = Some x -> scatter_sum (seq k (length row)) row (k + e) = x.
Proof.
  revert k e. induction row as [|y row IH]; intros k e Hx.
  - rewrite lookup_nil in Hx. discriminate.
  - simpl. rewrite scatter_sum_cons.
    destruct e as [|e]; simpl in Hx.
    + injection Hx as ->. rewrite Nat.add_0_r, Nat.eqb_refl.
      assert (Hz : forall l j, scatter_sum (seq (S (k + j)) (length l)) l k = 0).
      { induction l as [|z l IHl]; intros j; [unfold scatter_sum; reflexivity|].
        simpl. rewrite scatter_sum_cons.
        destruct (Nat.eqb_spec (S (k + j)) k); [lia|].
        replace (S (S (k + j))) with (S (k + S j)) by lia. apply IHl. }
      specialize (Hz row 0%nat). rewrite Nat.add_0_r in Hz. rewrite Hz. lra.
    + destruct (Nat.eqb_spec k (k + S e)); [lia|].
      replace (k + S e)%nat with (S k + e)%nat by lia. apply IH. exact Hx.
Qed.

(** The scatter-add along the identity map into zeros gives the source
    back. *)
Lemma index_add_identity row :
  index_add_ Rplus (replicate (length row) 0) (seq 0 (length row)) row = Ok row.
Proof.
  destruct (index_add_spec (replicate (length row) 0) (seq 0 (length row)) row)
    as (out & Hout & Hlen & Hspec).
  { rewrite length_replicate. apply Forall_forall. intros i Hi.
    apply elem_of_seq in Hi. lia. }
  { apply length_seq. }
  rewrite Hout. f_equal. rewrite length_replicate in Hlen.
  apply list_eq. intros e.
  destruct (row !! e) as [x|] eqn:Hx.
  - assert (He : (e < length row)%nat) by (eapply lookup_lt_Some; exact Hx).
    rewrite (Hspec e 0 (lookup_replicate_2 _ _ _ He)).
    pose proof (scatter_sum_seq 0 row e x Hx) as Hs. simpl in Hs.
    rewrite Hs. f_equal. lra.
  - apply lookup_ge_None. apply lookup_ge_None in Hx. lia.
Qed.

Lemma scatter_identity self n a :
  index_ctr self = seq 0 n -> norb self = n ->
  has_shape (nelec self) n a ->
  scatter_ctr Rplus 0 self a = Ok a.
Proof.
  intros Hi Hn Ha. unfold scatter_ctr. rewrite Hi, Hn.
  induction Ha as [|m a [Hm Hrows] Ha IH]; [reflexivity|].
  simpl. rewrite Hm, Nat.eqb_refl.
  assert (Hrow : rmapM (index_add_ Rplus (replicate n 0) (seq 0 n)) m = Ok m).
  { clear -Hrows. induction Hrows as [|row m Hrow Hrows IH]; [reflexivity|].
    simpl. rewrite <- Hrow at 1 2. rewrite index_add_identity. simpl.
    rewrite IH. reflexivity. }
  rewrite Hrow. simpl. rewrite IH. reflexivity.
Qed.

(** Along the identity map [_contract] only applies the contraction
    coefficients. *)
Lemma contract_identity self n a :
  index_ctr self = seq 0 n -> norb self = n ->
  has_shape (nelec self) n (scale_last Rmult (bas_coeffs self) a) ->
  _contract self a = Ok (scale_last Rmult (bas_coeffs self) a).
Proof. intros Hi Hn Hs. unfold _contract. eapply scatter_identity; eassumption. Qed.

(** When the contraction map is the identity the flag is false, and the
    value kernel returns norm_cst * R * Y: neither the contraction
    coefficients nor the scatter-add are applied. *)
Lemma ao_kernel_identity self n R Y :
  index_ctr self = seq 0 n ->
  contract self = contract_flag (index_ctr self) ->
  _ao_kernel self R Y
  = Ok (map2_3 Rmult (scale_last Rmult (norm_cst self) R) Y).
Proof.
  intros Hi Hc. unfold _ao_kernel.
  rewrite Hc, Hi, contract_flag_identity. reflexivity.
Qed.

(** The per-primitive output of the specification is the output of the
    value kernel multiplied by the contraction coefficients. *)
Lemma worded_per_primitive_identity self n R Y :
  index_ctr self = seq 0 n ->
  contract self = contract_flag (index_ctr self) ->
  exists ao, _ao_kernel self R Y = Ok ao /\
    worded_per_primitive self R Y = scale_last Rmult (bas_coeffs self) ao.
Proof.
  intros Hi Hc. eexists. split; [eapply ao_kernel_identity; eassumption|].
  reflexivity.
Qed.

(** The per-dimension gradient kernel applies the contraction coefficients
    on the same objects. *)
Lemma gradient_kernel_identity self n R dR Y dY :
  index_ctr self = seq 0 n ->
  contract self = contract_flag (index_ctr self) ->
  _gradient_kernel self R dR Y dY
  = Ok (scale_last vscale (zip_with Rmult (norm_cst self) (bas_coeffs self))
          (map2_3 vadd (map2_3 vmulr dR Y) (map2_3 vscale R dY))).
Proof.
  intros Hi Hc. unfold _gradient_kernel, finish_unsummed.
  rewrite Hc, Hi, contract_flag_identity. reflexivity.
Qed.

(** With a grouping map the kernel output is the contraction: the
    coefficients are applied and primitives of one orbital are added. *)
Lemma contracted_kernel_example :
  _ao_kernel (Examples.contracted_orbital 1) [[[2; 5]]] [[[3; 7]]]
  = Ok [[[0 + 1 * (1 * 2 * 3) + 2 * (1 * 5 * 7)]]].
Proof. reflexivity. Qed.

End ContractionFacts.

Module ContractionBug.
Import ContractionVocabulary.
Import AtomicOrbitals.
Local Open Scope R_scope.

(** C1: for an identity contraction map the value kernel leaves the
    contraction coefficient out.  One primitive with coefficient 3 and
    normalisation 7, R = 2 and Y = 5: [_ao_kernel] returns 7 * 2 * 5, the
    per-primitive output of the specification is 3 * (7 * 2 * 5), which is
    also what [_contract] gives along the identity map; the per-dimension
    gradient kernel of the same object does apply the factor 7 * 3. *)
Theorem identity_map_value_omits_coefficient :
  index_ctr (Examples.weighted_orbital 1)
  = seq 0 (norb (Examples.weighted_orbital 1)) /\
  contract (Examples.weighted_orbital 1)
  = contract_flag (index_ctr (Examples.weighted_orbital 1)) /\
  _ao_kernel (Examples.weighted_orbital 1) [[[2]]] [[[5]]]
  = Ok [[[7 * 2 * 5]]] /\
  worded_per_primitive (Examples.weighted_orbital 1) [[[2]]] [[[5]]]
  = [[[3 * (7 * 2 * 5)]]] /\
  _contract (Examples.weighted_orbital 1) [[[7 * 2 * 5]]]
  = Ok [[[0 + 3 * (7 * 2 * 5)]]] /\
  _gradient_kernel (Examples.weighted_orbital 1) [[[2]]] [[[V3 1 0 0]]]
                   [[[5]]] [[[V3 0 0 0]]]
  = Ok [[[vscale (7 * 3) (vadd (vmulr (V3 1 0 0) 5) (vscale 2 (V3 0 0 0)))]]] /\
  7 * 2 * 5 <> 3 * (7 * 2 * 5).
Proof.
  split; [reflexivity|]. split; [reflexivity|]. split; [reflexivity|].
  split; [reflexivity|]. split; [reflexivity|]. split; [reflexivity|].
  lra.
Qed.

End ContractionBug.

Module ListFacts.
Import ResultVocabulary AtomicOrbitals.

Lemma rmapM_pure {A B : Type} (g : A -> B) l :
  rmapM (fun x => Ok (g x)) l = Ok (map g l).
Proof. induction l as [|x l IH]; [reflexivity|]. simpl. rewrite IH. reflexivity. Qed.

Lemma rmapM_ext {A B : Type} (f g : A -> result B) l :
  (forall x, f x = g x) -> rmapM f l = rmapM g l.
Proof.
  intros H. induction l as [|x l IH]; [reflexivity|]. simpl. rewrite H, IH. reflexivity.
Qed.

(** A successful [rmapM] is a [map], and it succeeds when every element
    does. *)
Lemma rmapM_get {A B : Type} (d : B) (f : A -> result B) l k :
  rmapM f l = Ok k <-> Forall (fun x => ok (f x)) l /\ k = map (fun x => get d (f x)) l.
Proof.
  revert k. induction l as [|x l IH]; intros k; simpl.
  - split.
    + intros H. injection H as <-. split; [constructor | reflexivity].
    + intros [_ ->]. reflexivity.
  - split.
    + intros H. apply rbind_Ok in H as (y & Hy & H).
      apply rbind_Ok in H as (ys & Hys & H). injection H as <-.
      apply IH in Hys as [Hl ->]. rewrite Hy. simpl.
      split; [constructor; [exists y; exact Hy | exact Hl] | reflexivity].
    + intros [Hall ->]. apply Forall_cons in Hall as [[y Hy] Hl].
      rewrite Hy. simpl.
      rewrite (proj2 (IH _) (conj Hl eq_refl)). reflexivity.
Qed.

Lemma rmapM2_get {A B : Type} (d : B) (f : A -> result B) (t : list (list A)) k :
  rmapM (rmapM f) t = Ok k <->
  Forall (Forall (fun x => ok (f x))) t /\ k = map (map (fun x => get d (f x))) t.
Proof.
  rewrite (rmapM_get [] (rmapM f) t k). split.
  - intros [Hall ->]. split.
    + eapply Forall_impl; [exact Hall|]. intros row [y Hy].
      apply (rmapM_get d) in Hy as [Hy _]. exact Hy.
    + apply map_ext_Forall. eapply Forall_impl; [exact Hall|].
      intros row [y Hy]. rewrite Hy. simpl.
      apply (rmapM_get d) in Hy as [_ ->]. reflexivity.
  - intros [Hall ->]. split.
    + eapply Forall_impl; [exact Hall|]. intros row Hrow.
      exists (map (fun x => get d (f x)) row). apply (rmapM_get d). auto.
    + apply map_ext_Forall. eapply Forall_impl; [exact Hall|].
      intros row Hrow.
      rewrite (proj2 (rmapM_get d f row _) (conj Hrow eq_refl)). reflexivity.
Qed.

(** *** Regrouping a batch of coordinate rows *)

Lemma triples_app l1 l2 n :
  length l1 = (3 * n)%nat -> triples (l1 ++ l2) = triples l1 ++ triples l2.
Proof.
  revert l1. induction n as [|n IH]; intros l1 H.
  - destruct l1; [reflexivity | discriminate].
  - destruct l1 as [|x [|y [|z l1]]]; try (simpl in H; lia).
    simpl. f_equal. apply IH. simpl in H. lia.
Qed.

Lemma triples_length l n : length l = (3 * n)%nat -> length (triples l) = n.
Proof.
  revert l. induction n as [|n IH]; intros l H.
  - destruct l; [reflexivity | discriminate].
  - destruct l as [|x [|y [|z l]]]; try (simpl in H; lia).
    simpl. f_equal. apply IH. simpl in H. lia.
Qed.

Lemma triples_drop_eq l i m :
  m = (3 * i)%nat -> triples (drop m l) = drop i (triples l).
Proof.
  revert l m. induction i as [|i IH]; intros l m ->.
  - reflexivity.
  - replace (3 * S i)%nat with (S (S (S (3 * i)))) by lia.
    destruct l as [|x [|y [|z l]]];
      try (simpl; rewrite ?drop_nil; reflexivity).
    simpl. apply IH. reflexivity.
Qed.

Lemma triples_take_eq l k m :
  m = (3 * k)%nat -> triples (take m l) = take k (triples l).
Proof.
  revert l m. induction k as [|k IH]; intros l m ->.
  - reflexivity.
  - replace (3 * S k)%nat with (S (S (S (3 * k)))) by lia.
    destruct l as [|x [|y [|z l]]];
      try (simpl; rewrite ?take_nil; reflexivity).
    simpl. f_equal. apply IH. reflexivity.
Qed.

Lemma reshape_concat {A : Type} (rows : list (list A)) c :
  Forall (fun r => length r = c) rows ->
  reshape (length rows) c (concat rows) = rows.
Proof.
  induction 1 as [|r rows Hr Hrows IH]; [reflexivity|].
  simpl. rewrite take_app_length' by (symmetry; exact Hr).
  rewrite drop_app_length' by (symmetry; exact Hr). rewrite IH. reflexivity.
Qed.

Lemma concat_length_uniform {A : Type} (rows : list (list A)) c :
  Forall (fun r => length r = c) rows ->
  length (concat rows) = (length rows * c)%nat.
Proof.
  induction 1 as [|r rows Hr Hrows IH]; [reflexivity|].
  simpl. rewrite length_app, IH, Hr. reflexivity.
Qed.

Lemma triples_concat pos n :
  Forall (fun row => length row = (3 * n)%nat) pos ->
  triples (concat pos) = concat (map triples pos).
Proof.
  induction 1 as [|row pos Hrow Hpos IH]; [reflexivity|].
  simpl. rewrite (triples_app _ _ n Hrow), IH. reflexivity.
Qed.

(** A batch with one row of [nelec * 3] coordinates per element is viewed
    row by row. *)
Lemma view_pos_rows self pos :
  ndim self = 3%nat -> (0 < nelec self)%nat ->
  Forall (fun row => length row = (3 * nelec self)%nat) pos ->
  view_pos self pos = Ok (map triples pos).
Proof.
  intros Hd Hn Hpos. unfold view_pos. rewrite Hd. simpl negb. cbv iota.
  assert (Hpos' : Forall (fun row => length row = (nelec self * 3)%nat) pos).
  { eapply Forall_impl; [exact Hpos|]. simpl. intros; lia. }
  rewrite (concat_length_uniform pos _ Hpos').
  destruct (Nat.eqb_spec (nelec self * 3) 0); [lia|].
  rewrite Nat.Div0.mod_mul, Nat.div_mul by lia. simpl.
  rewrite (triples_concat pos (nelec self) Hpos).
  rewrite <- (length_map triples pos) at 1.
  rewrite reshape_concat; [reflexivity|].
  apply Forall_fmap. eapply Forall_impl; [exact Hpos|].
  intros row Hrow. simpl. apply triples_length. exact Hrow.
Qed.

End ListFacts.

Module PipelineFacts.
Import AtomicOrbitals ResultVocabulary RowVocabulary ListFacts.
Local Open Scope R_scope.

Lemma call_radial_value self r :
  call_radial self r None [0%Z] true true
  = Ok (One (T3 (over_r (rad_value (radial_fam self)) (bas_n self) (bas_exp self) r))).
Proof. reflexivity. Qed.

Lemma rmapM2_ext {A B : Type} (f g : A -> result B) t :
  (forall x, f x = g x) -> rmapM (rmapM f) t = rmapM (rmapM g) t.
Proof. intros H. apply rmapM_ext. intros row. apply rmapM_ext. exact H. Qed.

Lemma rmapM2_pure {A B : Type} (g : A -> B) t :
  rmapM (rmapM (fun x => Ok (g x))) t = Ok (map (map g) t).
Proof.
  rewrite (rmapM_ext _ (fun row => Ok (map g row))) by (intros; apply rmapM_pure).
  apply rmapM_pure.
Qed.

(** The harmonics call of the value path, in terms of [harm_row]. *)
Lemma call_harmonics_rows self xyz :
  harm_ok self ->
  call_harmonics self xyz [0%Z] true true
  = let* Y := rmapM (rmapM (harm_row self)) xyz in Ok (One (T3 Y)).
Proof.
  unfold harm_ok, call_harmonics, harm_row, Harmonics.__call__.
  destruct (harmonics self) as [h|]; [|tauto].
  destruct (String.eqb (Harmonics.type h) "cart").
  - destruct (Harmonics.params h); try tauto. intros _.
    rewrite rmapM2_pure. reflexivity.
  - destruct (String.eqb (Harmonics.type h) "sph"); [|tauto].
    destruct (Harmonics.params h); try tauto. intros _.
    unfold SphericalHarmonics.SphericalHarmonics. simpl.
    unfold SphericalHarmonics.get_spherical_harmonics.
    destruct (rmapM _ xyz); reflexivity.
Qed.

Lemma call_harmonics_ok self xyz Yo :
  call_harmonics self xyz [0%Z] true true = Ok Yo -> harm_ok self.
Proof.
  unfold harm_ok, call_harmonics, Harmonics.__call__.
  destruct (harmonics self) as [h|]; [|discriminate].
  destruct (String.eqb (Harmonics.type h) "cart").
  - destruct (Harmonics.params h); try discriminate. intros _. exact I.
  - destruct (String.eqb (Harmonics.type h) "sph"); [|discriminate].
    destruct (Harmonics.params h); try discriminate. intros _. exact I.
Qed.

End PipelineFacts.

Module ValueFacts.
Import AtomicOrbitals ResultVocabulary RowVocabulary ListFacts PipelineFacts.
Local Open Scope R_scope.

Lemma zip_with_map2 {A B C D : Type} (f : B -> C -> D) (g : A -> B) (h : A -> C) l :
  zip_with f (map g l) (map h l) = map (fun x => f (g x) (h x)) l.
Proof. induction l as [|x l IH]; [reflexivity|]. simpl. rewrite IH. reflexivity. Qed.

Lemma Forall_Forall_map {A B : Type} (P : B -> Prop) (g : A -> B) t :
  Forall (Forall P) (map (map g) t) <-> Forall (Forall (fun x => P (g x))) t.
Proof.
  rewrite Forall_fmap. apply Forall_proper; [|reflexivity].
  intros m. simpl. rewrite Forall_fmap. reflexivity.
Qed.

Lemma map_map2 {A B C : Type} (f : B -> C) (g : A -> B) (t : list (list A)) :
  map (map f) (map (map g) t) = map (map (fun x => f (g x))) t.
Proof. rewrite map_map. apply map_ext. intros m. apply map_map. Qed.

(** Positions: displacements and distances are computed electron by
    electron. *)
Lemma process_position_iff self pos xyz r :
  _process_position self pos = Ok (xyz, r) <->
  exists p, view_pos self pos = Ok p /\
    Forall (Forall (fun e =>
      ok (repeat_interleave (nshells self) (atom_row self e)) /\
      ok (repeat_interleave (nshells self) (map dist (atom_row self e))))) p /\
    xyz = map (map (xyz_row self)) p /\ r = map (map (r_row self)) p.
Proof.
  unfold _process_position, _elec_atom_dist.
  change (fun e : vec3 => map (fun a : vec3 => vsub e a) (atom_coords self))
    with (atom_row self).
  split.
  - intros H. apply rbind_Ok in H as ([xyz0 r0] & H0 & H).
    apply rbind_Ok in H0 as (p & Hp & H0). injection H0 as <- <-.
    apply rbind_Ok in H as (xyz' & Hx & H).
    apply rbind_Ok in H as (r' & Hr & H). injection H as <- <-.
    simpl in Hx, Hr. rewrite map_map2 in Hr.
    apply (rmapM2_get []) in Hx as [Hxo ->].
    apply (rmapM2_get []) in Hr as [Hro ->].
    apply (proj1 (Forall_Forall_map _ _ _)) in Hxo.
    apply (proj1 (Forall_Forall_map _ _ _)) in Hro.
    exists p. split; [exact Hp|]. split; [|split].
    + apply Forall_forall. intros m Hm. apply Forall_forall. intros e He.
      rewrite Forall_forall in Hxo, Hro.
      specialize (Hxo m Hm). specialize (Hro m Hm).
      rewrite Forall_forall in Hxo, Hro. split; [apply (Hxo e He) | apply (Hro e He)].
    + rewrite map_map2. reflexivity.
    + rewrite map_map2. reflexivity.
  - intros (p & Hp & Hok & -> & ->). rewrite Hp. simpl.
    assert (Hx : rmapM (rmapM (repeat_interleave (nshells self)))
                   (map (map (atom_row self)) p)
                 = Ok (map (map (xyz_row self)) p)).
    { apply (rmapM2_get []). split.
      - apply Forall_Forall_map. eapply Forall_impl; [exact Hok|]. intros m Hm.
        eapply Forall_impl; [exact Hm|]. intros e [He _]. exact He.
      - rewrite map_map2. reflexivity. }
    assert (Hr : rmapM (rmapM (repeat_interleave (nshells self)))
                   (map (map (map dist)) (map (map (atom_row self)) p))
                 = Ok (map (map (r_row self)) p)).
    { rewrite map_map2. apply (rmapM2_get []). split.
      - apply Forall_Forall_map. eapply Forall_impl; [exact Hok|]. intros m Hm.
        eapply Forall_impl; [exact Hm|]. intros e [_ He]. exact He.
      - rewrite map_map2. reflexivity. }
    rewrite Hx. simpl. rewrite Hr. reflexivity.
Qed.

Lemma scatter_ctr_iff self (t : tensor3) A :
  scatter_ctr Rplus 0 self t = Ok A <->
  Forall (fun m => length m = nelec self) t /\
  rmapM (rmapM (index_add_ Rplus (replicate (norb self) 0) (index_ctr self))) t = Ok A.
Proof.
  unfold scatter_ctr. revert A. induction t as [|m t IH]; intros A; simpl.
  - split; [intros H; split; [constructor | exact H] | intros [_ H]; exact H].
  - split.
    + intros H. apply rbind_Ok in H as (y & Hy & H).
      apply rbind_Ok in H as (ys & Hys & H). injection H as <-.
      destruct (Nat.eqb_spec (length m) (nelec self)) as [E|E]; [|discriminate].
      apply IH in Hys as [Hall Hr].
      split; [constructor; assumption|]. rewrite Hy. simpl. rewrite Hr. reflexivity.
    + intros [Hall H]. apply Forall_cons in Hall as [Hm Hall].
      apply rbind_Ok in H as (y & Hy & H).
      apply rbind_Ok in H as (ys & Hys & H). injection H as <-.
      rewrite Hm, Nat.eqb_refl, Hy. simpl.
      rewrite (proj2 (IH ys) (conj Hall Hys)). reflexivity.
Qed.

Lemma tensor_product_rows self (p : list (list vec3)) :
  map2_3 Rmult (scale_last Rmult (norm_cst self)
                  (over_r (rad_value (radial_fam self)) (bas_n self) (bas_exp self)
                          (map (map (r_row self)) p)))
         (map (map (Y_row self)) p)
  = map (map (prim_row self)) p.
Proof.
  unfold map2_3, scale_last, over_r. rewrite !map_map2.
  rewrite zip_with_map2. apply map_ext. intros m.
  rewrite zip_with_map2. reflexivity.
Qed.

(** The value path, electron by electron: it succeeds exactly when every
    stage succeeds at every electron of the batch, and the tensor it
    returns holds [ao_row] of each electron. *)
Lemma compute_ao_values_iff self pos A :
  _compute_ao_values self pos = Ok A <->
  exists p, view_pos self pos = Ok p /\ harm_ok self /\
    Forall (Forall (row_ok self)) p /\
    (contract self = true -> Forall (fun m => length m = nelec self) p) /\
    A = map (map (ao_row self)) p.
Proof.
  unfold _compute_ao_values. split.
  - intros H. apply rbind_Ok in H as ([xyz r] & Hpp & H).
    apply process_position_iff in Hpp as (p & Hp & Hok & -> & ->).
    rewrite call_radial_value in H. simpl in H.
    apply rbind_Ok in H as (Yo & Hh & H).
    pose proof (call_harmonics_ok _ _ _ Hh) as Hhok.
    rewrite (call_harmonics_rows _ _ Hhok) in Hh.
    apply rbind_Ok in Hh as (Y & HY & Hh). injection Hh as <-. simpl in H.
    apply (rmapM2_get []) in HY as [HYok ->].
    apply (proj1 (Forall_Forall_map _ _ _)) in HYok.
    rewrite map_map2 in H.
    change (fun x : vec3 => get [] (harm_row self (xyz_row self x)))
      with (Y_row self) in H.
    unfold _ao_kernel in H. rewrite tensor_product_rows in H.
    exists p. split; [exact Hp|]. split; [exact Hhok|].
    unfold ao_row, row_ok. destruct (contract self) eqn:Ec.
    + unfold _contract in H. apply scatter_ctr_iff in H as [Hlen H].
      unfold scale_last in H. rewrite map_map2 in H.
      apply (rmapM2_get []) in H as [Hcok ->].
      apply (proj1 (Forall_Forall_map _ _ _)) in Hcok.
      split; [|split].
      * apply Forall_forall. intros m Hm. apply Forall_forall. intros e He.
        rewrite Forall_forall in Hok, HYok, Hcok.
        specialize (Hok m Hm). specialize (HYok m Hm). specialize (Hcok m Hm).
        rewrite Forall_forall in Hok, HYok, Hcok.
        destruct (Hok e He) as [H1 H2].
        split; [exact H1|]. split; [exact H2|]. split; [apply (HYok e He)|].
        intros _. apply (Hcok e He).
      * intros _. unfold scale_last in Hlen.
        rewrite !Forall_fmap in Hlen. eapply Forall_impl; [exact Hlen|].
        intros m. simpl. rewrite !length_map. tauto.
      * rewrite map_map2. reflexivity.
    + injection H as <-. split; [|split; [discriminate | reflexivity]].
      apply Forall_forall. intros m Hm. apply Forall_forall. intros e He.
      rewrite Forall_forall in Hok, HYok.
      specialize (Hok m Hm). specialize (HYok m Hm).
      rewrite Forall_forall in Hok, HYok.
      destruct (Hok e He) as [H1 H2].
      split; [exact H1|]. split; [exact H2|]. split; [apply (HYok e He)|].
      discriminate.
  - intros (p & Hp & Hhok & Hok & Hlen & ->).
    assert (Hpp : _process_position self pos
                  = Ok (map (map (xyz_row self)) p, map (map (r_row self)) p)).
    { apply process_position_iff. exists p. split; [exact Hp|].
      split; [|split; reflexivity].
      eapply Forall_impl; [exact Hok|]. intros m Hm.
      eapply Forall_impl; [exact Hm|]. intros e (H1 & H2 & _). tauto. }
    rewrite Hpp. simpl. rewrite (call_harmonics_rows _ _ Hhok).
    assert (HY : rmapM (rmapM (harm_row self)) (map (map (xyz_row self)) p)
                 = Ok (map (map (Y_row self)) p)).
    { apply (rmapM2_get []). split.
      - apply Forall_Forall_map. eapply Forall_impl; [exact Hok|]. intros m Hm.
        eapply Forall_impl; [exact Hm|]. intros e (_ & _ & H3 & _). exact H3.
      - rewrite map_map2. reflexivity. }
    rewrite HY. simpl. unfold _ao_kernel. rewrite tensor_product_rows.
    unfold ao_row. destruct (contract self) eqn:Ec; [|reflexivity].
    unfold _contract. apply scatter_ctr_iff. split.
    + unfold scale_last. rewrite !Forall_fmap.
      eapply Forall_impl; [exact (Hlen eq_refl)|]. intros m. simpl.
      rewrite !length_map. tauto.
    + unfold scale_last. rewrite map_map2. apply (rmapM2_get []). split.
      * apply Forall_Forall_map. eapply Forall_impl; [exact Hok|]. intros m Hm.
        eapply Forall_impl; [exact Hm|]. intros e (_ & _ & _ & H4).
        apply H4. exact Ec.
      * rewrite map_map2. reflexivity.
Qed.

End ValueFacts.

Module WidthFacts.
Import AtomicOrbitals ResultVocabulary RowVocabulary ListFacts PipelineFacts ValueFacts.
Import SphericalHarmonics DispatchFacts.
Local Open Scope R_scope.

Lemma index_add_go_length {A : Type} (add : A -> A -> A) out index src out' :
  index_add_go add out index src = Ok out' -> length out' = length out.
Proof.
  revert out src. induction index as [|i index IH]; intros out src H.
  - simpl in H. injection H as <-. reflexivity.
  - destruct src as [|s src]; [simpl in H; injection H as <-; reflexivity|].
    simpl in H. destruct (out !! i); [|discriminate].
    apply IH in H. rewrite length_insert in H. exact H.
Qed.

Lemma index_add_length {A : Type} (add : A -> A -> A) out index src out' :
  index_add_ add out index src = Ok out' -> length out' = length out.
Proof.
  unfold index_add_. destruct (_ =? _)%nat; [|discriminate].
  apply index_add_go_length.
Qed.

(** The length of an interleaved row depends on the length of the row
    only. *)
Lemma concat_zip_replicate_length {A B : Type} ns (l : list A) (l' : list B) :
  length l = length l' ->
  length (concat (zip_with replicate ns l)) = length (concat (zip_with replicate ns l')).
Proof.
  revert l l'. induction ns as [|n ns IH]; intros l l' H; [reflexivity|].
  destruct l, l'; try discriminate; [reflexivity|].
  simpl. rewrite !length_app, !length_replicate. f_equal. apply IH.
  simpl in H. lia.
Qed.

Lemma concat_map_replicate_length {A B : Type} n (l : list A) (l' : list B) :
  length l = length l' ->
  length (concat (map (replicate n) l)) = length (concat (map (replicate n) l')).
Proof.
  revert l'. induction l as [|x l IH]; intros l' H; destruct l'; try discriminate;
    [reflexivity|].
  simpl. rewrite !length_app, !length_replicate. f_equal. apply IH.
  simpl in H. lia.
Qed.

Lemma repeat_interleave_length {A B : Type} ns (l : list A) (l' : list B) k k' :
  length l = length l' ->
  repeat_interleave ns l = Ok k -> repeat_interleave ns l' = Ok k' ->
  length k = length k'.
Proof.
  intros Hl. unfold repeat_interleave.
  destruct ns as [|n [|n' ns]].
  - destruct (_ =? _)%nat; [|discriminate]. destruct (_ =? _)%nat; [|discriminate].
    intros H H'. injection H as <-. injection H' as <-. reflexivity.
  - intros H H'. injection H as <-. injection H' as <-.
    apply concat_map_replicate_length, Hl.
  - destruct (_ =? _)%nat; [|discriminate]. destruct (_ =? _)%nat; [|discriminate].
    intros H H'. injection H as <-. injection H' as <-.
    exact (concat_zip_replicate_length (n :: n' :: ns) l l' Hl).
Qed.

Lemma when_deriv_length {A : Type} derivative d mask (f : vec3 -> result A)
    xyz Y Y' :
  when_deriv derivative d mask f xyz Y = Ok Y' -> length Y' = length Y.
Proof.
  unfold when_deriv. destruct (_ =? _)%Z.
  - apply assign_where_length.
  - intros H. injection H as <-. reflexivity.
Qed.

Lemma for_mval_length {A : Type} mvals (body : Z -> list A -> result (list A)) Y Y' :
  (forall mval Y Y', body mval Y = Ok Y' -> length Y' = length Y) ->
  for_mval mvals body Y = Ok Y' -> length Y' = length Y.
Proof.
  intros Hb. revert Y. induction mvals as [|mval mvals IH]; intros Y H.
  - simpl in H. injection H as <-. reflexivity.
  - simpl in H. apply rbind_Ok in H as (Y1 & H1 & H).
    rewrite (IH _ H). eapply Hb. exact H1.
Qed.

(** The row of spherical harmonics has one entry per primitive of the
    row of displacements. *)
Lemma get_spherical_harmonics_row_length lval m derivative xyz Y :
  get_spherical_harmonics_row lval m derivative xyz = Ok Y ->
  length Y = length xyz.
Proof.
  unfold get_spherical_harmonics_row. intros H.
  apply rbind_Ok in H as (Y1 & H1 & H). apply when_deriv_length in H1.
  apply rbind_Ok in H as (Y2 & H2 & H). apply when_deriv_length in H2.
  apply rbind_Ok in H as (Y3 & H3 & H).
  assert (Hbody : forall L (F0 F1 F2 : Z -> vec3 -> result R) mval (Ya Yb : list R),
    (let ind := mask_lm lval m L mval in
     if any ind then
       let* Y := when_deriv derivative 0 ind (F0 mval) xyz Ya in
       let* Y := when_deriv derivative 1 ind (F1 mval) xyz Y in
       when_deriv derivative 2 ind (F2 mval) xyz Y
     else Ok Ya) = Ok Yb -> length Yb = length Ya).
  { intros L F0 F1 F2 mval Ya Yb Hb. cbv zeta in Hb.
    destruct (any (mask_lm lval m L mval)); [|injection Hb as <-; reflexivity].
    apply rbind_Ok in Hb as (Ya1 & Hb1 & Hb). apply when_deriv_length in Hb1.
    apply rbind_Ok in Hb as (Ya2 & Hb2 & Hb). apply when_deriv_length in Hb2.
    apply when_deriv_length in Hb. congruence. }
  assert (E3 : length Y3 = length Y2).
  { destruct (any (mask_l lval 1)); [|injection H3 as <-; reflexivity].
    eapply for_mval_length; [|exact H3].
    intros mval Ya Yb. apply (Hbody 1%Z
      (fun mval v => _spherical_harmonics_l1 v mval)
      (fun mval v => _nabla_spherical_harmonics_l1 v mval)
      (fun mval v => _lap_spherical_harmonics_l1 v mval)). }
  assert (E4 : length Y = length Y3).
  { destruct (any (mask_l lval 2)); [|injection H as <-; reflexivity].
    eapply for_mval_length; [|exact H].
    intros mval Ya Yb. apply (Hbody 2%Z
      (fun mval v => _spherical_harmonics_l2 v mval)
      (fun mval v => _nabla_spherical_harmonics_l2 v mval)
      (fun mval v => _lap_spherical_harmonics_l2 v mval)). }
  rewrite E4, E3, H2, H1. apply length_map.
Qed.

Lemma harm_row_length self xyz xyz' Y Y' :
  length xyz = length xyz' ->
  harm_row self xyz = Ok Y -> harm_row self xyz' = Ok Y' ->
  length Y = length Y'.
Proof.
  intros Hl. unfold harm_row.
  destruct (harmonics self) as [h|]; [|discriminate].
  destruct (String.eqb (Harmonics.type h) "cart").
  - destruct (Harmonics.params h); try discriminate.
    intros H H'. injection H as <-. injection H' as <-.
    rewrite !length_zip_with. lia.
  - destruct (String.eqb (Harmonics.type h) "sph"); [|discriminate].
    destruct (Harmonics.params h); try discriminate.
    intros H H'. apply get_spherical_harmonics_row_length in H, H'. lia.
Qed.

(** All rows of orbital values have the same width. *)
Lemma ao_row_length self e e' :
  row_ok self e -> row_ok self e' ->
  length (ao_row self e) = length (ao_row self e').
Proof.
  intros (Hx & Hr & Hy & Hc) (Hx' & Hr' & Hy' & Hc').
  assert (Ha : length (atom_row self e) = length (atom_row self e'))
    by (unfold atom_row; rewrite !length_map; reflexivity).
  assert (Ex : length (xyz_row self e) = length (xyz_row self e')).
  { unfold xyz_row. destruct Hx as [k Hk], Hx' as [k' Hk']. rewrite Hk, Hk'. simpl.
    eapply repeat_interleave_length; [exact Ha | exact Hk | exact Hk']. }
  assert (Er : length (r_row self e) = length (r_row self e')).
  { unfold r_row. destruct Hr as [k Hk], Hr' as [k' Hk']. rewrite Hk, Hk'. simpl.
    eapply repeat_interleave_length; [|exact Hk | exact Hk'].
    rewrite !length_map. exact Ha. }
  assert (EY : length (Y_row self e) = length (Y_row self e')).
  { unfold Y_row. destruct Hy as [k Hk], Hy' as [k' Hk']. rewrite Hk, Hk'. simpl.
    eapply harm_row_length; [exact Ex | exact Hk | exact Hk']. }
  assert (Ep : length (prim_row self e) = length (prim_row self e')).
  { unfold prim_row, R_row. rewrite !length_zip_with. lia. }
  unfold ao_row. destruct (contract self); [|exact Ep].
  destruct (Hc eq_refl) as [k Hk], (Hc' eq_refl) as [k' Hk']. rewrite Hk, Hk'. simpl.
  apply index_add_length in Hk, Hk'. lia.
Qed.

End WidthFacts.

Module UpdateFacts.
Import AtomicOrbitals ResultVocabulary RowVocabulary UpdateVocabulary.
Import ListFacts PipelineFacts ValueFacts WidthFacts ForwardFacts.
Local Open Scope R_scope.

(** [forward] for the value, with the default keyword arguments. *)
Lemma forward_value self pos one_elec :
  forward self pos (DList [0%Z]) true true one_elec =
  match _compute_ao_values (if one_elec then set_nelec 1 self else self) pos with
  | Ok a => (Ok (One (T3 a)), self)
  | Raise e => (Raise e, if one_elec then set_nelec 1 self else self)
  end.
Proof.
  unfold forward, dispatch. simpl.
  destruct (_compute_ao_values _ pos); simpl; [|reflexivity].
  destruct one_elec; [rewrite set_nelec_restore|]; reflexivity.
Qed.

(** The steps of [update], read off its definition. *)
Lemma update_intro self st ao pos idelec a out v a' :
  st !! ao = Some a ->
  _compute_ao_values (set_nelec 1 self)
     (slice_cols (idelec * 3) ((idelec + 1) * 3) pos) = Ok out ->
  squeeze1 out = Ok v -> setitem_elec a idelec v = Ok a' ->
  update self st ao pos idelec
  = (Ok (fresh (dom st)),
     <[fresh (dom st) := a']> (<[fresh (dom st) := a]> st), self).
Proof.
  intros Hst Hout Hv Ha'. unfold update. rewrite Hst, forward_value, Hout.
  simpl. rewrite Hv. simpl. rewrite Ha'. reflexivity.
Qed.

Lemma update_inv self st ao pos idelec ao_new st' self' :
  update self st ao pos idelec = (Ok ao_new, st', self') ->
  exists a out v a',
    st !! ao = Some a /\
    _compute_ao_values (set_nelec 1 self)
      (slice_cols (idelec * 3) ((idelec + 1) * 3) pos) = Ok out /\
    squeeze1 out = Ok v /\ setitem_elec a idelec v = Ok a' /\
    ao_new = fresh (dom st) /\ self' = self /\
    st' = <[ao_new := a']> (<[ao_new := a]> st).
Proof.
  unfold update. destruct (st !! ao) as [a|] eqn:Est; [|discriminate].
  rewrite forward_value.
  destruct (_compute_ao_values _ _) as [out|e] eqn:Eout; [|discriminate]. simpl.
  destruct (squeeze1 out) as [v|e] eqn:Ev; [|discriminate]. simpl.
  destruct (setitem_elec a idelec v) as [a'|e] eqn:Ea; [|discriminate].
  intros H. injection H as <- <- <-.
  exists a, out, v, a'. auto 10.
Qed.

Lemma fresh_not_in_store (st : gmap nat tensor3) : st !! fresh (dom st) = None.
Proof. apply not_elem_of_dom. apply is_fresh. Qed.

Lemma broadcast_to_length {A : Type} n (l l' : list A) :
  broadcast_to n l = Ok l' -> length l' = n.
Proof.
  unfold broadcast_to. destruct (Nat.eqb_spec (length l) n) as [E|E].
  - intros H. injection H as <-. exact E.
  - destruct l as [|x [|y l]]; try discriminate.
    intros H. injection H as <-. apply length_replicate.
Qed.

(** The selection of the rows by [idelec] succeeds whenever the
    assignment to them does. *)
Lemma setitem_elec_Ok a idelec v a' :
  setitem_elec a idelec v = Ok a' <->
  (let* v := broadcast_to (length a) v in
   rmapM (fun mv : tensor2 * list R =>
            match fst mv !! idelec with
            | None => Raise IndexError
            | Some old =>
                let* row := broadcast_to (length old) (snd mv) in
                Ok (<[idelec := row]> (fst mv))
            end) (zip a v)) = Ok a'.
Proof.
  unfold setitem_elec. split.
  - intros H. apply rbind_Ok in H as (view & _ & H). exact H.
  - intros H.
    assert (Hv : exists view,
               rmapM (fun m : tensor2 => match m !! idelec with
                                         | None => Raise IndexError
                                         | Some old => Ok old
                                         end) a = Ok view).
    { apply rbind_Ok in H as (vb & Hvb & H). apply broadcast_to_length in Hvb.
      revert vb a' Hvb H. induction a as [|m a IH]; intros vb a' Hvb H.
      - eexists; reflexivity.
      - destruct vb as [|x vb]; [discriminate|]. simpl in H.
        destruct (m !! idelec) as [old|] eqn:Eold; [|discriminate]. simpl in H.
        apply rbind_Ok in H as (m' & Hm' & H).
        apply rbind_Ok in H as (rest & Hrest & H).
        destruct (IH vb rest) as [view Hview]; [simpl in Hvb; lia | exact Hrest|].
        simpl. rewrite Eold. simpl. rewrite Hview. eexists; reflexivity. }
    destruct Hv as [view ->]. exact H.
Qed.

(** [ao_new[:, idelec, :] = v] writes row [idelec] of every batch element
    and nothing else. *)
Lemma setitem_elec_spec a idelec v a' :
  setitem_elec a idelec v = Ok a' ->
  exists vb, broadcast_to (length a) v = Ok vb /\ length a' = length a /\
    forall b m, a !! b = Some m ->
      exists old x row, m !! idelec = Some old /\ vb !! b = Some x /\
        broadcast_to (length old) x = Ok row /\
        a' !! b = Some (<[idelec := row]> m).
Proof.
  intros H. apply setitem_elec_Ok in H. apply rbind_Ok in H as (vb & Hvb & H).
  exists vb. split; [exact Hvb|].
  apply broadcast_to_length in Hvb.
  revert vb a' Hvb H. induction a as [|m a IH]; intros vb a' Hvb H.
  - simpl in H. injection H as <-. split; [reflexivity|].
    intros b m Hb. rewrite lookup_nil in Hb. discriminate.
  - destruct vb as [|x vb]; [discriminate|]. simpl in H.
    destruct (m !! idelec) as [old|] eqn:Eold; [|discriminate]. simpl in H.
    apply rbind_Ok in H as (m' & Hm' & H).
    apply rbind_Ok in Hm' as (row & Hrow & Hm'). injection Hm' as <-.
    apply rbind_Ok in H as (rest & Hrest & H). injection H as <-.
    destruct (IH vb rest) as [Hl Hs]; [simpl in Hvb; lia | exact Hrest |].
    split; [simpl; lia|].
    intros b m0 Hb. destruct b as [|b]; simpl in *.
    + injection Hb as <-. exists old, x, row. auto.
    + apply Hs. exact Hb.
Qed.

(** C8, amended: [update] works on a clone.  The tensor it returns is new
    in the store; in it the row of electron [idelec] of every batch element
    holds the values recomputed by the one-electron [forward], and every
    other row is the row of [ao]; the tensor [ao] passed in, and every
    other tensor of the store, is left as it was, and so is the object,
    with its electron count. *)
Theorem update_returns_modified_clone self st ao pos idelec ao_new st' self' :
  update self st ao pos idelec = (Ok ao_new, st', self') ->
  self' = self /\ nelec self' = nelec self /\
  exists a a' out v vb,
    st !! ao = Some a /\ st !! ao_new = None /\
    st' !! ao = Some a /\ (forall k, k <> ao_new -> st' !! k = st !! k) /\
    st' !! ao_new = Some a' /\ length a' = length a /\
    fst (forward self (slice_cols (idelec * 3) ((idelec + 1) * 3) pos)
                 (DList [0%Z]) true true true) = Ok (One (T3 out)) /\
    squeeze1 out = Ok v /\ broadcast_to (length a) v = Ok vb /\
    forall b m, a !! b = Some m ->
      exists m' old x row,
        a' !! b = Some m' /\ length m' = length m /\
        (forall e, e <> idelec -> m' !! e = m !! e) /\
        m !! idelec = Some old /\ vb !! b = Some x /\
        broadcast_to (length old) x = Ok row /\ m' !! idelec = Some row.
Proof.
  intros H.
  apply update_inv in H as (a & out & v & a' & Hst & Hout & Hv & Ha' & -> & -> & ->).
  destruct (setitem_elec_spec _ _ _ _ Ha') as (vb & Hvb & Hlen & Hrows).
  pose proof (fresh_not_in_store st) as Hfresh.
  assert (Hne : ao <> fresh (dom st)) by congruence.
  split; [reflexivity|]. split; [reflexivity|].
  exists a, a', out, v, vb.
  split; [exact Hst|]. split; [exact Hfresh|].
  split; [rewrite !lookup_insert_ne by congruence; exact Hst|].
  split; [intros k Hk; rewrite !lookup_insert_ne by congruence; reflexivity|].
  split; [apply lookup_insert_eq|]. split; [exact Hlen|].
  split; [rewrite forward_value, Hout; reflexivity|].
  split; [exact Hv|]. split; [exact Hvb|].
  intros b m Hb. destruct (Hrows b m Hb) as (old & x & row & Hold & Hx & Hrow & Hb').
  exists (<[idelec := row]> m), old, x, row.
  split; [exact Hb'|]. split; [apply length_insert|].
  split; [intros e He; apply list_lookup_insert_ne; congruence|].
  split; [exact Hold|]. split; [exact Hx|]. split; [exact Hrow|].
  apply list_lookup_insert_eq. eapply lookup_lt_Some. exact Hold.
Qed.

Lemma update_returns_modified_clone_witness :
  exists ao_new st' a' m',
    update (Examples.s_orbital 2) {[ 0%nat := [[[5]; [6]]] ]} 0
           [[1; 0; 0; 0; 3; 0]] 0
    = (Ok ao_new, st', Examples.s_orbital 2) /\
    nelec (Examples.s_orbital 2) = 2%nat /\
    st' !! 0%nat = Some [[[5]; [6]]] /\ ao_new <> 0%nat /\
    st' !! ao_new = Some a' /\ a' !! 0%nat = Some m' /\
    m' !! 1%nat = Some [6] /\ length m' = 2%nat.
Proof.
  eassert (H : update (Examples.s_orbital 2) {[ 0%nat := [[[5]; [6]]] ]} 0
                      [[1; 0; 0; 0; 3; 0]] 0 = (Ok _, _, _)).
  { eapply update_intro; [apply lookup_singleton_eq | reflexivity..]. }
  destruct (update_returns_modified_clone _ _ _ _ _ _ _ _ H)
    as (Hself & Hnelec & a & a' & out & v & vb & Hst & Hnew & Hold & _ & Ha'
        & _ & _ & _ & _ & Hrows).
  rewrite lookup_singleton_eq in Hst. injection Hst as <-.
  destruct (Hrows 0%nat [[5]; [6]] eq_refl)
    as (m' & old & x & row & Hm' & Hlen & Hother & _).
  eexists _, _, a', m'. split; [exact H|].
  split; [reflexivity|]. split; [exact Hold|].
  split; [intros E; rewrite E, lookup_singleton_eq in Hnew; discriminate|].
  split; [exact Ha'|]. split; [exact Hm'|].
  split; [rewrite (Hother 1%nat) by discriminate; reflexivity | exact Hlen].
Defined.

End UpdateFacts.

Module EquivalenceFacts.
Import AtomicOrbitals ResultVocabulary RowVocabulary UpdateVocabulary.
Import ListFacts PipelineFacts ValueFacts WidthFacts ForwardFacts UpdateFacts.
Local Open Scope R_scope.

Lemma take_1_drop {A : Type} (l : list A) i x :
  l !! i = Some x -> take 1 (drop i l) = [x].
Proof.
  intros H. rewrite <- (take_drop_middle l i x H).
  rewrite drop_app_length' by (rewrite length_take; apply lookup_lt_Some in H; lia).
  reflexivity.
Qed.

(** The coordinates of the electrons of a row whose electron [i] alone has
    moved. *)
Lemma triples_moved i rowo rown n :
  length rowo = (3 * n)%nat -> length rown = (3 * n)%nat -> (i < n)%nat ->
  moved_only i rowo rown ->
  exists e_old e_new,
    triples rowo !! i = Some e_old /\ triples rown !! i = Some e_new /\
    triples rown = <[i := e_new]> (triples rowo).
Proof.
  intros Ho Hn Hi [Ht Hd].
  pose proof (triples_length _ _ Ho) as Hlo.
  pose proof (triples_length _ _ Hn) as Hln.
  destruct (lookup_lt_is_Some_2 (triples rowo) i) as [e_old Heo]; [lia|].
  destruct (lookup_lt_is_Some_2 (triples rown) i) as [e_new Hen]; [lia|].
  exists e_old, e_new. split; [exact Heo|]. split; [exact Hen|].
  rewrite insert_take_drop by lia.
  rewrite <- (take_drop_middle (triples rown) i e_new Hen) at 1.
  rewrite <- (triples_take_eq rown i (3 * i) eq_refl), Ht,
          (triples_take_eq rowo i (3 * i) eq_refl).
  rewrite <- (triples_drop_eq rown (S i) (3 * i + 3)) by lia.
  rewrite Hd, (triples_drop_eq rowo (S i) (3 * i + 3)) by lia.
  reflexivity.
Qed.

(** The electron that [update] reads from the new positions. *)
Lemma slice_electron row i n e :
  length row = (3 * n)%nat -> triples row !! i = Some e ->
  triples (take ((i + 1) * 3 - i * 3) (drop (i * 3) row)) = [e].
Proof.
  intros Hl He.
  replace ((i + 1) * 3 - i * 3)%nat with (3 * 1)%nat by lia.
  rewrite (triples_take_eq _ 1 (3 * 1) eq_refl).
  rewrite (triples_drop_eq row i (i * 3)) by lia.
  apply take_1_drop. exact He.
Qed.

Lemma squeeze1_singletons (out : tensor3) (v : tensor2) :
  Forall2 (fun m row => m = [row]) out v -> squeeze1 out = Ok v.
Proof.
  unfold squeeze1. induction 1 as [|m row out v -> H IH]; [reflexivity|].
  simpl. rewrite IH. reflexivity.
Qed.

Section Equivalence.

Variable self : t.
Variable idelec : nat.
Hypothesis three_dimensions : ndim self = 3%nat.
Hypothesis electron_in_range : (idelec < nelec self)%nat.

(** The one-electron evaluation that [update] runs on the new
    positions. *)
Lemma one_electron_value pos :
  Forall (fun row => length row = (3 * nelec self)%nat) pos ->
  harm_ok self ->
  Forall (Forall (row_ok self)) (map triples pos) ->
  _compute_ao_values (set_nelec 1 self)
    (slice_cols (idelec * 3) ((idelec + 1) * 3) pos)
  = Ok (map (fun row => map (ao_row self) (take 1 (drop idelec (triples row)))) pos).
Proof.
  intros Hpos Hh Hok. apply compute_ao_values_iff.
  exists (map (fun row => take 1 (drop idelec (triples row))) pos).
  assert (Hlen3 : Forall (fun row => length (triples row) = nelec self) pos).
  { eapply Forall_impl; [exact Hpos|]. intros row Hrow.
    apply triples_length. exact Hrow. }
  split; [|split; [exact Hh | split; [|split]]].
  - rewrite view_pos_rows.
    + f_equal. unfold slice_cols. rewrite map_map. apply map_ext. intros row.
      replace ((idelec + 1) * 3 - idelec * 3)%nat with (3 * 1)%nat by lia.
      rewrite (triples_take_eq _ 1 (3 * 1) eq_refl).
      rewrite (triples_drop_eq row idelec (idelec * 3)) by lia. reflexivity.
    + exact three_dimensions.
    + simpl. lia.
    + unfold slice_cols. apply Forall_fmap. eapply Forall_impl; [exact Hpos|].
      intros row Hrow. unfold compose. cbv beta in *.
      rewrite length_take, length_drop.
      change (nelec (set_nelec 1 self)) with 1%nat. lia.
  - rewrite Forall_fmap in Hok. apply Forall_fmap.
    eapply Forall_impl; [exact Hok|]. intros row Hrow. simpl in *.
    apply Forall_take, Forall_drop. exact Hrow.
  - intros _. apply Forall_fmap. eapply Forall_impl; [exact Hlen3|].
    intros row Hrow. unfold compose. cbv beta in *.
    rewrite length_take, length_drop.
    change (nelec (set_nelec 1 self)) with 1%nat. lia.
  - rewrite map_map. reflexivity.
Qed.

(** Writing the recomputed row of the moved electron into the old tensor
    gives the tensor of the new positions. *)
Lemma splice_rows pos_old pos_new :
  Forall (fun row => length row = (3 * nelec self)%nat) pos_old ->
  Forall (fun row => length row = (3 * nelec self)%nat) pos_new ->
  Forall2 (moved_only idelec) pos_old pos_new ->
  Forall (Forall (row_ok self)) (map triples pos_old) ->
  Forall (Forall (row_ok self)) (map triples pos_new) ->
  exists v,
    squeeze1 (map (fun row => map (ao_row self) (take 1 (drop idelec (triples row))))
                  pos_new) = Ok v /\
    setitem_elec (map (map (ao_row self)) (map triples pos_old)) idelec v
    = Ok (map (map (ao_row self)) (map triples pos_new)).
Proof.
  intros Ho Hn Hmv Hoko Hokn.
  exists (map (fun row => ao_row self (nth idelec (triples row) zero3)) pos_new).
  assert (Hnth : forall row, In row pos_new ->
            triples row !! idelec = Some (nth idelec (triples row) zero3)).
  { intros row Hin. apply list_elem_of_In in Hin.
    rewrite Forall_forall in Hn. specialize (Hn row Hin).
    apply triples_length in Hn.
    destruct (lookup_lt_is_Some_2 (triples row) idelec) as [e He]; [lia|].
    rewrite He. f_equal. symmetry. apply nth_lookup_Some with (d := zero3) in He.
    exact He. }
  split.
  - apply squeeze1_singletons. apply Forall2_fmap.
    apply Forall_Forall2_diag. apply Forall_forall. intros row Hin.
    apply list_elem_of_In in Hin.
    rewrite (take_1_drop _ _ _ (Hnth row Hin)). reflexivity.
  - apply setitem_elec_Ok. unfold broadcast_to.
    rewrite !length_map, (Forall2_length _ _ _ Hmv), Nat.eqb_refl. simpl.
    clear Hnth.
    induction Hmv as [|rowo rown pos_old pos_new Hm Hmv IH]; [reflexivity|].
    apply Forall_cons in Ho as [Ho1 Ho], Hn as [Hn1 Hn].
    simpl in Hoko, Hokn.
    apply Forall_cons in Hoko as [Hoko1 Hoko], Hokn as [Hokn1 Hokn].
    destruct (triples_moved idelec rowo rown (nelec self) Ho1 Hn1
                electron_in_range Hm) as (e_old & e_new & Heo & Hen & Heq).
    simpl. rewrite list_lookup_fmap, Heo. simpl.
    rewrite (nth_lookup_Some _ _ zero3 _ Hen).
    assert (Hw : length (ao_row self e_new) = length (ao_row self e_old)).
    { apply ao_row_length.
      - rewrite Forall_forall in Hokn1. apply Hokn1.
        apply list_elem_of_lookup. exists idelec. exact Hen.
      - rewrite Forall_forall in Hoko1. apply Hoko1.
        apply list_elem_of_lookup. exists idelec. exact Heo. }
    unfold broadcast_to. rewrite Hw, Nat.eqb_refl. simpl.
    rewrite (IH Ho Hn Hoko Hokn). simpl.
    rewrite Heq, list_fmap_insert. reflexivity.
Qed.

(** C4, amended: for the orbital values (derivative order 0, the only
    order [update] evaluates), updating the tensor of the old positions
    with the new positions of one moved electron returns the tensor that
    [forward] computes from the new positions. *)
Theorem update_equals_recompute st ao pos_old pos_new a_old a_new :
  Forall (fun row => length row = (3 * nelec self)%nat) pos_old ->
  Forall (fun row => length row = (3 * nelec self)%nat) pos_new ->
  Forall2 (moved_only idelec) pos_old pos_new ->
  fst (forward self pos_old (DList [0%Z]) true true false) = Ok (One (T3 a_old)) ->
  fst (forward self pos_new (DList [0%Z]) true true false) = Ok (One (T3 a_new)) ->
  st !! ao = Some a_old ->
  exists ao_new st',
    update self st ao pos_new idelec = (Ok ao_new, st', self) /\
    st' !! ao_new = Some a_new.
Proof.
  intros Ho Hn Hmv Hfo Hfn Hst.
  assert (Hval : forall pos a,
    Forall (fun row => length row = (3 * nelec self)%nat) pos ->
    fst (forward self pos (DList [0%Z]) true true false) = Ok (One (T3 a)) ->
    harm_ok self /\ Forall (Forall (row_ok self)) (map triples pos) /\
    a = map (map (ao_row self)) (map triples pos)).
  { intros pos a Hpos Hf. rewrite forward_value in Hf.
    destruct (_compute_ao_values self pos) as [a0|] eqn:E; [|discriminate].
    simpl in Hf. injection Hf as ->.
    apply compute_ao_values_iff in E as (p & Hp & Hh & Hok & _ & ->).
    rewrite view_pos_rows in Hp;
      [|exact three_dimensions | lia | exact Hpos].
    injection Hp as <-. auto. }
  destruct (Hval _ _ Ho Hfo) as (Hh & Hoko & ->).
  destruct (Hval _ _ Hn Hfn) as (_ & Hokn & ->).
  destruct (splice_rows pos_old pos_new Ho Hn Hmv Hoko Hokn) as (v & Hv & Hset).
  eexists _, _. split.
  - eapply update_intro; [exact Hst | | exact Hv | exact Hset].
    apply one_electron_value; assumption.
  - apply lookup_insert_eq.
Qed.

End Equivalence.

End EquivalenceFacts.

Module UpdateExamples.
Import AtomicOrbitals ResultVocabulary RowVocabulary UpdateVocabulary.
Import ListFacts PipelineFacts ValueFacts WidthFacts ForwardFacts UpdateFacts.
Import EquivalenceFacts.
Local Open Scope R_scope.

Ltac evaluate :=
  cbv -[Rplus Rmult Rminus Ropp Rdiv Rinv exp sqrt pow IZR Z.pow_pos].

Lemma distance_one :
  sqrt ((1 - 0) * (1 - 0) + (0 - 0) * (0 - 0) + (0 - 0) * (0 - 0)) = 1.
Proof.
  replace ((1 - 0) * (1 - 0) + (0 - 0) * (0 - 0) + (0 - 0) * (0 - 0)) with 1 by ring.
  apply sqrt_1.
Qed.

Lemma distance_two :
  sqrt ((2 - 0) * (2 - 0) + (0 - 0) * (0 - 0) + (0 - 0) * (0 - 0)) = 2.
Proof.
  replace ((2 - 0) * (2 - 0) + (0 - 0) * (0 - 0) + (0 - 0) * (0 - 0)) with (2 * 2) by ring.
  apply sqrt_square. lra.
Qed.

Lemma update_equals_recompute_witness :
  exists a_old a_new ao_new st',
    fst (forward (Examples.s_orbital 2) [[2; 0; 0; 0; 3; 0]] (DList [0%Z])
                 true true false) = Ok (One (T3 a_old)) /\
    fst (forward (Examples.s_orbital 2) [[1; 0; 0; 0; 3; 0]] (DList [0%Z])
                 true true false) = Ok (One (T3 a_new)) /\
    update (Examples.s_orbital 2) {[ 0%nat := a_old ]} 0 [[1; 0; 0; 0; 3; 0]] 0
    = (Ok ao_new, st', Examples.s_orbital 2) /\
    st' !! ao_new = Some a_new.
Proof.
  eassert (Ho : fst (forward (Examples.s_orbital 2) [[2; 0; 0; 0; 3; 0]]
                             (DList [0%Z]) true true false) = Ok (One (T3 _)))
    by reflexivity.
  eassert (Hn : fst (forward (Examples.s_orbital 2) [[1; 0; 0; 0; 3; 0]]
                             (DList [0%Z]) true true false) = Ok (One (T3 _)))
    by reflexivity.
  assert (Hlo : Forall (fun row => length row = (3 * nelec (Examples.s_orbital 2))%nat)
                       [[2; 0; 0; 0; 3; 0]])
    by (repeat constructor).
  assert (Hln : Forall (fun row => length row = (3 * nelec (Examples.s_orbital 2))%nat)
                       [[1; 0; 0; 0; 3; 0]])
    by (repeat constructor).
  assert (Hmv : Forall2 (moved_only 0) [[2; 0; 0; 0; 3; 0]] [[1; 0; 0; 0; 3; 0]])
    by (repeat constructor).
  destruct (update_equals_recompute (Examples.s_orbital 2) 0 eq_refl
              ltac:(simpl; lia) {[ 0%nat := _ ]} 0%nat _ _ _ _ Hlo Hln Hmv Ho Hn
              (lookup_singleton_eq _ _)) as (ao_new & st' & Hu & Hl).
  eexists _, _, ao_new, st'.
  split; [exact Ho|]. split; [exact Hn|]. split; [exact Hu | exact Hl].
Defined.

(** C4, as worded, fails for derivative order 1: [update] applied to the
    summed gradient computed at the old positions splices in the orbital
    value of the moved electron, a positive number, where the gradient
    recomputed at the new positions is negative. *)
Lemma update_of_gradient_is_not_recomputed_gradient :
  exists g_old g_new ao_new st' u,
    fst (forward (Examples.s_orbital 1) [[2; 0; 0]] (DList [1%Z])
                 true true false) = Ok (One (T3 g_old)) /\
    fst (forward (Examples.s_orbital 1) [[1; 0; 0]] (DList [1%Z])
                 true true false) = Ok (One (T3 g_new)) /\
    update (Examples.s_orbital 1) {[ 0%nat := g_old ]} 0 [[1; 0; 0]] 0
    = (Ok ao_new, st', Examples.s_orbital 1) /\
    st' !! ao_new = Some u /\ u <> g_new.
Proof.
  eexists _, _, _, _, _.
  split; [reflexivity|]. split; [reflexivity|].
  split; [eapply update_intro; [apply lookup_singleton_eq | reflexivity..]|].
  split; [apply lookup_insert_eq|].
  evaluate. rewrite distance_one. intros E.
  injection E as E. pose proof (exp_pos (- (1) * 1)) as Hpos.
  lra.
Qed.

(** C8, as worded, fails: the tensor passed to [update] is not written to.
    After the call it still holds the row computed at the old position of
    the moved electron; the recomputed row is in a new tensor. *)
Lemma update_leaves_its_argument_unchanged :
  exists a_old ao_new st' a_new,
    fst (forward (Examples.s_orbital 1) [[2; 0; 0]] (DList [0%Z])
                 true true false) = Ok (One (T3 a_old)) /\
    update (Examples.s_orbital 1) {[ 0%nat := a_old ]} 0 [[1; 0; 0]] 0
    = (Ok ao_new, st', Examples.s_orbital 1) /\
    ao_new <> 0%nat /\
    st' !! 0%nat = Some a_old /\ st' !! ao_new = Some a_new /\
    a_new <> a_old.
Proof.
  eexists _, _, _, _.
  split; [reflexivity|].
  split; [eapply update_intro; [apply lookup_singleton_eq | reflexivity..]|].
  assert (Hne : fresh (dom ({[ 0%nat := [[[0]]] ]} : store)) <> 0%nat).
  { intros E. pose proof (fresh_not_in_store {[ 0%nat := [[[0]]] ]}) as Hf.
    rewrite E, lookup_singleton_eq in Hf. discriminate. }
  split; [|split; [|split]].
  - rewrite !dom_singleton_L. rewrite dom_singleton_L in Hne. exact Hne.
  - rewrite !dom_singleton_L. rewrite dom_singleton_L in Hne.
    rewrite !lookup_insert_ne by exact Hne. apply lookup_singleton_eq.
  - apply lookup_insert_eq.
  - evaluate. rewrite distance_one, distance_two. intros E.
    injection E as E.
    assert (Hlt : exp (- (1) * 2) < exp (- (1) * 1)) by (apply exp_increasing; lra).
    pose proof (exp_pos (- (1) * 2)). nra.
Qed.

End UpdateExamples.

(** ** Spherical harmonics with l = 1 *)

Module HarmonicsL1Facts.
Import SphericalHarmonics GradientVocabulary HarmonicsVocabulary.
Import SphericalHarmonicsFacts.
Local Open Scope R_scope.

Lemma vsq_pos v : vsq v <> 0 -> 0 < vsq v.
Proof. intros H. pose proof (vsq_nonneg v). lra. Qed.

Lemma norm_nonzero v : vsq v <> 0 -> sqrt (vsq v) <> 0.
Proof.
  intros H E. apply sqrt_eq_0 in E; [contradiction | apply vsq_nonneg].
Qed.

Lemma norm_sq v : sqrt (vsq v) ^ 2 = vsq v.
Proof.
  replace (sqrt (vsq v) ^ 2) with (sqrt (vsq v) * sqrt (vsq v)) by ring.
  apply sqrt_sqrt, vsq_nonneg.
Qed.

Lemma one_point_zero : 1.0 = 1.
Proof. unfold Q2R. simpl. lra. Qed.

(** Names the distance [r = sqrt (vsq v)] of the goal, keeping r <> 0 and
    r ^ 2 = x ^ 2 + y ^ 2 + z ^ 2. *)
Ltac name_norm x y z Hv r Hr Hrr :=
  pose proof (norm_nonzero (V3 x y z) Hv) as Hr;
  pose proof (norm_sq (V3 x y z)) as Hrr;
  set (r := sqrt (vsq (V3 x y z))) in *; clearbody r;
  unfold vsq in Hrr, Hv; cbn -[pow] in Hrr, Hv.

(** X1: the summed gradient of an l = 1 harmonic is the sum of the three
    components of its unsummed gradient. *)
Theorem nabla_l1_is_sum_of_grad_l1 v m :
  vsq v <> 0 -> In m [-1; 0; 1]%Z ->
  exists g, _grad_spherical_harmonics_l1 v m = Some g /\
            _nabla_spherical_harmonics_l1 v m = Ok (vsum g).
Proof.
  intros Hv Hm. destruct v as [x y z].
  destruct Hm as [<-|[<-|[<-|[]]]]; (eexists; split; [reflexivity|]);
    unfold _nabla_spherical_harmonics_l1; cbn -[pow vsq]; f_equal;
    unfold vsum; cbn -[pow vsq];
    name_norm x y z Hv r Hr Hrr;
    set (c := 0.4886025119029199);
    rewrite one_point_zero;
    replace (1 / r) with (r ^ 2 / r ^ 3) by (field; exact Hr);
    rewrite Hrr; field; exact Hr.
Qed.

Lemma nabla_l1_is_sum_of_grad_l1_witness :
  exists g, _grad_spherical_harmonics_l1 (V3 1 2 3) 0 = Some g /\
            _nabla_spherical_harmonics_l1 (V3 1 2 3) 0 = Ok (vsum g).
Proof.
  apply (nabla_l1_is_sum_of_grad_l1 (V3 1 2 3) 0).
  - unfold vsq. cbn -[pow]. lra.
  - simpl. auto.
Defined.

(** X2: the Laplacian returned for an l = 1 harmonic is -l(l+1)/r^2 times
    its value. *)
Theorem lap_l1_is_eigenvalue_times_value v m :
  vsq v <> 0 -> In m [-1; 0; 1]%Z ->
  _lap_spherical_harmonics_l1 v m = Ok (- 2 * Y1 m v / vsq v).
Proof.
  intros Hv Hm. destruct v as [x y z].
  destruct Hm as [<-|[<-|[<-|[]]]];
    unfold _lap_spherical_harmonics_l1, Y1, _spherical_harmonics_l1;
    cbn -[pow vsq]; f_equal;
    name_norm x y z Hv r Hr Hrr;
    set (c := 0.4886025119029199);
    change (vsq (V3 x y z)) with (x ^ 2 + y ^ 2 + z ^ 2) in *;
    rewrite <- Hrr; field; exact Hr.
Qed.

Lemma lap_l1_is_eigenvalue_times_value_witness :
  _lap_spherical_harmonics_l1 (V3 1 2 3) 1
  = Ok (- 2 * Y1 1 (V3 1 2 3) / vsq (V3 1 2 3)).
Proof.
  apply (lap_l1_is_eigenvalue_times_value (V3 1 2 3) 1).
  - unfold vsq. cbn -[pow]. lra.
  - simpl. auto.
Defined.

(** The derivative of a linear function over the distance: the shape of
    every l = 1 value formula along one coordinate. *)
Lemma derivable_over_norm (f : R -> R) a b d x l :
  (forall t, f t = (a * t + b) / sqrt (t ^ 2 + d)) ->
  0 < x ^ 2 + d ->
  l = (a * (x ^ 2 + d) - (a * x + b) * x) / sqrt (x ^ 2 + d) ^ 3 ->
  derivable_pt_lim f x l.
Proof.
  intros Hf Hd ->.
  assert (HN : derivable_pt_lim (fun t => a * t + b) x (a * 1 + 0)).
  { pose proof (derivable_pt_lim_plus _ _ _ _ _
      (derivable_pt_lim_scal _ a x _ (derivable_pt_lim_id x))
      (derivable_pt_lim_const b x)) as H.
    eapply derivable_pt_lim_ext; [|exact H].
    intros t. unfold plus_fct, mult_real_fct, fct_cte, id. reflexivity. }
  pose proof (derivable_quadratic 1 0 d x) as HQ.
  assert (Hq : 0 < 1 * x ^ 2 + 0 * x + d) by lra.
  pose proof (derivable_pt_lim_comp (fun t => 1 * t ^ 2 + 0 * t + d) sqrt x _ _
                HQ (derivable_pt_lim_sqrt _ Hq)) as HD.
  assert (Hr : sqrt (x ^ 2 + d) <> 0).
  { intros E. apply sqrt_eq_0 in E; lra. }
  assert (HD0 : comp sqrt (fun t => 1 * t ^ 2 + 0 * t + d) x <> 0).
  { unfold comp. replace (1 * x ^ 2 + 0 * x + d) with (x ^ 2 + d) by ring. exact Hr. }
  pose proof (derivable_pt_lim_div _ _ _ _ _ HN HD HD0) as H.
  eapply derivable_pt_lim_ext; [| match type of H with
      derivable_pt_lim _ _ ?l0 => replace
        ((a * (x ^ 2 + d) - (a * x + b) * x) / sqrt (x ^ 2 + d) ^ 3)
        with l0; [exact H|] end].
  - intros t. rewrite Hf. unfold div_fct, comp.
    replace (1 * t ^ 2 + 0 * t + d) with (t ^ 2 + d) by ring. reflexivity.
  - unfold comp, Rsqr.
    replace (1 * x ^ 2 + 0 * x + d) with (x ^ 2 + d) by ring.
    assert (Hrr : sqrt (x ^ 2 + d) * sqrt (x ^ 2 + d) = x ^ 2 + d)
      by (apply sqrt_sqrt; lra).
    set (r := sqrt (x ^ 2 + d)) in *. clearbody r.
    rewrite <- Hrr. field. exact Hr.
Qed.

Ltac partial_l1 c a b d x y z Hv :=
  apply (derivable_over_norm _ a b d);
  [ intros t; unfold Y1, _spherical_harmonics_l1; cbn -[pow];
    unfold vsq; cbn -[pow]; unfold Rdiv;
    change 0.4886025119029199 with c;
    apply (f_equal2 Rmult); [ring | apply f_equal, f_equal; ring]
  | unfold vsq in Hv; cbn -[pow] in Hv;
    pose proof (pow2_ge_0 x); pose proof (pow2_ge_0 y); pose proof (pow2_ge_0 z);
    lra
  | pose proof (norm_nonzero (V3 x y z) Hv) as Hr;
    cbn -[pow]; unfold vsq in *; cbn -[pow] in *;
    change 0.4886025119029199 with c;
    set (r := sqrt (x ^ 2 + y ^ 2 + z ^ 2)) in *;
    repeat match goal with
           | |- context [sqrt ?s] =>
               replace (sqrt s) with r by (subst r; f_equal; ring)
           end;
    field; exact Hr ].

(** X3: the unsummed gradient returned for an l = 1 harmonic is the
    coordinate gradient of its value formula. *)
Theorem grad_l1_is_analytic v m :
  vsq v <> 0 -> In m [-1; 0; 1]%Z ->
  exists g, _grad_spherical_harmonics_l1 v m = Some g /\
            is_gradient (Y1 m) v g.
Proof.
  intros Hv Hm. destruct v as [x y z].
  set (c := 0.4886025119029199).
  destruct Hm as [<-|[<-|[<-|[]]]]; (eexists; split; [reflexivity|]);
    unfold is_gradient; cbn -[Y1 pow vsq]; fold c; (split; [|split]).
  - partial_l1 c 0 (c * y) (y ^ 2 + z ^ 2) x y z Hv.
  - partial_l1 c c 0 (x ^ 2 + z ^ 2) x y z Hv.
  - partial_l1 c 0 (c * y) (x ^ 2 + y ^ 2) x y z Hv.
  - partial_l1 c 0 (c * z) (y ^ 2 + z ^ 2) x y z Hv.
  - partial_l1 c 0 (c * z) (x ^ 2 + z ^ 2) x y z Hv.
  - partial_l1 c c 0 (x ^ 2 + y ^ 2) x y z Hv.
  - partial_l1 c c 0 (y ^ 2 + z ^ 2) x y z Hv.
  - partial_l1 c 0 (c * x) (x ^ 2 + z ^ 2) x y z Hv.
  - partial_l1 c 0 (c * x) (x ^ 2 + y ^ 2) x y z Hv.
Qed.

Lemma grad_l1_is_analytic_witness :
  exists g, _grad_spherical_harmonics_l1 (V3 1 2 3) (-1) = Some g /\
            is_gradient (Y1 (-1)) (V3 1 2 3) g.
Proof.
  apply (grad_l1_is_analytic (V3 1 2 3) (-1)).
  - unfold vsq. cbn -[pow]. lra.
  - simpl. auto.
Defined.

End HarmonicsL1Facts.

(** ** Spherical harmonics with l = 2 *)

Module HarmonicsL2Facts.
Import SphericalHarmonics GradientVocabulary HarmonicsVocabulary.
Import SphericalHarmonicsFacts HarmonicsL1Facts.
Local Open Scope R_scope.

Ltac constants :=
  set (c0 := 0.31539156525252005) in *;
  set (c2 := 0.5462742152960396) in *;
  set (cm := 1.0925484305920792) in *.

Ltac in_terms_of_norm x y z Hv :=
  let r := fresh "r" in
  let Hr := fresh "Hr" in
  let Hrr := fresh "Hrr" in
  name_norm x y z Hv r Hr Hrr;
  unfold vsq; cbn -[pow]; constants;
  replace (r ^ 3) with (r ^ 2 * r) by ring;
  replace (r ^ 4) with ((r ^ 2) ^ 2) by ring;
  replace (r ^ 6) with ((r ^ 2) ^ 3) by ring;
  rewrite ?Hrr; field; auto.

(** X4: for m = -2, -1 and 1 the Laplacian returned for an l = 2 harmonic is
    -l(l+1)/r^2 times its value. *)
Theorem lap_l2_cross_is_eigenvalue_times_value v m :
  vsq v <> 0 -> In m [-2; -1; 1]%Z ->
  _lap_spherical_harmonics_l2 v m = Ok (- 6 * Y2 m v / vsq v).
Proof.
  intros Hv Hm. destruct v as [x y z].
  destruct Hm as [<-|[<-|[<-|[]]]];
    unfold _lap_spherical_harmonics_l2, Y2, _spherical_harmonics_l2;
    cbn -[pow vsq]; f_equal; in_terms_of_norm x y z Hv.
Qed.

Lemma lap_l2_cross_is_eigenvalue_times_value_witness :
  _lap_spherical_harmonics_l2 (V3 1 2 3) (-2)
  = Ok (- 6 * Y2 (-2) (V3 1 2 3) / vsq (V3 1 2 3)).
Proof.
  apply (lap_l2_cross_is_eigenvalue_times_value (V3 1 2 3) (-2)).
  - unfold vsq. cbn -[pow]. lra.
  - simpl. auto.
Defined.

(** X5: for m = 2 the value returned as Laplacian is -6/r^2 times the
    harmonic plus c2 (y^4 - x^4) (1 - 6 / r^6): the factor 6 / r^6 of the
    closed form multiplies only its first term. *)
Theorem lap_l2_m2_excess v :
  vsq v <> 0 ->
  _lap_spherical_harmonics_l2 v 2
  = Ok (- 6 * Y2 2 v / vsq v
        + 0.5462742152960396 * (vy v ^ 4 - vx v ^ 4) * (1 - 6 / vsq v ^ 3)).
Proof.
  intros Hv. destruct v as [x y z].
  unfold _lap_spherical_harmonics_l2, Y2, _spherical_harmonics_l2;
    cbn -[pow vsq]; f_equal; in_terms_of_norm x y z Hv.
Qed.

Lemma lap_l2_m2_excess_witness :
  _lap_spherical_harmonics_l2 (V3 1 2 3) 2
  = Ok (- 6 * Y2 2 (V3 1 2 3) / vsq (V3 1 2 3)
        + 0.5462742152960396 * (2 ^ 4 - 1 ^ 4) * (1 - 6 / vsq (V3 1 2 3) ^ 3)).
Proof.
  apply (lap_l2_m2_excess (V3 1 2 3)). unfold vsq. cbn -[pow]. lra.
Defined.

(** X6: for m = 0 the value returned as Laplacian is -6/r^2 times the
    harmonic plus c0 z^2 (6 (x^2 + y^2 + 2 z^2) / r^6 - (x^2 + y^2 - 2 z^2)). *)
Theorem lap_l2_m0_excess v :
  vsq v <> 0 ->
  _lap_spherical_harmonics_l2 v 0
  = Ok (- 6 * Y2 0 v / vsq v
        + 0.31539156525252005 * vz v ^ 2
          * (6 * (vx v ^ 2 + vy v ^ 2 + 2 * vz v ^ 2) / vsq v ^ 3
             - (vx v ^ 2 + vy v ^ 2 - 2 * vz v ^ 2))).
Proof.
  intros Hv. destruct v as [x y z].
  unfold _lap_spherical_harmonics_l2, Y2, _spherical_harmonics_l2;
    cbn -[pow vsq]; f_equal; in_terms_of_norm x y z Hv.
Qed.

Lemma lap_l2_m0_excess_witness :
  _lap_spherical_harmonics_l2 (V3 1 2 3) 0
  = Ok (- 6 * Y2 0 (V3 1 2 3) / vsq (V3 1 2 3)
        + 0.31539156525252005 * 3 ^ 2
          * (6 * (1 ^ 2 + 2 ^ 2 + 2 * 3 ^ 2) / vsq (V3 1 2 3) ^ 3
             - (1 ^ 2 + 2 ^ 2 - 2 * 3 ^ 2))).
Proof.
  apply (lap_l2_m0_excess (V3 1 2 3)). unfold vsq. cbn -[pow]. lra.
Defined.

(** X7: the summed gradient returned for an l = 2 harmonic divides its
    second term by r^3 where the sum of the coordinate gradient has r^4:
    it is that sum plus 2 Y (x + y + z) (1/r^2 - 1/r). *)
Theorem nabla_l2_excess v m :
  vsq v <> 0 -> In m [-2; -1; 0; 1; 2]%Z ->
  _nabla_spherical_harmonics_l2 v m
  = Ok (vsum (analytic_grad_l2 m v)
        + 2 * Y2 m v * vsum v * (1 / vsq v - 1 / sqrt (vsq v))).
Proof.
  intros Hv Hm. destruct v as [x y z].
  destruct Hm as [<-|[<-|[<-|[<-|[<-|[]]]]]];
    unfold _nabla_spherical_harmonics_l2, Y2, _spherical_harmonics_l2,
           analytic_grad_l2, vsum;
    cbn -[pow vsq]; f_equal; in_terms_of_norm x y z Hv.
Qed.

Lemma nabla_l2_excess_witness :
  _nabla_spherical_harmonics_l2 (V3 1 2 3) 1
  = Ok (vsum (analytic_grad_l2 1 (V3 1 2 3))
        + 2 * Y2 1 (V3 1 2 3) * vsum (V3 1 2 3)
          * (1 / vsq (V3 1 2 3) - 1 / sqrt (vsq (V3 1 2 3)))).
Proof.
  apply (nabla_l2_excess (V3 1 2 3) 1).
  - unfold vsq. cbn -[pow]. lra.
  - simpl. auto.
Defined.

End HarmonicsL2Facts.

(** ** The entries of the spherical-harmonics engine *)

Module EngineFacts.
Import SphericalHarmonics ResultVocabulary GradientVocabulary HarmonicsVocabulary.
Import SphericalHarmonicsFacts DispatchFacts WidthFacts.
Local Open Scope R_scope.

Lemma rbind_ret {A : Type} (m : result A) : (let* y := m in Ok y) = m.
Proof. destruct m; reflexivity. Qed.

(** The three guarded assignments of one pass reduce to the assignment of
    the requested order, or to nothing. *)
Lemma chain_served {A : Type} d ind (f0 f1 f2 : vec3 -> result A) xyz Y :
  served_order d = true ->
  (let* Y := when_deriv d 0 ind f0 xyz Y in
   let* Y := when_deriv d 1 ind f1 xyz Y in
   when_deriv d 2 ind f2 xyz Y)
  = assign_where ind (pick d f0 f1 f2) xyz Y.
Proof.
  unfold served_order, when_deriv, pick. intros Hd.
  destruct (Z.eqb_spec d 0) as [->|H0]; [simpl; apply rbind_ret|].
  destruct (Z.eqb_spec d 1) as [->|H1]; [simpl; apply rbind_ret|].
  destruct (Z.eqb_spec d 2) as [->|H2]; [reflexivity | discriminate].
Qed.

Lemma chain_unserved {A : Type} d ind (f0 f1 f2 : vec3 -> result A) xyz Y :
  served_order d = false ->
  (let* Y := when_deriv d 0 ind f0 xyz Y in
   let* Y := when_deriv d 1 ind f1 xyz Y in
   when_deriv d 2 ind f2 xyz Y)
  = Ok Y.
Proof.
  unfold served_order, when_deriv. intros Hd.
  destruct (d =? 0)%Z, (d =? 1)%Z, (d =? 2)%Z; try discriminate. reflexivity.
Qed.

Lemma for_mval_ext {A : Type} mvals (b1 b2 : Z -> list A -> result (list A)) Y :
  (forall mval Y, b1 mval Y = b2 mval Y) ->
  for_mval mvals b1 Y = for_mval mvals b2 Y.
Proof.
  intros H. revert Y. induction mvals as [|mval mvals IH]; intros Y; [reflexivity|].
  simpl. rewrite H. destruct (b2 mval Y); simpl; [apply IH | reflexivity].
Qed.

Lemma for_mval_id {A : Type} mvals (Y : list A) :
  for_mval mvals (fun _ Y => Ok Y) Y = Ok Y.
Proof. induction mvals as [|mval mvals IH]; [reflexivity | exact IH]. Qed.

(** A masked assignment of a total function on rows of matching length
    succeeds. *)
Lemma assign_where_total {A : Type} mask (f : vec3 -> result A) xyz Y :
  length mask = length xyz -> length Y = length xyz ->
  (forall v, exists y, f v = Ok y) ->
  exists Y', assign_where mask f xyz Y = Ok Y'.
Proof.
  intros Hm HY Hf. revert xyz Y Hm HY.
  induction mask as [|b mask IH]; intros xyz Y Hm HY; [eexists; reflexivity|].
  destruct xyz as [|v xyz]; [discriminate|]. destruct Y as [|y Y]; [discriminate|].
  simpl in Hm, HY. destruct (IH xyz Y) as [Y' HY']; [lia | lia |].
  simpl. destruct b.
  - destruct (Hf v) as [y' Hy']. rewrite Hy'. simpl. rewrite HY'. eexists; reflexivity.
  - simpl. rewrite HY'. eexists; reflexivity.
Qed.

Lemma for_mval_total {A : Type} n mvals (body : Z -> list A -> result (list A)) Y :
  (forall mval Y, In mval mvals -> length Y = n ->
     exists Y', body mval Y = Ok Y' /\ length Y' = n) ->
  length Y = n ->
  exists Y', for_mval mvals body Y = Ok Y' /\ length Y' = n.
Proof.
  revert Y. induction mvals as [|mval mvals IH]; intros Y Hb HY.
  - exists Y. auto.
  - destruct (Hb mval Y) as (Y1 & H1 & HY1); [left; reflexivity | exact HY |].
    simpl. rewrite H1. simpl. apply IH; [|exact HY1].
    intros mv Y0 Hin. apply Hb. right. exact Hin.
Qed.

Lemma pick_total {A : Type} d (f0 f1 f2 : vec3 -> result A) :
  (forall v, exists y, f0 v = Ok y) -> (forall v, exists y, f1 v = Ok y) ->
  (forall v, exists y, f2 v = Ok y) ->
  forall v, exists y, pick d f0 f1 f2 v = Ok y.
Proof. intros H0 H1 H2 v. unfold pick. destruct (d =? 0)%Z, (d =? 1)%Z; auto. Qed.

Lemma pick_app {A B : Type} d (f0 f1 f2 : A -> B) v :
  pick d f0 f1 f2 v = pick d (f0 v) (f1 v) (f2 v).
Proof. unfold pick. destruct (d =? 0)%Z, (d =? 1)%Z; reflexivity. Qed.

Section Row.

Variables (lval m : list Z) (d : Z) (xyz : list vec3).
Hypothesis same_lm : length lval = length m.
Hypothesis same_width : length xyz = length lval.

Let block := block lval m d xyz.

Lemma block_served L F0 F1 F2 mvals Y :
  served_order d = true ->
  block L F0 F1 F2 mvals Y
  = for_mval mvals (fun mval Y =>
      let ind := mask_lm lval m L mval in
      if any ind
      then assign_where ind (pick d (F0 mval) (F1 mval) (F2 mval)) xyz Y
      else Ok Y) Y.
Proof.
  intros Hd. unfold block, HarmonicsVocabulary.block.
  apply for_mval_ext. intros mval Y0. cbv zeta.
  rewrite chain_served by exact Hd. reflexivity.
Qed.

Lemma block_unserved L F0 F1 F2 mvals Y :
  served_order d = false -> block L F0 F1 F2 mvals Y = Ok Y.
Proof.
  intros Hd. unfold block, HarmonicsVocabulary.block.
  transitivity (for_mval mvals (fun _ Y => Ok Y) Y); [|apply for_mval_id].
  apply for_mval_ext. intros mval Y0. cbv zeta.
  rewrite chain_unserved by exact Hd. destruct (any _); reflexivity.
Qed.

Lemma block_total L F0 F1 F2 mvals Y :
  (forall mval v, In mval mvals -> exists y, F0 mval v = Ok y) ->
  (forall mval v, In mval mvals -> exists y, F1 mval v = Ok y) ->
  (forall mval v, In mval mvals -> exists y, F2 mval v = Ok y) ->
  length Y = length xyz ->
  exists Y', block L F0 F1 F2 mvals Y = Ok Y' /\ length Y' = length xyz.
Proof.
  intros H0 H1 H2 HY. destruct (served_order d) eqn:Hd.
  - rewrite block_served by exact Hd.
    apply for_mval_total; [|exact HY]. intros mval Y0 Hin HY0. cbv zeta.
    destruct (any _); [|exists Y0; auto].
    destruct (assign_where_total (mask_lm lval m L mval)
                (pick d (F0 mval) (F1 mval) (F2 mval)) xyz Y0) as [Y' HY'].
    + unfold mask_lm. rewrite length_zip_with. lia.
    + exact HY0.
    + apply pick_total; intros v; eauto.
    + exists Y'. split; [exact HY'|]. apply assign_where_length in HY'. lia.
  - rewrite block_unserved by exact Hd. exists Y. auto.
Qed.

Lemma row_unfold :
  get_spherical_harmonics_row lval m d xyz
  = let Y := map (fun _ => 0) xyz in
    let ind := mask_l lval 0 in
    let* Y := when_deriv d 0 ind (fun v => Ok (_spherical_harmonics_l0 v)) xyz Y in
    let* Y := when_deriv d 1 ind (fun v => Ok (_nabla_spherical_harmonics_l0 v)) xyz Y in
    let* Y := (if any (mask_l lval 1)
            then block 1 (fun mval v => _spherical_harmonics_l1 v mval)
                         (fun mval v => _nabla_spherical_harmonics_l1 v mval)
                         (fun mval v => _lap_spherical_harmonics_l1 v mval)
                         [-1; 0; 1]%Z Y
            else Ok Y) in
    if any (mask_l lval 2)
    then block 2 (fun mval v => _spherical_harmonics_l2 v mval)
                 (fun mval v => _nabla_spherical_harmonics_l2 v mval)
                 (fun mval v => _lap_spherical_harmonics_l2 v mval)
                 [-2; -1; 0; 1; 2]%Z Y
    else Ok Y.
Proof. reflexivity. Qed.

Lemma l1_total mval v :
  In mval [-1; 0; 1]%Z ->
  (exists y, _spherical_harmonics_l1 v mval = Ok y) /\
  (exists y, _nabla_spherical_harmonics_l1 v mval = Ok y) /\
  (exists y, _lap_spherical_harmonics_l1 v mval = Ok y).
Proof.
  intros [<-|[<-|[<-|[]]]]; repeat split; eexists; reflexivity.
Qed.

Lemma l2_total mval v :
  In mval [-2; -1; 0; 1; 2]%Z ->
  (exists y, _spherical_harmonics_l2 v mval = Ok y) /\
  (exists y, _nabla_spherical_harmonics_l2 v mval = Ok y) /\
  (exists y, _lap_spherical_harmonics_l2 v mval = Ok y).
Proof.
  intros [<-|[<-|[<-|[<-|[<-|[]]]]]]; repeat split; eexists; reflexivity.
Qed.

(** On rows of matching length the engine does not raise. *)
Lemma row_total :
  exists Y, get_spherical_harmonics_row lval m d xyz = Ok Y /\
            length Y = length xyz.
Proof.
  rewrite row_unfold. cbv zeta.
  assert (Hz : length (map (fun _ : vec3 => 0) xyz) = length xyz) by apply length_map.
  assert (Hm0 : length (mask_l lval 0) = length xyz)
    by (unfold mask_l; rewrite length_map; lia).
  assert (Hpass : forall dd (f : vec3 -> result R) Y,
            (forall v, exists y, f v = Ok y) -> length Y = length xyz ->
            exists Y', when_deriv d dd (mask_l lval 0) f xyz Y = Ok Y' /\
                       length Y' = length xyz).
  { intros dd f Y Hf HY. unfold when_deriv. destruct (d =? dd)%Z; [|exists Y; auto].
    destruct (assign_where_total _ f xyz Y Hm0 HY Hf) as [Y' HY'].
    exists Y'. split; [exact HY'|]. apply assign_where_length in HY'. lia. }
  destruct (Hpass 0%Z (fun v => Ok (_spherical_harmonics_l0 v)) _
              ltac:(intros; eexists; reflexivity) Hz) as (Y1 & H1 & L1).
  rewrite H1. simpl rbind.
  destruct (Hpass 1%Z (fun v => Ok (_nabla_spherical_harmonics_l0 v)) Y1
              ltac:(intros; eexists; reflexivity) L1) as (Y2 & H2 & L2).
  rewrite H2. simpl rbind.
  assert (H3 : exists Y3,
    (if any (mask_l lval 1)
     then block 1 (fun mval v => _spherical_harmonics_l1 v mval)
                  (fun mval v => _nabla_spherical_harmonics_l1 v mval)
                  (fun mval v => _lap_spherical_harmonics_l1 v mval)
                  [-1; 0; 1]%Z Y2
     else Ok Y2) = Ok Y3 /\ length Y3 = length xyz).
  { destruct (any (mask_l lval 1)); [|exists Y2; auto].
    apply block_total; [| | |exact L2]; intros mval v Hin;
      apply (l1_total mval v Hin). }
  destruct H3 as (Y3 & H3 & L3). rewrite H3. simpl rbind.
  destruct (any (mask_l lval 2)); [|exists Y3; auto].
  apply block_total; [| | |exact L3]; intros mval v Hin;
    apply (l2_total mval v Hin).
Qed.

(** For a derivative order other than 0, 1 and 2 nothing is assigned. *)
Lemma row_unserved :
  served_order d = false ->
  get_spherical_harmonics_row lval m d xyz = Ok (map (fun _ => 0) xyz).
Proof.
  intros Hd. rewrite row_unfold. cbv zeta. unfold when_deriv.
  unfold served_order in Hd.
  destruct (d =? 0)%Z eqn:E0; [discriminate|].
  destruct (d =? 1)%Z eqn:E1; [discriminate|]. simpl rbind.
  assert (Hd' : served_order d = false)
    by (unfold served_order; rewrite E0, E1; exact Hd).
  destruct (any (mask_l lval 1)); rewrite ?block_unserved by exact Hd';
    simpl rbind; destruct (any (mask_l lval 2));
    rewrite ?block_unserved by exact Hd'; reflexivity.
Qed.

(** A block leaves the entries of the primitives with another l, or with
    an m it does not loop over. *)
Lemma block_keep L F0 F1 F2 mvals Ya Yb i :
  served_order d = true ->
  (if any (mask_l lval L) then block L F0 F1 F2 mvals Ya else Ok Ya) = Ok Yb ->
  (forall mval, In mval mvals -> ~ (lval !! i = Some L /\ m !! i = Some mval)) ->
  Yb !! i = Ya !! i.
Proof.
  intros Hd H Hn. destruct (any (mask_l lval L)); [|injection H as <-; reflexivity].
  rewrite block_served in H by exact Hd.
  eapply for_mval_keep; [exact H | exact Hn].
Qed.

(** A block sets the entry of a primitive with its l and one of its m. *)
Lemma block_set L F0 F1 F2 mvals Ya Yb i mi v :
  served_order d = true ->
  (if any (mask_l lval L) then block L F0 F1 F2 mvals Ya else Ok Ya) = Ok Yb ->
  NoDup mvals -> In mi mvals ->
  lval !! i = Some L -> m !! i = Some mi -> xyz !! i = Some v ->
  exists y, pick d (F0 mi v) (F1 mi v) (F2 mi v) = Ok y /\ Yb !! i = Some y.
Proof.
  intros Hd H Hnd Hin Hl Hm Hv.
  assert (Ha : any (mask_l lval L) = true).
  { destruct (any (mask_l lval L)) eqn:E; [reflexivity|].
    exfalso. eapply any_false_lookup; [exact E|]. apply mask_l_true. exact Hl. }
  rewrite Ha, block_served in H by exact Hd.
  eapply for_mval_set in H as (v' & y & Hv' & Hy & HY); try eassumption.
  rewrite Hv in Hv'. injection Hv' as <-.
  exists y. split; [|exact HY]. rewrite <- Hy, !pick_app. reflexivity.
Qed.

Lemma NoDup_l1 : NoDup [-1; 0; 1]%Z.
Proof. repeat constructor; rewrite ?list_elem_of_In; simpl; intuition lia. Qed.

Lemma NoDup_l2 : NoDup [-2; -1; 0; 1; 2]%Z.
Proof. repeat constructor; rewrite ?list_elem_of_In; simpl; intuition lia. Qed.

Lemma in_l1 mi : In mi [-1; 0; 1]%Z <-> (-1 <= mi <= 1)%Z.
Proof. simpl. lia. Qed.

Lemma in_l2 mi : In mi [-2; -1; 0; 1; 2]%Z <-> (-2 <= mi <= 2)%Z.
Proof. simpl. lia. Qed.

(** The entry that the engine computes for one primitive. *)
Lemma row_entry Y i l mi v :
  served_order d = true ->
  get_spherical_harmonics_row lval m d xyz = Ok Y ->
  lval !! i = Some l -> m !! i = Some mi -> xyz !! i = Some v ->
  Y !! i = Some (sph_entry d l mi v).
Proof.
  intros Hd H Hl Hm Hv. rewrite row_unfold in H. cbv zeta in H.
  apply rbind_Ok in H as (Y1 & H0 & H).
  apply rbind_Ok in H as (Y2 & H0' & H).
  apply rbind_Ok in H as (Y3 & H1 & H).
  (* the two assignments for l = 0 *)
  assert (E0 : Y2 !! i = Some (if (l =? 0)%Z
                               then pick d (_spherical_harmonics_l0 v)
                                           (_nabla_spherical_harmonics_l0 v) 0
                               else 0)).
  { assert (Hz : map (fun _ : vec3 => 0) xyz !! i = Some 0)
      by (rewrite list_lookup_fmap, Hv; reflexivity).
    unfold when_deriv in H0, H0'.
    destruct (Z.eqb_spec l 0) as [->|Hl0].
    - pose proof (proj2 (mask_l_true lval 0 i) Hl) as Hmask. unfold pick.
      destruct (d =? 0)%Z eqn:D0.
      + apply (assign_where_lookup _ _ _ _ _ i) in H0. rewrite Hmask in H0.
        destruct H0 as (v' & y & Hv' & Hy & HY).
        rewrite Hv in Hv'. injection Hv' as <-. injection Hy as <-.
        destruct (d =? 1)%Z eqn:D1; [lia|]. injection H0' as <-. exact HY.
      + injection H0 as <-.
        destruct (d =? 1)%Z; [|injection H0' as <-; exact Hz].
        apply (assign_where_lookup _ _ _ _ _ i) in H0'. rewrite Hmask in H0'.
        destruct H0' as (v' & y & Hv' & Hy & HY'). injection Hy as <-. exact HY'.
    - assert (Hk : mask_l lval 0 !! i <> Some true)
        by (eapply mask_l_false_any; eassumption).
      assert (E1 : Y1 !! i = Some 0).
      { destruct (d =? 0)%Z; [|injection H0 as <-; exact Hz].
        apply (assign_where_lookup _ _ _ _ _ i) in H0.
        destruct (mask_l lval 0 !! i) as [[]|]; [congruence | congruence | congruence]. }
      destruct (d =? 1)%Z; [|injection H0' as <-; exact E1].
      apply (assign_where_lookup _ _ _ _ _ i) in H0'.
      destruct (mask_l lval 0 !! i) as [[]|]; [congruence | congruence | congruence]. }
  clear H0 H0'. unfold sph_entry. rewrite Hd. simpl negb. cbv iota.
  destruct (Z.eqb_spec l 0) as [->|Hl0].
  { rewrite <- E0.
    rewrite (block_keep _ _ _ _ _ _ _ i Hd H)
      by (intros mval _ [Hl' _]; congruence).
    apply (block_keep _ _ _ _ _ _ _ i Hd H1).
    intros mval _ [Hl' _]. congruence. }
  destruct (Z.eqb_spec l 1) as [->|Hl1].
  { simpl andb.
    rewrite (block_keep _ _ _ _ _ _ _ i Hd H)
      by (intros mval _ [Hl' _]; congruence).
    destruct ((-1 <=? mi)%Z && (mi <=? 1)%Z) eqn:Hr.
    - destruct (block_set _ _ _ _ _ _ _ i mi v Hd H1 NoDup_l1) as (y & Hy & HY);
        [apply in_l1; lia | exact Hl | exact Hm | exact Hv |].
      rewrite HY, Hy. reflexivity.
    - rewrite <- E0. apply (block_keep _ _ _ _ _ _ _ i Hd H1).
      intros mval Hin [_ Hm']. apply in_l1 in Hin.
      assert (mi = mval) by congruence. lia. }
  destruct (Z.eqb_spec l 2) as [->|Hl2].
  { simpl andb.
    destruct ((-2 <=? mi)%Z && (mi <=? 2)%Z) eqn:Hr.
    - destruct (block_set _ _ _ _ _ _ _ i mi v Hd H NoDup_l2) as (y & Hy & HY);
        [apply in_l2; lia | exact Hl | exact Hm | exact Hv |].
      rewrite HY, Hy. reflexivity.
    - rewrite <- E0.
      rewrite (block_keep _ _ _ _ _ _ _ i Hd H).
      + apply (block_keep _ _ _ _ _ _ _ i Hd H1).
        intros mval _ [Hl' _]. congruence.
      + intros mval Hin [_ Hm']. apply in_l2 in Hin.
        assert (mi = mval) by congruence. lia. }
  transitivity (Y2 !! i); [|rewrite E0; reflexivity].
  rewrite (block_keep _ _ _ _ _ _ _ i Hd H)
    by (intros mval _ [Hl' _]; congruence).
  apply (block_keep _ _ _ _ _ _ _ i Hd H1).
  intros mval _ [Hl' _]. congruence.
Qed.

(** The row of harmonics, entry by entry. *)
Lemma row_spec :
  get_spherical_harmonics_row lval m d xyz
  = Ok (zip_with (fun lm v => sph_entry d (fst lm) (snd lm) v) (zip lval m) xyz).
Proof.
  destruct row_total as (Y & HY & Hlen). rewrite HY. f_equal.
  apply list_eq. intros i. rewrite lookup_zip_with, lookup_zip_with.
  destruct (xyz !! i) as [v|] eqn:Hv.
  - pose proof (lookup_lt_Some _ _ _ Hv) as Hi.
    destruct (lookup_lt_is_Some_2 lval i) as [l Hl]; [lia|].
    destruct (lookup_lt_is_Some_2 m i) as [mi Hm]; [lia|].
    rewrite Hl, Hm. simpl.
    destruct (served_order d) eqn:Hd.
    + eapply row_entry; eassumption.
    + rewrite row_unserved in HY by exact Hd. injection HY as <-.
      rewrite list_lookup_fmap, Hv. simpl. unfold sph_entry. rewrite Hd.
      reflexivity.
  - apply lookup_ge_None in Hv.
    rewrite (proj2 (lookup_ge_None Y i)) by lia.
    destruct (lval !! i); [|reflexivity]. simpl.
    destruct (m !! i); reflexivity.
Qed.

End Row.

Lemma rmapM_Forall {A B : Type} (f : A -> result B) (g : A -> B) l :
  Forall (fun x => f x = Ok (g x)) l -> rmapM f l = Ok (map g l).
Proof.
  induction 1 as [|x l Hx Hl IH]; [reflexivity|].
  simpl. rewrite Hx. simpl. rewrite IH. reflexivity.
Qed.

Lemma sph_entry_unsupported d l mi v :
  ~ supported_lm l mi -> sph_entry d l mi v = 0.
Proof.
  unfold supported_lm, sph_entry. intros Hn.
  destruct (negb (served_order d)); [reflexivity|].
  destruct (Z.eqb_spec l 0) as [->|]; [exfalso; apply Hn; lia|].
  destruct (Z.eqb_spec l 1) as [->|].
  { simpl andb.
    destruct ((-1 <=? mi)%Z && (mi <=? 1)%Z) eqn:E; [exfalso; apply Hn; lia|].
    reflexivity. }
  destruct (Z.eqb_spec l 2) as [->|]; [|reflexivity].
  simpl andb.
  destruct ((-2 <=? mi)%Z && (mi <=? 2)%Z) eqn:E; [exfalso; apply Hn; lia|].
  reflexivity.
Qed.

(** X8: [get_spherical_harmonics] on a tensor of displacements with one
    column per primitive never raises, and every entry is the formula of
    the quantum numbers of its primitive at its displacement. *)
Theorem spherical_engine_entries xyz lval m d :
  length lval = length m ->
  Forall (Forall (fun row => length row = length lval)) xyz ->
  get_spherical_harmonics xyz lval m d
  = Ok (map (map (fun row =>
                    zip_with (fun lm v => sph_entry d (fst lm) (snd lm) v)
                             (zip lval m) row)) xyz).
Proof.
  intros Hlm Hx. unfold get_spherical_harmonics.
  apply rmapM_Forall. eapply Forall_impl; [exact Hx|]. intros e He. simpl.
  apply rmapM_Forall. eapply Forall_impl; [exact He|]. intros row Hrow. simpl.
  apply row_spec; assumption.
Qed.

Lemma spherical_engine_entries_witness :
  get_spherical_harmonics [[[V3 1 0 0; V3 0 2 0]]] [0; 1]%Z [0; -1]%Z 0
  = Ok [[[sph_entry 0 0 0 (V3 1 0 0); sph_entry 0 1 (-1) (V3 0 2 0)]]].
Proof.
  apply (spherical_engine_entries [[[V3 1 0 0; V3 0 2 0]]] [0; 1]%Z [0; -1]%Z 0).
  - reflexivity.
  - repeat constructor.
Defined.

(** X9: a primitive whose quantum numbers the engine has no formula for
    (l outside 0..2, or l = 1 or 2 with |m| > l) gets the entry 0, for
    every derivative order; nothing is raised. *)
Theorem unsupported_quantum_numbers_give_zero xyz lval m d b e k row p l mi :
  length lval = length m ->
  Forall (Forall (fun row => length row = length lval)) xyz ->
  xyz !! b = Some e -> e !! k = Some row ->
  lval !! p = Some l -> m !! p = Some mi -> ~ supported_lm l mi ->
  exists Y Yb Ye,
    get_spherical_harmonics xyz lval m d = Ok Y /\
    Y !! b = Some Yb /\ Yb !! k = Some Ye /\ Ye !! p = Some 0.
Proof.
  intros Hlm Hx Hb Hk Hl Hm Hn.
  assert (Hrow : length row = length lval).
  { rewrite Forall_forall in Hx.
    pose proof (Hx e (list_elem_of_lookup_2 _ _ _ Hb)) as He.
    rewrite Forall_forall in He.
    exact (He row (list_elem_of_lookup_2 _ _ _ Hk)). }
  destruct (lookup_lt_is_Some_2 row p) as [v Hv].
  { apply lookup_lt_Some in Hl. lia. }
  assert (Hall : exists Y, get_spherical_harmonics xyz lval m d = Ok Y).
  { unfold get_spherical_harmonics.
    eexists. apply rmapM_Forall. eapply Forall_impl; [exact Hx|]. intros e0 He0. simpl.
    apply rmapM_Forall. eapply Forall_impl; [exact He0|]. intros row0 Hrow0. simpl.
    apply row_spec; assumption. }
  destruct Hall as [Y HY]. pose proof HY as HY'.
  unfold get_spherical_harmonics in HY'.
  eapply rmapM_lookup in HY' as (Yb & HYb & Hlb); [|exact Hb].
  eapply rmapM_lookup in HYb as (Ye & HYe & Hle); [|exact Hk].
  exists Y, Yb, Ye. repeat split; try assumption.
  rewrite row_spec in HYe by assumption. injection HYe as <-.
  rewrite lookup_zip_with, lookup_zip_with, Hl, Hm, Hv. simpl.
  rewrite sph_entry_unsupported by exact Hn. reflexivity.
Qed.

Lemma unsupported_quantum_numbers_give_zero_witness :
  exists Y Yb Ye,
    get_spherical_harmonics [[[V3 1 2 3]]] [3%Z] [0%Z] 0 = Ok Y /\
    Y !! 0%nat = Some Yb /\ Yb !! 0%nat = Some Ye /\ Ye !! 0%nat = Some 0.
Proof.
  apply (unsupported_quantum_numbers_give_zero [[[V3 1 2 3]]] [3%Z] [0%Z] 0
           0 [[V3 1 2 3]] 0 [V3 1 2 3] 0 3 0); try reflexivity.
  - repeat constructor.
  - unfold supported_lm. lia.
Defined.

End EngineFacts.

(** ** Spherical harmonics inside [forward] *)

Module SphericalForwardFacts.
Import AtomicOrbitals ResultVocabulary.
Local Open Scope R_scope.

(** An engine of type "sph" refuses every unsummed request other than
    [derivative = [1]]. *)
Lemma sph_call_unsummed_raises h xyz derivative sum_hess :
  Harmonics.type h = "sph" -> derivative <> [1%Z] ->
  is_raise (Harmonics.__call__ h xyz (DList derivative) false sum_hess).
Proof.
  intros Ht Hd. unfold Harmonics.__call__. rewrite Ht. simpl.
  destruct (Harmonics.params h); try exact I.
  unfold SphericalHarmonics.SphericalHarmonics.
  destruct sum_hess; simpl; [|exact I].
  case_bool_decide; [contradiction | exact I].
Qed.

Lemma call_harmonics_unsummed_raises self h xyz derivative sum_hess :
  harmonics self = Some h -> Harmonics.type h = "sph" -> derivative <> [1%Z] ->
  is_raise (call_harmonics self xyz derivative false sum_hess).
Proof.
  intros Hh Ht Hd. unfold call_harmonics. rewrite Hh.
  apply sph_call_unsummed_raises; assumption.
Qed.

Ltac reach_harmonics Hcall :=
  repeat first
    [ apply is_raise_bind_l; apply Hcall; discriminate
    | apply is_raise_bind; intro ].

(** X10: with spherical harmonics [forward] serves the values and the summed
    gradient only: the unsummed gradient, the Laplacian, the mixed second
    derivatives and the request [0, 1, 2] always raise, because the
    evaluation asks the harmonics for unsummed first derivatives together
    with other orders. *)
Theorem spherical_forward_raises self h pos derivative sum_grad sum_hess one_elec :
  harmonics self = Some h -> Harmonics.type h = "sph" ->
  (as_list derivative = [1%Z] /\ sum_grad = false) \/
  as_list derivative = [2%Z] \/ as_list derivative = [3%Z] \/
  as_list derivative = [0; 1; 2]%Z ->
  is_raise (fst (forward self pos derivative sum_grad sum_hess one_elec)).
Proof.
  intros Hh Ht Hd. unfold forward.
  destruct (negb sum_grad && _); [exact I|].
  destruct (negb sum_hess && _); [exact I|].
  set (self1 := if one_elec then set_nelec 1 self else self).
  assert (Hcall : forall xyz d sh, d <> [1%Z] ->
            is_raise (call_harmonics self1 xyz d false sh)).
  { intros xyz d sh Hne.
    apply (call_harmonics_unsummed_raises self1 h); [|exact Ht | exact Hne].
    subst self1. destruct one_elec; exact Hh. }
  assert (Hr : is_raise (dispatch self1 pos (as_list derivative) sum_grad sum_hess)).
  { destruct Hd as [[-> ->]|[->|[->| ->]]]; unfold dispatch; simpl.
    - apply is_raise_bind_l. unfold _compute_first_derivative_ao_values.
      apply is_raise_bind_l. unfold _compute_gradient_ao_values.
      reach_harmonics Hcall.
    - apply is_raise_bind_l. unfold _compute_second_derivative_ao_values.
      destruct sum_hess; apply is_raise_bind_l;
        [unfold _compute_sum_diag_hessian_ao_values
        |unfold _compute_diag_hessian_ao_values];
        reach_harmonics Hcall.
    - apply is_raise_bind_l. unfold _compute_mixed_second_derivative_ao_values.
      reach_harmonics Hcall.
    - apply is_raise_bind_l. unfold _compute_all_ao_values.
      reach_harmonics Hcall. }
  revert Hr.
  destruct (dispatch self1 pos (as_list derivative) sum_grad sum_hess); simpl; tauto.
Qed.

Lemma spherical_forward_raises_witness :
  is_raise (fst (forward (Examples.s_orbital 1) [[1; 0; 0]] (DInt 2) true true false)).
Proof.
  eapply (spherical_forward_raises (Examples.s_orbital 1) _ [[1; 0; 0]] (DInt 2)
            true true false); [reflexivity | reflexivity |].
  right. left. reflexivity.
Defined.

(** X11: when the evaluation of a one-electron call raises, the electron
    count of the object is left at 1: the saved count is put back only on
    a normal return. *)
Theorem one_elec_exception_leaves_one_electron self pos derivative sum_grad
    sum_hess e self' :
  forward self pos derivative sum_grad sum_hess true = (Raise e, self') ->
  (sum_grad = true \/ 1%Z ∈ as_list derivative) ->
  (sum_hess = true \/ 2%Z ∈ as_list derivative) ->
  self' = set_nelec 1 self /\ nelec self' = 1%nat.
Proof.
  unfold forward. intros H Hg Hh.
  assert (E1 : negb sum_grad && negb (bool_decide (1%Z ∈ as_list derivative)) = false).
  { destruct Hg as [->|Hin]; [reflexivity|].
    rewrite (bool_decide_eq_true_2 _ Hin). apply andb_false_r. }
  assert (E2 : negb sum_hess && negb (bool_decide (2%Z ∈ as_list derivative)) = false).
  { destruct Hh as [->|Hin]; [reflexivity|].
    rewrite (bool_decide_eq_true_2 _ Hin). apply andb_false_r. }
  rewrite E1, E2 in H.
  destruct (dispatch (set_nelec 1 self) pos (as_list derivative) sum_grad sum_hess);
    [discriminate|].
  injection H as _ <-. auto.
Qed.

Lemma one_elec_exception_leaves_one_electron_witness :
  nelec (snd (forward (Examples.s_orbital 2) [[1; 0; 0]] (DList [7%Z])
                      true true true)) = 1%nat.
Proof.
  eapply (one_elec_exception_leaves_one_electron (Examples.s_orbital 2)
            [[1; 0; 0]] (DList [7%Z]) true true ValueError).
  - reflexivity.
  - left; reflexivity.
  - left; reflexivity.
Defined.

End SphericalForwardFacts.

(** ** The shape of the positions *)

Module FlattenFacts.
Import AtomicOrbitals ResultVocabulary.
Local Open Scope R_scope.

Lemma view_pos_flat self pos pos' :
  concat pos = concat pos' -> view_pos self pos = view_pos self pos'.
Proof. intros H. unfold view_pos. rewrite H. reflexivity. Qed.

Lemma process_position_flat self pos pos' :
  concat pos = concat pos' ->
  _process_position self pos = _process_position self pos'.
Proof.
  intros H. unfold _process_position, _elec_atom_dist.
  rewrite (view_pos_flat self pos pos' H). reflexivity.
Qed.

Lemma dispatch_flat self pos pos' derivative sum_grad sum_hess :
  concat pos = concat pos' ->
  dispatch self pos derivative sum_grad sum_hess
  = dispatch self pos' derivative sum_grad sum_hess.
Proof.
  intros H. unfold dispatch, _compute_ao_values,
    _compute_first_derivative_ao_values, _compute_sum_gradient_ao_values,
    _compute_gradient_ao_values, _compute_second_derivative_ao_values,
    _compute_sum_diag_hessian_ao_values, _compute_diag_hessian_ao_values,
    _compute_mixed_second_derivative_ao_values, _compute_all_ao_values.
  rewrite !(process_position_flat self pos pos' H). reflexivity.
Qed.

(** X12: [forward] reads the positions through [pos.view(-1, nelec, 1, 3)]
    only: two batches with the same flattened coordinates give the same
    outcome, for every derivative request.  The width of the rows is not
    checked. *)
Theorem forward_sees_flattened_positions self pos pos' derivative sum_grad
    sum_hess one_elec :
  concat pos = concat pos' ->
  forward self pos derivative sum_grad sum_hess one_elec
  = forward self pos' derivative sum_grad sum_hess one_elec.
Proof.
  intros H. unfold forward.
  rewrite (dispatch_flat _ pos pos' _ _ _ H). reflexivity.
Qed.

Lemma forward_sees_flattened_positions_witness :
  forward (Examples.s_orbital 2) [[1; 0; 0]; [0; 2; 0]] (DList [0%Z]) true true false
  = forward (Examples.s_orbital 2) [[1; 0; 0; 0; 2; 0]] (DList [0%Z]) true true false.
Proof.
  apply (forward_sees_flattened_positions (Examples.s_orbital 2)
           [[1; 0; 0]; [0; 2; 0]] [[1; 0; 0; 0; 2; 0]]).
  reflexivity.
Defined.

End FlattenFacts.

(** ** Translation of the molecule and the electrons *)

Module TranslationFacts.
Import AtomicOrbitals ResultVocabulary TranslationVocabulary ListFacts.
Local Open Scope R_scope.

Lemma translate_row_length w row : length (translate_row w row) = length row.
Proof.
  revert row. fix IH 1. intros [|x [|y [|z row]]]; try reflexivity.
  simpl. rewrite IH. reflexivity.
Qed.

Lemma triples_translate_row w row :
  triples (translate_row w row) = map (fun e => vadd e w) (triples row).
Proof.
  revert row. fix IH 1. intros [|x [|y [|z row]]]; try reflexivity.
  simpl. rewrite IH. reflexivity.
Qed.

Lemma translate_row_app w k l l' :
  length l = (3 * k)%nat ->
  translate_row w (l ++ l') = translate_row w l ++ translate_row w l'.
Proof.
  revert l. induction k as [|k IH]; intros l Hl.
  - destruct l; [reflexivity | simpl in Hl; lia].
  - destruct l as [|x [|y [|z l]]]; simpl in Hl; try lia.
    simpl. rewrite IH by lia. reflexivity.
Qed.

Lemma translate_row_concat w n pos :
  Forall (fun row => length row = (3 * n)%nat) pos ->
  concat (map (translate_row w) pos) = translate_row w (concat pos).
Proof.
  induction 1 as [|row pos Hrow Hpos IH]; [reflexivity|].
  simpl. rewrite (translate_row_app w n) by exact Hrow. rewrite IH. reflexivity.
Qed.

Lemma reshape_map {A B : Type} (f : A -> B) rows cols l :
  reshape rows cols (map f l) = map (map f) (reshape rows cols l).
Proof.
  revert l. induction rows as [|rows IH]; intros l; [reflexivity|].
  simpl. rewrite <- fmap_take, <- fmap_drop, IH. reflexivity.
Qed.

Lemma vsub_translate e a w : vsub (vadd e w) (vadd a w) = vsub e a.
Proof. destruct e, a, w. unfold vsub, vadd. simpl. f_equal; ring. Qed.

(** Moving the electrons and the atoms by the same vector leaves every
    displacement, and so every distance, as it was. *)
Lemma process_position_translate w n self pos :
  Forall (fun row => length row = (3 * n)%nat) pos ->
  _process_position (translate_atoms w self) (map (translate_row w) pos)
  = _process_position self pos.
Proof.
  intros Hpos. unfold _process_position, _elec_atom_dist.
  assert (Hv : view_pos (translate_atoms w self) (map (translate_row w) pos)
               = let* p := view_pos self pos in
                 Ok (map (map (fun e => vadd e w)) p)).
  { unfold view_pos. rewrite (translate_row_concat w n pos Hpos).
    rewrite translate_row_length, triples_translate_row.
    change (ndim (translate_atoms w self)) with (ndim self).
    change (nelec (translate_atoms w self)) with (nelec self).
    destruct (negb (ndim self =? 3)%nat); [reflexivity|].
    destruct (_ || _); [reflexivity|]. simpl. rewrite reshape_map. reflexivity. }
  rewrite Hv. destruct (view_pos self pos) as [p|e]; [|reflexivity]. simpl.
  change (atom_coords (translate_atoms w self))
    with (map (fun a => vadd a w) (atom_coords self)).
  change (nshells (translate_atoms w self)) with (nshells self).
  assert (Hx : map (map (fun e => map (fun a => vsub e a)
                             (map (fun a => vadd a w) (atom_coords self))))
                   (map (map (fun e => vadd e w)) p)
               = map (map (fun e => map (fun a => vsub e a) (atom_coords self))) p).
  { rewrite map_map. apply map_ext. intros row. rewrite map_map.
    apply map_ext. intros e. rewrite map_map. apply map_ext. intros a.
    apply vsub_translate. }
  rewrite Hx. reflexivity.
Qed.

Lemma dispatch_translate w n self pos derivative sum_grad sum_hess :
  Forall (fun row => length row = (3 * n)%nat) pos ->
  dispatch (translate_atoms w self) (map (translate_row w) pos) derivative
           sum_grad sum_hess
  = dispatch self pos derivative sum_grad sum_hess.
Proof.
  intros H. unfold dispatch, _compute_ao_values,
    _compute_first_derivative_ao_values, _compute_sum_gradient_ao_values,
    _compute_gradient_ao_values, _compute_second_derivative_ao_values,
    _compute_sum_diag_hessian_ao_values, _compute_diag_hessian_ao_values,
    _compute_mixed_second_derivative_ao_values, _compute_all_ao_values.
  rewrite !(process_position_translate w n self pos H). reflexivity.
Qed.

(** X13: the orbitals depend on the positions of the electrons relative to
    the atoms only: moving every electron and every atom by the same
    vector changes nothing in what [forward] returns, for every derivative
    request. *)
Theorem forward_translation_invariant w n self pos derivative sum_grad
    sum_hess one_elec :
  Forall (fun row => length row = (3 * n)%nat) pos ->
  fst (forward (translate_atoms w self) (map (translate_row w) pos) derivative
               sum_grad sum_hess one_elec)
  = fst (forward self pos derivative sum_grad sum_hess one_elec).
Proof.
  intros H. unfold forward.
  destruct (negb sum_grad && _); [reflexivity|].
  destruct (negb sum_hess && _); [reflexivity|].
  destruct one_elec.
  - change (set_nelec 1 (translate_atoms w self))
      with (translate_atoms w (set_nelec 1 self)).
    rewrite (dispatch_translate w n _ pos _ _ _ H).
    destruct (dispatch _ pos _ _ _); reflexivity.
  - rewrite (dispatch_translate w n _ pos _ _ _ H).
    destruct (dispatch _ pos _ _ _); reflexivity.
Qed.

Lemma forward_translation_invariant_witness :
  fst (forward (translate_atoms (V3 1 1 1) (Examples.s_orbital 1))
               (map (translate_row (V3 1 1 1)) [[1; 0; 0]]) (DList [1%Z])
               true true false)
  = fst (forward (Examples.s_orbital 1) [[1; 0; 0]] (DList [1%Z]) true true false).
Proof.
  apply (forward_translation_invariant (V3 1 1 1) 1 (Examples.s_orbital 1)
           [[1; 0; 0]]).
  repeat constructor.
Defined.

End TranslationFacts.

(** ** Batches and electrons are independent *)

Module LocalityFacts.
Import AtomicOrbitals ResultVocabulary RowVocabulary.
Import ListFacts PipelineFacts ValueFacts WidthFacts UpdateFacts EquivalenceFacts.
Local Open Scope R_scope.

(** A successful view fixes the spatial dimension and needs at least one
    electron. *)
Lemma view_pos_Ok self pos p :
  view_pos self pos = Ok p -> ndim self = 3%nat /\ (0 < nelec self)%nat.
Proof.
  unfold view_pos. destruct (Nat.eqb_spec (ndim self) 3) as [E|E]; [|discriminate].
  simpl. destruct (Nat.eqb_spec (nelec self * ndim self) 0) as [E0|E0];
    [discriminate|].
  intros _. split; [exact E|]. destruct (nelec self); [simpl in E0|]; lia.
Qed.

(** What a successful evaluation of the values says about the object and
    about the tensor returned. *)
Lemma forward_value_inv self pos A :
  Forall (fun row => length row = (3 * nelec self)%nat) pos ->
  fst (forward self pos (DList [0%Z]) true true false) = Ok (One (T3 A)) ->
  ndim self = 3%nat /\ (0 < nelec self)%nat /\ harm_ok self /\
  Forall (Forall (row_ok self)) (map triples pos) /\
  A = map (map (ao_row self)) (map triples pos).
Proof.
  intros Hpos Hf. rewrite forward_value in Hf.
  destruct (_compute_ao_values self pos) as [a|] eqn:E; [|discriminate].
  simpl in Hf. injection Hf as ->.
  apply compute_ao_values_iff in E as (p & Hp & Hh & Hok & _ & ->).
  destruct (view_pos_Ok _ _ _ Hp) as [Hd Hn].
  rewrite view_pos_rows in Hp by assumption. injection Hp as <-. auto.
Qed.

Lemma forward_value_intro self pos :
  ndim self = 3%nat -> (0 < nelec self)%nat ->
  Forall (fun row => length row = (3 * nelec self)%nat) pos ->
  harm_ok self -> Forall (Forall (row_ok self)) (map triples pos) ->
  fst (forward self pos (DList [0%Z]) true true false)
  = Ok (One (T3 (map (map (ao_row self)) (map triples pos)))).
Proof.
  intros Hd Hn Hpos Hh Hok. rewrite forward_value.
  assert (E : _compute_ao_values self pos
              = Ok (map (map (ao_row self)) (map triples pos))).
  { apply compute_ao_values_iff. exists (map triples pos).
    split; [apply view_pos_rows; assumption|].
    split; [exact Hh|]. split; [exact Hok|]. split; [|reflexivity].
    intros _. apply Forall_fmap. eapply Forall_impl; [exact Hpos|].
    intros row Hrow. simpl. apply triples_length. exact Hrow. }
  rewrite E. reflexivity.
Qed.

(** X14: the configurations of a batch are evaluated independently: the
    values of two batches put one after the other are the values of the
    first followed by the values of the second. *)
Theorem forward_value_of_appended_batches self pos1 pos2 A1 A2 :
  Forall (fun row => length row = (3 * nelec self)%nat) pos1 ->
  Forall (fun row => length row = (3 * nelec self)%nat) pos2 ->
  fst (forward self pos1 (DList [0%Z]) true true false) = Ok (One (T3 A1)) ->
  fst (forward self pos2 (DList [0%Z]) true true false) = Ok (One (T3 A2)) ->
  fst (forward self (pos1 ++ pos2) (DList [0%Z]) true true false)
  = Ok (One (T3 (A1 ++ A2))).
Proof.
  intros H1 H2 F1 F2.
  destruct (forward_value_inv _ _ _ H1 F1) as (Hd & Hn & Hh & Hok1 & ->).
  destruct (forward_value_inv _ _ _ H2 F2) as (_ & _ & _ & Hok2 & ->).
  rewrite forward_value_intro; try assumption.
  - rewrite !map_app. reflexivity.
  - apply Forall_app. auto.
  - rewrite map_app. apply Forall_app. auto.
Qed.

Lemma forward_value_of_appended_batches_witness :
  exists A1 A2,
    fst (forward (Examples.s_orbital 1) [[1; 0; 0]] (DList [0%Z]) true true false)
    = Ok (One (T3 A1)) /\
    fst (forward (Examples.s_orbital 1) [[0; 2; 0]] (DList [0%Z]) true true false)
    = Ok (One (T3 A2)) /\
    fst (forward (Examples.s_orbital 1) ([[1; 0; 0]] ++ [[0; 2; 0]]) (DList [0%Z])
                 true true false)
    = Ok (One (T3 (A1 ++ A2))).
Proof.
  eassert (F1 : fst (forward (Examples.s_orbital 1) [[1; 0; 0]] (DList [0%Z])
                             true true false) = Ok (One (T3 _))) by reflexivity.
  eassert (F2 : fst (forward (Examples.s_orbital 1) [[0; 2; 0]] (DList [0%Z])
                             true true false) = Ok (One (T3 _))) by reflexivity.
  eexists _, _. split; [exact F1|]. split; [exact F2|].
  apply (forward_value_of_appended_batches (Examples.s_orbital 1)
           [[1; 0; 0]] [[0; 2; 0]] _ _); try assumption; repeat constructor.
Defined.

(** X15: the tensor of values has one matrix per configuration and one row
    per electron; with contraction every row has [norb] entries. *)
Theorem forward_value_shape self pos A :
  Forall (fun row => length row = (3 * nelec self)%nat) pos ->
  fst (forward self pos (DList [0%Z]) true true false) = Ok (One (T3 A)) ->
  length A = length pos /\
  Forall (fun M => length M = nelec self) A /\
  (contract self = true ->
   Forall (Forall (fun row => length row = norb self)) A).
Proof.
  intros Hpos F.
  destruct (forward_value_inv _ _ _ Hpos F) as (Hd & Hn & Hh & Hok & ->).
  split; [rewrite !length_map; reflexivity|]. split.
  - apply Forall_fmap, Forall_fmap. eapply Forall_impl; [exact Hpos|].
    intros row Hrow. simpl. rewrite length_map. apply triples_length. exact Hrow.
  - intros Hc. apply Forall_fmap. eapply Forall_impl; [exact Hok|].
    intros es Hes. simpl. apply Forall_fmap. eapply Forall_impl; [exact Hes|].
    intros e (_ & _ & _ & Hctr). simpl. unfold ao_row. rewrite Hc.
    destruct (Hctr Hc) as [k Hk]. rewrite Hk. simpl.
    apply index_add_length in Hk. rewrite Hk. apply length_replicate.
Qed.

Lemma forward_value_shape_witness :
  exists A,
    fst (forward (Examples.contracted_orbital 2) [[1; 0; 0; 0; 2; 0]]
                 (DList [0%Z]) true true false) = Ok (One (T3 A)) /\
    length A = 1%nat /\ Forall (fun M => length M = 2%nat) A.
Proof.
  eassert (F : fst (forward (Examples.contracted_orbital 2) [[1; 0; 0; 0; 2; 0]]
                            (DList [0%Z]) true true false) = Ok (One (T3 _)))
    by reflexivity.
  eexists. split; [exact F|].
  destruct (forward_value_shape (Examples.contracted_orbital 2)
              [[1; 0; 0; 0; 2; 0]] _ ltac:(repeat constructor) F) as (H1 & H2 & _).
  split; [exact H1 | exact H2].
Defined.

(** X16: evaluating one electron alone ([one_elec=True] on its three
    columns) gives, for every configuration, the row of that electron in
    the evaluation of all electrons. *)
Theorem one_electron_forward_is_row_of_forward self pos idelec A :
  Forall (fun row => length row = (3 * nelec self)%nat) pos ->
  (idelec < nelec self)%nat ->
  fst (forward self pos (DList [0%Z]) true true false) = Ok (One (T3 A)) ->
  fst (forward self (slice_cols (idelec * 3) ((idelec + 1) * 3) pos)
               (DList [0%Z]) true true true)
  = Ok (One (T3 (map (fun M => take 1 (drop idelec M)) A))).
Proof.
  intros Hpos Hi F.
  destruct (forward_value_inv _ _ _ Hpos F) as (Hd & Hn & Hh & Hok & ->).
  rewrite forward_value.
  rewrite (one_electron_value self idelec Hd Hi pos Hpos Hh Hok). simpl.
  do 3 f_equal. rewrite !map_map. apply map_ext. intros row.
  rewrite <- fmap_drop, <- fmap_take. reflexivity.
Qed.

Lemma one_electron_forward_is_row_of_forward_witness :
  exists A,
    fst (forward (Examples.s_orbital 2) [[1; 0; 0; 0; 2; 0]] (DList [0%Z])
                 true true false) = Ok (One (T3 A)) /\
    fst (forward (Examples.s_orbital 2)
                 (slice_cols (1 * 3) ((1 + 1) * 3) [[1; 0; 0; 0; 2; 0]])
                 (DList [0%Z]) true true true)
    = Ok (One (T3 (map (fun M => take 1 (drop 1 M)) A))).
Proof.
  eassert (F : fst (forward (Examples.s_orbital 2) [[1; 0; 0; 0; 2; 0]]
                            (DList [0%Z]) true true false) = Ok (One (T3 _)))
    by reflexivity.
  eexists. split; [exact F|].
  apply (one_electron_forward_is_row_of_forward (Examples.s_orbital 2)
           [[1; 0; 0; 0; 2; 0]] 1 _ ltac:(repeat constructor)
           ltac:(simpl; lia) F).
Defined.

End LocalityFacts.

(** ** Per-dimension kernels against summed kernels *)

Module KernelFacts.
Import AtomicOrbitals ResultVocabulary.
Import ListFacts WidthFacts.
Local Open Scope R_scope.

Lemma vsum_vadd a b : vsum (vadd a b) = vsum a + vsum b.
Proof. destruct a, b. unfold vsum, vadd. simpl. ring. Qed.

(** The scatter-add of vectors, summed over the spatial axis, is the
    scatter-add of the sums. *)
Lemma index_add_go_vsum out index src out' :
  index_add_go vadd out index src = Ok out' ->
  index_add_go Rplus (map vsum out) index (map vsum src) = Ok (map vsum out').
Proof.
  revert out src. induction index as [|i index IH]; intros out src H.
  - simpl in *. injection H as <-. reflexivity.
  - destruct src as [|s src]; [simpl in *; injection H as <-; reflexivity|].
    simpl in *. rewrite list_lookup_fmap.
    destruct (out !! i) as [o|]; [|discriminate]. simpl.
    apply IH in H. rewrite list_fmap_insert, vsum_vadd in H. exact H.
Qed.

Lemma index_add_vsum out index src out' :
  index_add_ vadd out index src = Ok out' ->
  index_add_ Rplus (map vsum out) index (map vsum src) = Ok (map vsum out').
Proof.
  unfold index_add_. rewrite length_map.
  destruct (_ =? _)%nat; [|discriminate]. apply index_add_go_vsum.
Qed.

Lemma scatter_ctr_vsum self (bas G : tensor4) :
  scatter_ctr vadd zero3 self bas = Ok G ->
  scatter_ctr Rplus 0 self (map (map (map vsum)) bas)
  = Ok (map (map (map vsum)) G).
Proof.
  unfold scatter_ctr. revert G. induction bas as [|m bas IH]; intros G H.
  - simpl in *. injection H as <-. reflexivity.
  - simpl in H. apply rbind_Ok in H as (y & Hy & H).
    apply rbind_Ok in H as (ys & Hys & H). injection H as <-.
    simpl. rewrite length_map.
    destruct (length m =? nelec self)%nat; [|discriminate].
    assert (Hrow : rmapM (index_add_ Rplus (replicate (norb self) 0) (index_ctr self))
                         (map (map vsum) m) = Ok (map (map vsum) y)).
    { clear -Hy. revert y Hy. induction m as [|row m IHm]; intros y Hy.
      - simpl in *. injection Hy as <-. reflexivity.
      - simpl in Hy. apply rbind_Ok in Hy as (r & Hr & Hy).
        apply rbind_Ok in Hy as (rs & Hrs & Hy). injection Hy as <-.
        simpl. apply index_add_vsum in Hr.
        rewrite fmap_replicate in Hr.
        replace (vsum zero3) with 0 in Hr by (unfold vsum, zero3; simpl; ring).
        rewrite Hr. simpl. rewrite (IHm _ Hrs). reflexivity. }
    rewrite Hrow. simpl. rewrite (IH _ Hys). reflexivity.
Qed.

Ltac by_entries :=
  apply list_eq; intros ?;
  unfold scale_last, map2_3;
  repeat first
    [ rewrite list_lookup_fmap
    | rewrite lookup_zip_with
    | match goal with
      | |- context [?l !! ?i] =>
          match l with
          | zip_with _ _ _ => fail 1
          | map _ _ => fail 1
          | fmap _ _ => fail 1
          | _ => destruct (l !! i) eqn:?; simpl
          end
      end ];
  try reflexivity; f_equal.

(** The unsummed products, summed over the spatial axis, are the summed
    products times the contraction coefficients. *)
Lemma vsum_unsummed_bas (norm coeffs : list R) (R : tensor3) (dR : tensor4)
    (Y : tensor3) (dY : tensor4) :
  map (map (map vsum))
      (scale_last vscale (zip_with Rmult norm coeffs)
         (map2_3 vadd (map2_3 vmulr dR Y) (map2_3 vscale R dY)))
  = scale_last Rmult coeffs
      (scale_last Rmult norm
         (map2_3 Rplus (map2_3 Rmult (map (map (map vsum)) dR) Y)
                       (map2_3 Rmult R (map (map (map vsum)) dY)))).
Proof.
  by_entries. by_entries. by_entries.
  match goal with
  | |- vsum (vscale _ (vadd (vmulr ?a _) (vscale _ ?b))) = _ =>
      destruct a, b; unfold vsum, vscale, vadd, vmulr; simpl; ring
  end.
Qed.

Lemma vsum_unsummed_hessian_bas (norm coeffs : list R) (R : tensor3)
    (dR d2R : tensor4) (Y : tensor3) (dY d2Y : tensor4) :
  map (map (map vsum))
      (scale_last vscale (zip_with Rmult norm coeffs)
         (map2_3 vadd
            (map2_3 vadd (map2_3 vmulr d2R Y)
                         (map (map (map (vscale 2.0))) (map2_3 vmul dR dY)))
            (map2_3 vscale R d2Y)))
  = scale_last Rmult coeffs
      (scale_last Rmult norm
         (map2_3 Rplus
            (map2_3 Rplus (map2_3 Rmult (map (map (map vsum)) d2R) Y)
                          (map (map (map (fun v => 2.0 * vsum v)))
                               (map2_3 vmul dR dY)))
            (map2_3 Rmult R (map (map (map vsum)) d2Y)))).
Proof.
  by_entries. by_entries. by_entries.
  match goal with
  | |- vsum (vscale _ (vadd (vadd (vmulr ?a _) (vscale _ (vmul ?b ?c)))
                            (vscale _ ?e))) = _ =>
      destruct a, b, c, e; unfold vsum, vscale, vadd, vmulr, vmul; simpl; ring
  end.
Qed.

(** X17: the per-dimension gradient kernel, summed over the spatial axis,
    against the summed gradient kernel on the summed inputs.  With
    contraction the two agree.  Without contraction the per-dimension
    kernel still multiplies by the contraction coefficients, the summed
    kernel does not. *)
Theorem gradient_kernel_sums_to_sum_gradient_kernel self R dR Y dY G :
  _gradient_kernel self R dR Y dY = Ok G ->
  exists S,
    _sum_gradient_kernel self R (map (map (map vsum)) dR) Y
                         (map (map (map vsum)) dY) = Ok S /\
    map (map (map vsum)) G
    = if contract self then S else scale_last Rmult (bas_coeffs self) S.
Proof.
  unfold _gradient_kernel, _sum_gradient_kernel, finish_unsummed, _contract.
  intros H. destruct (contract self).
  - apply scatter_ctr_vsum in H. rewrite vsum_unsummed_bas in H.
    eexists. split; [exact H | reflexivity].
  - injection H as <-. eexists. split; [reflexivity|].
    apply vsum_unsummed_bas.
Qed.

Lemma gradient_kernel_sums_to_sum_gradient_kernel_witness :
  exists S,
    _sum_gradient_kernel (Examples.s_orbital 1) [[[2]]]
      (map (map (map vsum)) [[[V3 1 2 3]]]) [[[5]]]
      (map (map (map vsum)) [[[V3 0 1 0]]]) = Ok S /\
    map (map (map vsum)) [[[vscale (1 * 1) (vadd (vmulr (V3 1 2 3) 5)
                                                   (vscale 2 (V3 0 1 0)))]]]
    = scale_last Rmult [1] S.
Proof.
  apply (gradient_kernel_sums_to_sum_gradient_kernel (Examples.s_orbital 1)
           [[[2]]] [[[V3 1 2 3]]] [[[5]]] [[[V3 0 1 0]]]).
  reflexivity.
Defined.

(** X18: the same for the diagonal Hessian kernels. *)
Theorem diag_hessian_kernel_sums_to_sum_diag_hessian_kernel self R dR d2R Y dY
    d2Y H :
  _diag_hessian_kernel self R dR d2R Y dY d2Y = Ok H ->
  exists S,
    _sum_diag_hessian_kernel self R dR (map (map (map vsum)) d2R) Y dY
                             (map (map (map vsum)) d2Y) = Ok S /\
    map (map (map vsum)) H
    = if contract self then S else scale_last Rmult (bas_coeffs self) S.
Proof.
  unfold _diag_hessian_kernel, _sum_diag_hessian_kernel, finish_unsummed,
    _contract.
  intros Hk. destruct (contract self).
  - apply scatter_ctr_vsum in Hk. rewrite vsum_unsummed_hessian_bas in Hk.
    eexists. split; [exact Hk | reflexivity].
  - injection Hk as <-. eexists. split; [reflexivity|].
    apply vsum_unsummed_hessian_bas.
Qed.

Lemma diag_hessian_kernel_sums_to_sum_diag_hessian_kernel_witness :
  exists H S,
    _diag_hessian_kernel (Examples.s_orbital 1) [[[2]]] [[[V3 1 2 3]]]
      [[[V3 4 5 6]]] [[[5]]] [[[V3 0 1 0]]] [[[V3 1 0 1]]] = Ok H /\
    _sum_diag_hessian_kernel (Examples.s_orbital 1) [[[2]]] [[[V3 1 2 3]]]
      (map (map (map vsum)) [[[V3 4 5 6]]]) [[[5]]] [[[V3 0 1 0]]]
      (map (map (map vsum)) [[[V3 1 0 1]]]) = Ok S /\
    map (map (map vsum)) H = scale_last Rmult [1] S.
Proof.
  eassert (Hk : _diag_hessian_kernel (Examples.s_orbital 1) [[[2]]]
                  [[[V3 1 2 3]]] [[[V3 4 5 6]]] [[[5]]] [[[V3 0 1 0]]]
                  [[[V3 1 0 1]]] = Ok _) by reflexivity.
  destruct (diag_hessian_kernel_sums_to_sum_diag_hessian_kernel _ _ _ _ _ _ _ _
              Hk) as (S & HS & E).
  eexists _, S. split; [exact Hk|]. split; [exact HS | exact E].
Defined.

End KernelFacts.

(** ** The Jastrow gradient over all electrons *)

Module JastrowSumFacts.
Import JastrowFactorElectronElectron ScatterVocabulary.
Import ScatterFacts JastrowFacts SecondDerivativeFacts.
Local Open Scope R_scope.

Lemma rsum_cons x l : rsum (x :: l) = x + rsum l.
Proof. reflexivity. Qed.

Lemma rsum_insert out i o s :
  out !! i = Some o -> rsum (<[i := o + s]> out) = rsum out + s.
Proof.
  unfold rsum. revert i. induction out as [|x out IH]; intros i H.
  - rewrite lookup_nil in H. discriminate.
  - destruct i as [|i]; simpl in *.
    + injection H as ->. lra.
    + rewrite (IH i H). lra.
Qed.

Lemma rsum_replicate_0 n : rsum (replicate n 0) = 0.
Proof.
  unfold rsum. induction n as [|n IH]; [reflexivity|]. simpl. rewrite IH. lra.
Qed.

Lemma rsum_opp l : rsum (map Ropp l) = - rsum l.
Proof.
  unfold rsum. induction l as [|x l IH]; [simpl; lra|].
  simpl. rewrite IH. lra.
Qed.

(** A scatter-add moves the sources into the output without creating or
    losing anything. *)
Lemma index_add_go_rsum out index src out' :
  length index = length src ->
  index_add_go Rplus out index src = Ok out' ->
  rsum out' = rsum out + rsum src.
Proof.
  revert out src. induction index as [|i index IH]; intros out src Hlen H.
  - destruct src; [|discriminate]. simpl in H. injection H as <-.
    unfold rsum at 3. simpl. lra.
  - destruct src as [|s src]; [discriminate|]. simpl in H.
    destruct (out !! i) as [o|] eqn:Ho; [|discriminate].
    apply IH in H; [|simpl in Hlen; lia].
    rewrite H, (rsum_insert _ _ _ _ Ho), rsum_cons. lra.
Qed.

Lemma index_add_rsum out index src out' :
  index_add_ Rplus out index src = Ok out' ->
  rsum out' = rsum out + rsum src.
Proof.
  unfold index_add_. destruct (Nat.eqb_spec (length index) (length src)) as [E|];
    [|discriminate].
  apply index_add_go_rsum. exact E.
Qed.

(** The signed scatter-add of any vector of pair terms sums to zero over
    the electrons. *)
Lemma signed_scatter_rsum self src v :
  signed_scatter self src = Ok v -> rsum v = 0.
Proof.
  unfold signed_scatter. intros H.
  apply rbind_Ok in H as (v1 & H1 & H2).
  apply index_add_rsum in H1, H2.
  rewrite H2, H1, rsum_replicate_0, rsum_opp. lra.
Qed.

Lemma bmul_single row j : bmul row [j] = map (fun x => x * j) row.
Proof. reflexivity. Qed.

Section SumRule.

Variables (nup ndown : nat).
Variable kernel_class : nat -> nat -> bool -> kernel.
Variable distance_class : nat -> nat -> bool -> R -> distance.
Variables (scale : bool) (scale_factor : R) (cuda : bool).

Let self : t :=
  __init__ nup ndown kernel_class distance_class scale scale_factor cuda.

Let valid : valid_indices self :=
  init_valid_indices nup ndown kernel_class distance_class scale
                     scale_factor cuda.

(** X19: for any number of electrons the summed gradient of the Jastrow
    factor has one entry per electron, and its entries sum to zero over
    the electrons: every pair adds its term to the row electron and takes
    it from the column electron. *)
Theorem jastrow_gradient_sums_to_zero r dr jast :
  let D := compute_derivative (jastrow_kernel self) r dr in
  Forall (well_shaped (length (index_row self))) D ->
  Forall single jast -> length jast = length D ->
  exists out,
    jastrow_factor_derivative self r dr jast true = Ok (J2 out) /\
    length out = length D /\
    Forall (fun row => length row = nelec self /\ rsum row = 0) out.
Proof.
  intros D HD Hj Hlen. unfold jastrow_factor_derivative. fold D.
  destruct (rmapM_exists (signed_scatter self)
              (fun src v => length v = nelec self /\ rsum v = 0)
              (zip_with bmul (map sum_rows D) jast)) as (out & Hout & HP).
  { rewrite zip_with_fmap_l.
    clear Hlen. revert jast Hj. induction HD as [|m D' [Hne Hm] HD' IH];
      intros jast Hj; [constructor|].
    destruct Hj as [|jr jast [j ->] Hj]; [constructor|].
    cbn [zip_with]. constructor; [|apply IH; exact Hj].
    rewrite bmul_single.
    destruct (signed_scatter_spec self valid (map (fun x => x * j) (sum_rows m)))
      as (v & Hv & Hl & _).
    { rewrite length_map. apply sum_rows_length; assumption. }
    exists v. split; [exact Hv|]. split; [exact Hl|].
    eapply signed_scatter_rsum. exact Hv. }
  rewrite Hout. simpl. exists out. split; [reflexivity|].
  pose proof (Forall2_length _ _ _ HP) as Hl.
  rewrite length_zip_with, length_map in Hl.
  split; [lia|].
  clear -HP. induction HP; constructor; assumption.
Qed.

End SumRule.

Lemma jastrow_gradient_sums_to_zero_witness :
  exists out,
    jastrow_factor_derivative Examples.three_electron_jastrow
      [[1; 2; 3]] [[[1; 0; 1]; [0; 1; 0]; [0; 0; 1]]] [[2]] true = Ok (J2 out) /\
    Forall (fun row => length row = 3%nat /\ rsum row = 0) out.
Proof.
  destruct (jastrow_gradient_sums_to_zero 2 1 (fun _ _ _ => Examples.pade)
              (fun _ _ _ _ => Examples.plain_distance) false 0.6 false
              [[1; 2; 3]] [[[1; 0; 1]; [0; 1; 0]; [0; 0; 1]]] [[2]])
    as (out & H & _ & Hs).
  - repeat constructor. discriminate.
  - repeat constructor. exists 2. reflexivity.
  - reflexivity.
  - exists out. split; [exact H | exact Hs].
Defined.

End JastrowSumFacts.

(** ** The Jastrow request [0, 1, 2] *)

Module JastrowModesFacts.
Import JastrowFactorElectronElectron.
Local Open Scope R_scope.

(** X20: the request [0, 1, 2] returns the tuple of what the requests 0, 1
    and 2 return one by one, and succeeds exactly when the three do. *)
Theorem jastrow_all_orders_agree self pos sum_grad a b c :
  forward self pos (DList [0; 1; 2]%Z) sum_grad = Ok (JTuple [a; b; c]) <->
  forward self pos (DInt 0) sum_grad = Ok (JOne a) /\
  forward self pos (DInt 1) sum_grad = Ok (JOne b) /\
  forward self pos (DInt 2) sum_grad = Ok (JOne c).
Proof.
  unfold forward.
  destruct (negb (forallb _ pos)); [split; [discriminate | intros [? _]; discriminate]|].
  destruct (get_edist_unique self pos) as [r|e];
    [|split; [discriminate | intros [? _]; discriminate]].
  cbn [rbind].
  set (jast := map (fun row => [exp (rsum row)])
                   (kernel_forward (jastrow_kernel self) r)).
  destruct (get_edist_unique_der self pos 1) as [dr|e];
    [|split; [discriminate | intros (_ & ? & _); discriminate]].
  cbn [rbind].
  destruct (get_edist_unique_der self pos 2) as [d2r|e];
    [|split; [discriminate | intros (_ & _ & ?); discriminate]].
  cbn [rbind].
  destruct (jastrow_factor_derivative self r dr jast sum_grad) as [d|e];
    [|split; [discriminate | intros (_ & ? & _); discriminate]].
  cbn [rbind].
  destruct (jastrow_factor_second_derivative self r dr d2r jast) as [d2|e];
    [|split; [discriminate | intros (_ & _ & ?); discriminate]].
  cbn [rbind]. split.
  - intros H. injection H as <- <- <-. auto.
  - intros (Ha & Hb & Hc). injection Ha as <-. injection Hb as <-.
    injection Hc as <-. reflexivity.
Qed.

End JastrowModesFacts.

(** ** The electron pairs of the Jastrow factor *)

Module PairFacts.
Import JastrowFactorElectronElectron PairVocabulary.
Local Open Scope nat_scope.

(** One step of the inner loop of [get_mask_tri_up]. *)
Lemma foldl_flat_map {A B C : Type} (f : A -> C -> A) (g : B -> list C) l a :
  foldl f a (flat_map g l) = foldl (fun acc b => foldl f acc (g b)) a l.
Proof.
  revert a. induction l as [|b l IH]; intros a; [reflexivity|].
  simpl. rewrite foldl_app. apply IH.
Qed.

Lemma foldl_fmap' {A B C : Type} (f : A -> C -> A) (g : B -> C) l a :
  foldl f a (map g l) = foldl (fun acc b => f acc (g b)) a l.
Proof.
  revert a. induction l as [|b l IH]; intros a; [reflexivity|]. simpl. apply IH.
Qed.

Lemma foldl_pointwise {A B : Type} (f g : A -> B -> A) l a :
  (forall a b, f a b = g a b) -> foldl f a l = foldl g a l.
Proof.
  intros H. revert a. induction l as [|b l IH]; intros a; [reflexivity|].
  simpl. rewrite H. apply IH.
Qed.

(** The loops of [get_mask_tri_up] as one pass over the pairs. *)
Lemma get_mask_tri_up_pairs n :
  get_mask_tri_up n
  = foldl (fun (acc : list (list bool) * list nat * list nat) (p : nat * nat) =>
             let '(mask, index_col, index_row) := acc in
             (mask_set mask (fst p) (snd p), index_col ++ [snd p],
              index_row ++ [fst p]))
          (replicate n (replicate n false), [], []) (pairs n).
Proof.
  unfold get_mask_tri_up, pairs. rewrite foldl_flat_map.
  apply foldl_pointwise. intros acc i. unfold pairs_from. rewrite foldl_fmap'.
  reflexivity.
Qed.

Lemma pass_over_pairs ps mask c r :
  foldl (fun (acc : list (list bool) * list nat * list nat) (p : nat * nat) =>
           let '(mask, index_col, index_row) := acc in
           (mask_set mask (fst p) (snd p), index_col ++ [snd p],
            index_row ++ [fst p]))
        (mask, c, r) ps
  = (foldl (fun m (p : nat * nat) => mask_set m (fst p) (snd p)) mask ps,
     c ++ map snd ps, r ++ map fst ps).
Proof.
  revert mask c r. induction ps as [|p ps IH]; intros mask c r.
  - simpl. rewrite !app_nil_r. reflexivity.
  - simpl. rewrite IH, <- !app_assoc. reflexivity.
Qed.

(** The index arrays list the pairs. *)
Lemma tri_up_index_arrays n :
  snd (get_mask_tri_up n) = map fst (pairs n) /\
  snd (fst (get_mask_tri_up n)) = map snd (pairs n).
Proof. rewrite get_mask_tri_up_pairs, pass_over_pairs. auto. Qed.

Lemma elem_of_pairs n i j : (i, j) ∈ pairs n <-> i < j < n.
Proof.
  unfold pairs, pairs_from. rewrite list_elem_of_In, in_flat_map. split.
  - intros (i' & Hi' & Hin). apply in_map_iff in Hin as (j' & E & Hj').
    injection E as -> ->. apply in_seq in Hi', Hj'. lia.
  - intros H. exists i. split; [apply in_seq; lia|].
    apply in_map_iff. exists j. split; [reflexivity | apply in_seq; lia].
Qed.

Lemma NoDup_pairs n : NoDup (pairs n).
Proof.
  unfold pairs. generalize (seq_NoDup (n - 1) 0).
  assert (Hb : forall i, In i (seq 0 (n - 1)) -> True) by auto.
  induction (seq 0 (n - 1)) as [|i l IH]; intros Hnd; [constructor|].
  simpl. apply NoDup_ListNoDup in Hnd. apply NoDup_cons in Hnd as [Hi Hnd].
  apply NoDup_app. split; [|split].
  - unfold pairs_from. apply NoDup_fmap_2; [intros a b E; congruence|].
    apply NoDup_ListNoDup, seq_NoDup.
  - intros [a b] Ha Hin. unfold pairs_from in Ha.
    apply list_elem_of_fmap in Ha as (j & E & _). injection E as -> ->.
    apply list_elem_of_In, in_flat_map in Hin as (i' & Hi' & Hin).
    apply in_map_iff in Hin as (j' & E & _). injection E as -> _.
    apply Hi. apply list_elem_of_In. exact Hi'.
  - apply IH; [auto|]. apply NoDup_ListNoDup. exact Hnd.
Qed.

Lemma length_pairs n : length (pairs n) = n * (n - 1) / 2.
Proof.
  assert (H : forall k, k <= n - 1 ->
            2 * length (flat_map (pairs_from n) (seq (n - 1 - k) k))
            = k * (k + 1)).
  { induction k as [|k IH]; intros Hk; [reflexivity|].
    assert (E : seq (n - 1 - S k) (S k) = (n - 1 - S k) :: seq (n - 1 - k) k).
    { simpl. f_equal. f_equal. lia. }
    rewrite E. cbn [flat_map]. rewrite length_app. unfold pairs_from at 1.
    rewrite length_map, length_seq.
    specialize (IH ltac:(lia)).
    replace (n - (n - 1 - S k + 1)) with (S k) by lia. nia. }
  unfold pairs. specialize (H (n - 1) ltac:(lia)).
  rewrite Nat.sub_diag in H.
  destruct n as [|n]; [reflexivity|].
  replace (S n - 1) with n in * by lia.
  replace (S n * n) with (length (flat_map (pairs_from (S n)) (seq 0 n)) * 2) by lia.
  rewrite Nat.div_mul by lia. reflexivity.
Qed.

(** *** The mask *)

Lemma mask_set_shape n mask i j :
  length mask = n -> Forall (fun row => length row = n) mask ->
  length (mask_set mask i j) = n /\
  Forall (fun row => length row = n) (mask_set mask i j).
Proof.
  intros Hl Hr. unfold mask_set. destruct (mask !! i) as [row|] eqn:E; [|auto].
  split; [rewrite length_insert; exact Hl|].
  apply Forall_insert; [exact Hr|]. rewrite length_insert.
  rewrite Forall_forall in Hr. apply Hr. eapply list_elem_of_lookup_2. exact E.
Qed.

Lemma mask_set_entry n mask i j a b :
  length mask = n -> Forall (fun row => length row = n) mask ->
  i < n -> j < n ->
  (mask_set mask i j !! a) ≫= (.!! b)
  = if bool_decide ((a, b) = (i, j)) then Some true else (mask !! a) ≫= (.!! b).
Proof.
  intros Hl Hr Hi Hj. unfold mask_set.
  destruct (lookup_lt_is_Some_2 mask i) as [row Hrow]; [lia|]. rewrite Hrow.
  assert (Hlen : length row = n).
  { rewrite Forall_forall in Hr. apply Hr. eapply list_elem_of_lookup_2. exact Hrow. }
  destruct (decide (a = i)) as [->|Ha].
  - rewrite list_lookup_insert_eq by lia. simpl.
    destruct (decide (b = j)) as [->|Hb].
    + rewrite list_lookup_insert_eq by lia.
      rewrite bool_decide_eq_true_2 by reflexivity. reflexivity.
    + rewrite list_lookup_insert_ne by congruence.
      rewrite bool_decide_eq_false_2 by congruence. rewrite Hrow. reflexivity.
  - rewrite list_lookup_insert_ne by congruence.
    rewrite bool_decide_eq_false_2 by congruence. reflexivity.
Qed.

Lemma fold_mask_entry n ps mask a b :
  length mask = n -> Forall (fun row => length row = n) mask ->
  Forall (fun p : nat * nat => fst p < n /\ snd p < n) ps ->
  let mask' := foldl (fun m (p : nat * nat) => mask_set m (fst p) (snd p)) mask ps in
  length mask' = n /\ Forall (fun row => length row = n) mask' /\
  (mask' !! a) ≫= (.!! b)
  = if bool_decide ((a, b) ∈ ps) then Some true else (mask !! a) ≫= (.!! b).
Proof.
  intros Hl Hr Hps. revert mask Hl Hr.
  induction Hps as [|[i j] ps [Hi Hj] Hps IH]; intros mask Hl Hr; cbv zeta;
    cbn [foldl fst snd].
  - rewrite bool_decide_eq_false_2 by apply not_elem_of_nil. auto.
  - simpl in Hi, Hj. cbv zeta in IH.
    destruct (mask_set_shape n mask i j Hl Hr) as [Hl' Hr'].
    destruct (IH _ Hl' Hr') as (H1 & H2 & H3).
    split; [exact H1|]. split; [exact H2|].
    rewrite H3, (mask_set_entry n) by assumption.
    destruct (decide ((a, b) = (i, j))) as [E|E].
    + rewrite (bool_decide_eq_true_2 _ E).
      rewrite (bool_decide_eq_true_2 ((a, b) ∈ (i, j) :: ps))
        by (rewrite E; apply list_elem_of_here).
      destruct (bool_decide ((a, b) ∈ ps)); reflexivity.
    + rewrite (bool_decide_eq_false_2 _ E).
      destruct (decide ((a, b) ∈ ps)) as [Hin|Hin].
      * rewrite !bool_decide_eq_true_2;
          [reflexivity | apply list_elem_of_further; exact Hin | exact Hin].
      * rewrite !bool_decide_eq_false_2; [reflexivity| |exact Hin].
        intros Hc. apply elem_of_cons in Hc as [Hc|Hc]; contradiction.
Qed.

(** The mask built by [get_mask_tri_up]: entry (i, j) is set exactly when
    i < j. *)
Lemma tri_up_mask n :
  fst (fst (get_mask_tri_up n))
  = map (fun i => map (fun j => i <? j) (seq 0 n)) (seq 0 n).
Proof.
  rewrite get_mask_tri_up_pairs, pass_over_pairs. cbn [fst].
  set (mask' := foldl _ _ _).
  assert (Hshape : length (replicate n (replicate n false)) = n /\
                   Forall (fun row : list bool => length row = n)
                          (replicate n (replicate n false))).
  { split; [apply length_replicate|].
    apply Forall_replicate. apply length_replicate. }
  assert (Hps : Forall (fun p : nat * nat => fst p < n /\ snd p < n) (pairs n)).
  { apply Forall_forall. intros [i j] Hin. apply elem_of_pairs in Hin. simpl. lia. }
  assert (Hm : forall a b,
    length mask' = n /\ Forall (fun row => length row = n) mask' /\
    (mask' !! a) ≫= (.!! b)
    = if bool_decide ((a, b) ∈ pairs n) then Some true
      else (replicate n (replicate n false) !! a) ≫= (.!! b)).
  { intros a b. apply fold_mask_entry; tauto. }
  destruct (Hm 0 0) as (Hl & Hr & _).
  apply list_eq. intros a. rewrite list_lookup_fmap.
  destruct (decide (a < n)) as [Ha|Ha].
  - rewrite lookup_seq_lt by exact Ha. simpl.
    destruct (lookup_lt_is_Some_2 mask' a) as [row Hrow]; [lia|]. rewrite Hrow.
    f_equal. apply list_eq. intros b. rewrite list_lookup_fmap.
    destruct (Hm a b) as (_ & _ & He). rewrite Hrow in He. simpl in He.
    rewrite He. destruct (decide (b < n)) as [Hb|Hb].
    + rewrite lookup_seq_lt by exact Hb. simpl.
      rewrite lookup_replicate_2 by exact Ha. simpl.
      rewrite lookup_replicate_2 by exact Hb.
      destruct (Nat.ltb_spec a b) as [Hab|Hab].
      * rewrite bool_decide_eq_true_2 by (apply elem_of_pairs; lia). reflexivity.
      * rewrite bool_decide_eq_false_2; [reflexivity|].
        rewrite elem_of_pairs. lia.
    + rewrite lookup_seq_ge by lia. simpl.
      rewrite bool_decide_eq_false_2 by (rewrite elem_of_pairs; lia).
      rewrite lookup_replicate_2 by exact Ha. simpl.
      apply lookup_replicate_None. lia.
  - rewrite lookup_seq_ge by lia. simpl. apply lookup_ge_None. lia.
Qed.

(** *** Extraction *)

(** Selecting from a row the entries right of the diagonal. *)
Lemma select_all_right (row : list R) i k :
  i < k ->
  omap (fun bx : bool * R => if fst bx then Some (snd bx) else None)
       (zip (map (fun j => i <? j) (seq k (length row))) row) = row.
Proof.
  revert k. induction row as [|y row IH]; intros k Hk; [reflexivity|].
  simpl. destruct (Nat.ltb_spec i k) as [_|]; [|lia]. simpl.
  f_equal. apply IH. lia.
Qed.

Lemma select_right_of_diagonal (row : list R) i k :
  k <= i + 1 ->
  omap (fun bx : bool * R => if fst bx then Some (snd bx) else None)
       (zip (map (fun j => i <? j) (seq k (length row))) row)
  = drop (i + 1 - k) row.
Proof.
  revert k. induction row as [|x row IH]; intros k Hk.
  - rewrite drop_nil. reflexivity.
  - simpl. destruct (Nat.ltb_spec i k) as [Hik|Hik]; simpl.
    + replace (i + 1 - k) with 0 by lia. rewrite drop_0. f_equal.
      apply select_all_right. lia.
    + replace (i + 1 - k) with (S (i + 1 - S k)) by lia. simpl.
      rewrite <- (IH (S k)) by lia. reflexivity.
Qed.

Lemma nth_seq_drop (row : list R) a :
  map (fun j => nth j row 0%R) (seq a (length row - a)) = drop a row.
Proof.
  revert a. induction row as [|x row IH]; intros a.
  - rewrite drop_nil. reflexivity.
  - destruct a as [|a].
    + simpl. f_equal. rewrite <- seq_shift, map_map.
      specialize (IH 0). rewrite Nat.sub_0_r, drop_0 in IH. exact IH.
    + simpl. rewrite <- seq_shift, map_map. apply IH.
Qed.

Lemma flat_map_pointwise {A B : Type} (f g : A -> list B) l :
  (forall x, In x l -> f x = g x) -> flat_map f l = flat_map g l.
Proof.
  induction l as [|x l IH]; intros H; [reflexivity|].
  simpl. rewrite (H x) by (left; reflexivity).
  rewrite IH by (intros y Hy; apply H; right; exact Hy). reflexivity.
Qed.

Lemma concat_zip_with_seq {A : Type} (f : nat -> list R -> list A) k (M : list (list R)) :
  concat (zip_with f (seq k (length M)) M)
  = flat_map (fun i => f i (nth (i - k) M [])) (seq k (length M)).
Proof.
  revert k. induction M as [|row M IH]; intros k; [reflexivity|].
  simpl. rewrite Nat.sub_diag. f_equal. rewrite IH.
  apply flat_map_pointwise. intros i Hi. apply in_seq in Hi.
  replace (i - k) with (S (i - S k)) by lia. reflexivity.
Qed.

(** The entries that the mask selects from a matrix are, in the order of
    the selection, the entries at the row and column indices. *)
Lemma masked_select_pairs n (M : list (list R)) :
  length M = n -> Forall (fun row => length row = n) M ->
  masked_select (fst (fst (get_mask_tri_up n))) M
  = map (fun p : nat * nat => nth (snd p) (nth (fst p) M []) 0%R) (pairs n).
Proof.
  intros Hl Hr. rewrite tri_up_mask. unfold masked_select.
  rewrite zip_with_fmap_l.
  assert (E : zip_with (fun i row =>
                omap (fun bx : bool * R => if fst bx then Some (snd bx) else None)
                     (zip (map (fun j => i <? j) (seq 0 n)) row)) (seq 0 n) M
              = zip_with (fun i row => drop (i + 1) row) (seq 0 n) M).
  { apply list_eq. intros a. rewrite !lookup_zip_with.
    destruct (seq 0 n !! a) as [i|]; [|reflexivity]. simpl.
    destruct (M !! a) as [row|] eqn:Hrow; [|reflexivity]. simpl. f_equal.
    assert (Hlen : length row = n).
    { rewrite Forall_forall in Hr. apply Hr. eapply list_elem_of_lookup_2. exact Hrow. }
    rewrite <- Hlen, select_right_of_diagonal by lia.
    f_equal. lia. }
  rewrite E. rewrite <- Hl at 1. rewrite concat_zip_with_seq.
  unfold pairs. rewrite Hl.
  assert (Hmap : forall l,
    map (fun p : nat * nat => nth (snd p) (nth (fst p) M []) 0%R)
        (flat_map (pairs_from n) l)
    = flat_map (fun i => map (fun j => nth j (nth i M []) 0%R)
                             (seq (i + 1) (n - (i + 1)))) l).
  { induction l as [|i l IHl]; [reflexivity|].
    simpl. rewrite map_app, IHl. f_equal. unfold pairs_from. rewrite map_map.
    reflexivity. }
  rewrite Hmap.
  assert (Hrows : forall i, i < n -> length (nth i M []) = n).
  { intros i Hi. rewrite Forall_forall in Hr. apply Hr.
    apply list_elem_of_In, nth_In. lia. }
  destruct n as [|n]; [reflexivity|].
  replace (S n - 1) with n by lia.
  replace (seq 0 (S n)) with (seq 0 n ++ [n]) by (rewrite seq_S; reflexivity).
  rewrite flat_map_app. simpl. rewrite app_nil_r, Nat.sub_0_r.
  rewrite (drop_ge (nth n M [])) by (rewrite Hrows; lia).
  rewrite app_nil_r. apply flat_map_pointwise. intros i Hi. apply in_seq in Hi.
  rewrite Nat.sub_0_r, <- (Hrows i) at 1 by lia.
  symmetry. apply nth_seq_drop.
Qed.

Lemma zip_of_projections {A B : Type} (l : list (A * B)) :
  zip (map fst l) (map snd l) = l.
Proof. induction l as [|[a b] l IH]; [reflexivity|]. simpl. rewrite IH. reflexivity. Qed.

Lemma zip_with_of_projections {A B C : Type} (f : A -> B -> C) (l : list (A * B)) :
  zip_with f (map fst l) (map snd l) = map (fun p => f (fst p) (snd p)) l.
Proof. induction l as [|[a b] l IH]; [reflexivity|]. simpl. rewrite IH. reflexivity. Qed.

Section Pairs.

Variables (nup ndown : nat).
Variable kernel_class : nat -> nat -> bool -> kernel.
Variable distance_class : nat -> nat -> bool -> R -> distance.
Variables (scale : bool) (scale_factor : R) (cuda : bool).

Let self : t :=
  __init__ nup ndown kernel_class distance_class scale scale_factor cuda.

Lemma init_fields :
  nelec self = nup + ndown /\
  mask_tri_up self = fst (fst (get_mask_tri_up (nup + ndown))) /\
  index_col self = snd (fst (get_mask_tri_up (nup + ndown))) /\
  index_row self = snd (get_mask_tri_up (nup + ndown)).
Proof.
  subst self. unfold __init__.
  destruct (get_mask_tri_up (nup + ndown)) as [[mask c] r]. simpl. auto.
Qed.

(** X21: the index arrays of a constructed Jastrow factor list every pair
    (i, j) of electrons with i < j exactly once: there are
    nelec (nelec - 1) / 2 entries, no pair is repeated, and (i, j) is
    listed exactly when i < j < nelec. *)
Theorem index_arrays_enumerate_pairs :
  length (index_row self) = nelec self * (nelec self - 1) / 2 /\
  length (index_col self) = length (index_row self) /\
  NoDup (zip (index_row self) (index_col self)) /\
  forall i j, (i, j) ∈ zip (index_row self) (index_col self) <-> i < j < nelec self.
Proof.
  destruct init_fields as (Hn & _ & Hc & Hr).
  destruct (tri_up_index_arrays (nup + ndown)) as [Er Ec].
  rewrite Hc, Hr, Hn, Er, Ec.
  rewrite zip_of_projections, !length_map.
  split; [apply length_pairs|]. split; [reflexivity|].
  split; [apply NoDup_pairs|]. intros i j. apply elem_of_pairs.
Qed.

(** X22: [masked_select] with the mask of the object takes from an
    (nelec, nelec) matrix the entries at (index_row[k], index_col[k]), in
    the order k = 0, 1, ...: the extraction of the pair terms and the
    scatter-add of the derivatives use the same numbering of the pairs. *)
Theorem extraction_follows_index_arrays (M : list (list R)) :
  length M = nelec self -> Forall (fun row => length row = nelec self) M ->
  masked_select (mask_tri_up self) M
  = zip_with (fun i j => nth j (nth i M []) 0%R) (index_row self) (index_col self).
Proof.
  destruct init_fields as (Hn & Hm & Hc & Hr).
  destruct (tri_up_index_arrays (nup + ndown)) as [Er Ec].
  rewrite Hm, Hc, Hr, Hn, Er, Ec. intros Hl Hrows.
  rewrite (masked_select_pairs _ M Hl Hrows), zip_with_of_projections.
  reflexivity.
Qed.

End Pairs.

Lemma extraction_follows_index_arrays_witness :
  masked_select (mask_tri_up Examples.three_electron_jastrow)
                [[0; 1; 2]; [3; 4; 5]; [6; 7; 8]]%R
  = zip_with (fun i j => nth j (nth i [[0; 1; 2]; [3; 4; 5]; [6; 7; 8]]%R []) 0%R)
             (index_row Examples.three_electron_jastrow)
             (index_col Examples.three_electron_jastrow).
Proof.
  apply (extraction_follows_index_arrays 2 1 (fun _ _ _ => Examples.pade)
           (fun _ _ _ _ => Examples.plain_distance) false 0.6%R false
           [[0; 1; 2]; [3; 4; 5]; [6; 7; 8]]%R).
  - reflexivity.
  - repeat constructor.
Defined.

End PairFacts.

(** ** Normalisation of Slater primitives *)

Module NormOrbitalFacts.

Import NormOrbital.
Local Open Scope R_scope.

Lemma fact_Z_fact (n : nat) : fact_Z n = Z.of_nat (fact n).
Proof.
  induction n as [|n IH]; [reflexivity|].
  change (fact_Z (S n)) with (Z.of_nat (S n) * fact_Z n)%Z.
  change (fact (S n)) with (S n * fact n)%nat.
  rewrite IH, Nat2Z.inj_mul. reflexivity.
Qed.

Lemma fact_Z_pos (n : nat) : (0 < fact_Z n)%Z.
Proof. rewrite fact_Z_fact. pose proof (fact_neq_0 n). lia. Qed.

Lemma fact_Z_mono (n k : nat) : (n <= k)%nat -> (fact_Z n <= fact_Z k)%Z.
Proof.
  induction 1 as [|k Hk IH]; [lia|].
  change (fact_Z (S k)) with (Z.of_nat (S k) * fact_Z k)%Z.
  pose proof (fact_Z_pos k). nia.
Qed.

(** 170! is the largest factorial that converts to a double. *)
Lemma fact_170_converts : (fact_Z 170 <? 2 ^ 1024 - 2 ^ 970)%Z = true.
Proof. vm_compute. reflexivity. Qed.

Lemma fact_171_overflows : (fact_Z 171 <? 2 ^ 1024 - 2 ^ 970)%Z = false.
Proof. vm_compute. reflexivity. Qed.

Lemma float_of_factorial (k : nat) :
  (k <= 170)%nat -> float_of_int (fact_Z k) = Ok (INR (fact k)).
Proof.
  intros Hk. unfold float_of_int.
  pose proof (fact_Z_pos k) as Hp. pose proof (fact_Z_mono k 170 Hk) as Hm.
  pose proof fact_170_converts as Hc. apply Z.ltb_lt in Hc.
  rewrite Z.abs_eq by lia.
  destruct (Z.ltb_spec (fact_Z k) (2 ^ 1024 - 2 ^ 970)) as [_|H]; [|lia].
  rewrite fact_Z_fact, <- INR_IZR_INZ. reflexivity.
Qed.

Lemma float_of_factorial_overflow (k : nat) :
  (171 <= k)%nat -> float_of_int (fact_Z k) = Raise OverflowError.
Proof.
  intros Hk. unfold float_of_int.
  pose proof (fact_Z_pos k) as Hp. pose proof (fact_Z_mono 171 k Hk) as Hm.
  pose proof fact_171_overflows as Hc. apply Z.ltb_ge in Hc.
  rewrite Z.abs_eq by lia.
  destruct (Z.ltb_spec (fact_Z k) (2 ^ 1024 - 2 ^ 970)) as [H|_]; [lia|].
  reflexivity.
Qed.

Lemma rmapM_factorial (ns : list Z) :
  Forall (fun n => (0 <= n)%Z) ns ->
  rmapM (fun n => factorial (2 * n)) ns
  = Ok (map (fun n => fact_Z (Z.to_nat (2 * n))) ns).
Proof.
  induction 1 as [|n ns Hn _ IH]; [reflexivity|].
  simpl. rewrite IH. unfold factorial.
  destruct (Z.ltb_spec (2 * n) 0); [lia|]. reflexivity.
Qed.

Lemma rmapM_factorial_negative (ns : list Z) (n : Z) :
  In n ns -> (n < 0)%Z ->
  rmapM (fun n => factorial (2 * n)) ns = Raise ValueError.
Proof.
  induction ns as [|k ns IH]; [intros []|].
  intros Hin Hn. simpl. unfold factorial at 1.
  destruct (Z.ltb_spec (2 * k) 0) as [Hk|Hk]; [reflexivity|].
  simpl. destruct Hin as [->|Hin]; [lia|].
  rewrite (IH Hin Hn). reflexivity.
Qed.

Lemma rmapM_float_of_factorial (ns : list Z) :
  Forall (fun n => (0 <= n <= 85)%Z) ns ->
  rmapM float_of_int (map (fun n => fact_Z (Z.to_nat (2 * n))) ns)
  = Ok (map (fun n => INR (fact (Z.to_nat (2 * n)))) ns).
Proof.
  induction 1 as [|n ns Hn _ IH]; [reflexivity|].
  simpl. rewrite float_of_factorial by lia. simpl. rewrite IH. reflexivity.
Qed.

Lemma rmapM_float_of_factorial_overflow (ns : list Z) (n : Z) :
  In n ns -> (86 <= n)%Z ->
  rmapM float_of_int (map (fun n => fact_Z (Z.to_nat (2 * n))) ns)
  = Raise OverflowError.
Proof.
  induction ns as [|k ns IH]; [intros []|].
  intros Hin Hn. simpl.
  destruct (float_of_int (fact_Z (Z.to_nat (2 * k)))) as [x|e] eqn:Ek.
  - simpl. destruct Hin as [->|Hin].
    + rewrite float_of_factorial_overflow in Ek by lia. discriminate.
    + rewrite (IH Hin Hn). reflexivity.
  - unfold float_of_int in Ek.
    destruct (_ <? _)%Z; [discriminate|]. injection Ek as <-. reflexivity.
Qed.

(** A principal quantum number of 86 or more, among quantum numbers that
    are not negative, makes [norm_slater_spherical] raise [OverflowError]:
    172! does not convert to a double. *)
Lemma slater_spherical_overflow (ns : list Z) (es : list R) (n : Z) :
  Forall (fun n => (0 <= n)%Z) ns -> In n ns -> (86 <= n)%Z ->
  norm_slater_spherical ns es = Raise OverflowError.
Proof.
  intros Hns Hin Hn. unfold norm_slater_spherical.
  rewrite (rmapM_factorial ns Hns). simpl rbind.
  rewrite (rmapM_float_of_factorial_overflow ns n Hin Hn). reflexivity.
Qed.

(** X23: the Slater normalisation of [norm_slater_spherical]: for quantum
    numbers from 0 to 17 (their factorials (2n)! are within the range of
    single and of double precision) and positive exponents every constant
    N is positive and N^2 * (2n)! = (2 zeta)^(2n+1). *)
Theorem slater_spherical_normalisation (ns : list Z) (es : list R) :
  Forall (fun n => (0 <= n <= 17)%Z) ns ->
  Forall (fun e => 0 < e) es ->
  length es = length ns ->
  exists N, norm_slater_spherical ns es = Ok N /\
    length N = length ns /\
    forall i n e, ns !! i = Some n -> es !! i = Some e ->
      exists v, N !! i = Some v /\ 0 < v /\
        v ^ 2 * INR (fact (Z.to_nat (2 * n))) = (2 * e) ^ Z.to_nat (2 * n + 1).
Proof.
  intros Hn He Hlen. unfold norm_slater_spherical.
  assert (Hn0 : Forall (fun n => (0 <= n)%Z) ns)
    by (eapply Forall_impl; [exact Hn | intros n0 H0; simpl in H0; lia]).
  assert (Hn85 : Forall (fun n => (0 <= n <= 85)%Z) ns)
    by (eapply Forall_impl; [exact Hn | intros n0 H0; simpl in H0; lia]).
  rewrite (rmapM_factorial ns Hn0). simpl rbind.
  rewrite (rmapM_float_of_factorial ns Hn85). simpl rbind.
  eexists. split; [reflexivity|]. split.
  - rewrite length_zip_with, length_zip, length_map, Hlen. lia.
  - intros i n e Hi He'.
    rewrite lookup_zip_with, lookup_zip_with, Hi, He'. simpl.
    rewrite list_lookup_fmap, Hi. simpl.
    eexists. split; [reflexivity|].
    assert (E : 0 < e).
    { rewrite Forall_forall in He. apply He.
      eapply list_elem_of_lookup_2; eauto. }
    assert (Hnn : (0 <= n)%Z).
    { rewrite Forall_forall in Hn0. apply Hn0.
      eapply list_elem_of_lookup_2; eauto. }
    set (f := INR (fact (Z.to_nat (2 * n)))).
    assert (F : 0 < f) by (apply lt_0_INR, Nat.neq_0_lt_0, fact_neq_0).
    assert (P : 0 < (2 * e) ^ Z.to_nat n) by (apply pow_lt; lra).
    assert (Q : 0 < 2 * e / f) by (apply Rdiv_lt_0_compat; lra).
    split.
    + apply Rmult_lt_0_compat; [exact P|]. apply sqrt_lt_R0. exact Q.
    + assert (Hs : sqrt (2 * e / f) * sqrt (2 * e / f) = 2 * e / f)
        by (apply sqrt_sqrt; lra).
      replace (Z.to_nat (2 * n + 1)) with (S (Z.to_nat n + Z.to_nat n))%nat by lia.
      rewrite <- tech_pow_Rmult, pow_add.
      transitivity ((2 * e) ^ Z.to_nat n * (2 * e) ^ Z.to_nat n
                    * (sqrt (2 * e / f) * sqrt (2 * e / f)) * f); [ring|].
      rewrite Hs. field. lra.
Qed.

Lemma slater_spherical_normalisation_witness :
  exists N, norm_slater_spherical [1%Z; 2%Z] [1; 2] = Ok N /\
    length N = 2%nat /\
    forall i n e, [1%Z; 2%Z] !! i = Some n -> [1; 2] !! i = Some e ->
      exists v, N !! i = Some v /\ 0 < v /\
        v ^ 2 * INR (fact (Z.to_nat (2 * n))) = (2 * e) ^ Z.to_nat (2 * n + 1).
Proof.
  apply (slater_spherical_normalisation [1%Z; 2%Z] [1; 2]).
  - repeat constructor; lia.
  - repeat constructor; lra.
  - reflexivity.
Defined.

(** X24: a negative principal quantum number makes [norm_slater_spherical]
    raise [ValueError], wherever it stands in [bas_n] and whatever the
    exponents are. *)
Theorem slater_spherical_negative_n_raises (ns : list Z) (es : list R) (n : Z) :
  In n ns -> (n < 0)%Z -> norm_slater_spherical ns es = Raise ValueError.
Proof.
  intros Hin Hn. unfold norm_slater_spherical.
  rewrite (rmapM_factorial_negative ns n Hin Hn). reflexivity.
Qed.

Lemma slater_spherical_negative_n_raises_witness :
  norm_slater_spherical [1%Z; (-1)%Z] [1; 2] = Raise ValueError.
Proof.
  apply (slater_spherical_negative_n_raises [1%Z; (-1)%Z] [1; 2] (-1)%Z).
  - simpl. auto.
  - lia.
Defined.

Section Dispatch.

Variable norm_gaussian_spherical : list Z -> list R -> result (list R).
Variable norm_slater_cartesian :
  list Z -> list Z -> list Z -> list Z -> list R -> result (list R).
Variable norm_gaussian_cartesian :
  list Z -> list Z -> list Z -> list R -> result (list R).

Let norm := atomic_orbital_norm norm_gaussian_spherical norm_slater_cartesian
                                norm_gaussian_cartesian.

Lemma bind_some_not_none {A : Type} (m : result A) :
  (let* v := m in Ok (Some v)) <> Ok None.
Proof. destruct m; simpl; congruence. Qed.

(** X25: [atomic_orbital_norm] returns [None], without an error, exactly
    when the harmonics type is neither "sph" nor "cart"; the radial type is
    not looked at then. *)
Theorem norm_is_none_iff_unknown_harmonics (b : namespace) :
  norm b = Ok None <->
  harmonics_type b <> "sph"%string /\ harmonics_type b <> "cart"%string.
Proof.
  unfold norm, atomic_orbital_norm.
  destruct (String.eqb_spec (harmonics_type b) "sph") as [Hs|Hs].
  - split; [|intros [H _]; contradiction].
    destruct (String.prefix "sto" (radial_type b));
      [intros H; exfalso; exact (bind_some_not_none _ H)|].
    destruct (String.prefix "gto" (radial_type b));
      [intros H; exfalso; exact (bind_some_not_none _ H)|].
    discriminate.
  - destruct (String.eqb_spec (harmonics_type b) "cart") as [Hc|Hc].
    + split; [|intros [_ H]; contradiction].
      destruct (String.prefix "sto" (radial_type b));
        [intros H; exfalso; exact (bind_some_not_none _ H)|].
      destruct (String.prefix "gto" (radial_type b));
        [intros H; exfalso; exact (bind_some_not_none _ H)|].
      discriminate.
    + split; [intros _; split; assumption | reflexivity].
Qed.

End Dispatch.

End NormOrbitalFacts.

(** ** Grids *)

Module InterpolateFacts.

Import Interpolate GridVocabulary.
Local Open Scope R_scope.

Lemma is_even_even (x : Z) : is_even x = Z.even x.
Proof.
  unfold is_even. rewrite Zeven_mod.
  destruct (Z.eqb_spec (x / 2 * 2) x) as [E|E];
    destruct (Z.eqb_spec (x mod 2) 0) as [F|F]; try reflexivity;
    pose proof (Z.div_mod x 2 ltac:(lia)); lia.
Qed.

(** *** [np.linspace] *)

Lemma linspace_Ok (a b : R) (num : Z) :
  (0 <= num)%Z ->
  linspace a b num
  = Ok (map (fun i => if (0 <? Z.to_nat num - 1)%nat
                      then INR i * ((b - a) / INR (Z.to_nat num - 1)) + a
                      else INR i * (b - a) + a)
            (seq 0 (Z.to_nat num))).
Proof.
  intros H. unfold linspace. destruct (Z.ltb_spec num 0); [lia|reflexivity].
Qed.

Lemma linspace_negative (a b : R) (num : Z) :
  (num < 0)%Z -> linspace a b num = Raise ValueError.
Proof.
  intros H. unfold linspace. destruct (Z.ltb_spec num 0); [reflexivity|lia].
Qed.

Lemma linspace_shape (a b : R) (num : Z) :
  (0 <= num)%Z ->
  exists l, linspace a b num = Ok l /\ length l = Z.to_nat num /\
    (forall i, (i < Z.to_nat num)%nat ->
       l !! i = Some (if (0 <? Z.to_nat num - 1)%nat
                      then INR i * ((b - a) / INR (Z.to_nat num - 1)) + a
                      else INR i * (b - a) + a)).
Proof.
  intros H. rewrite (linspace_Ok a b num H). eexists. split; [reflexivity|].
  split.
  - rewrite length_map, length_seq. reflexivity.
  - intros i Hi. rewrite list_lookup_fmap, lookup_seq_lt by exact Hi.
    reflexivity.
Qed.

Lemma linspace_first (a b : R) (num : Z) (l : list R) :
  (1 <= num)%Z -> linspace a b num = Ok l -> exists l', l = a :: l'.
Proof.
  intros H E. rewrite (linspace_Ok a b num) in E by lia.
  injection E as <-.
  destruct (Z.to_nat num) as [|n] eqn:En; [lia|].
  simpl seq. simpl map. eexists. f_equal.
  change (INR 0) with 0.
  match goal with |- context [if ?c then _ else _] => destruct c end;
    rewrite Rmult_0_l, Rplus_0_l; reflexivity.
Qed.

Lemma last_lookup' {A : Type} (l : list A) :
  last l = l !! (length l - 1)%nat.
Proof.
  rewrite last_lookup. f_equal. lia.
Qed.

Lemma linspace_last (a b : R) (num : Z) (l : list R) :
  (2 <= num)%Z -> linspace a b num = Ok l -> last l = Some b.
Proof.
  intros H E.
  destruct (linspace_shape a b num ltac:(lia)) as (l' & E' & Hlen & Hl).
  rewrite E in E'. injection E' as <-.
  rewrite last_lookup', Hlen, Hl by lia.
  destruct (Nat.ltb_spec 0 (Z.to_nat num - 1)); [|lia].
  f_equal. field. apply not_0_INR. lia.
Qed.

Lemma linspace_step (a b : R) (num : Z) (l : list R) (i : nat) (u v : R) :
  linspace a b num = Ok l -> l !! i = Some u -> l !! S i = Some v ->
  v - u = (b - a) / INR (length l - 1).
Proof.
  intros E Hu Hv.
  assert (Hnum : (0 <= num)%Z).
  { destruct (Z.ltb_spec num 0) as [N|N]; [|exact N].
    rewrite (linspace_negative a b num N) in E. discriminate. }
  destruct (linspace_shape a b num Hnum) as (l' & E' & Hlen & Hl).
  rewrite E in E'. injection E' as <-.
  assert (Hi : (S i < Z.to_nat num)%nat).
  { rewrite <- Hlen. eapply lookup_lt_Some; eauto. }
  rewrite Hl in Hu, Hv by lia.
  destruct (Nat.ltb_spec 0 (Z.to_nat num - 1)); [|lia].
  injection Hu as <-. injection Hv as <-.
  change (match i with 0%nat => 1 | S _ => INR i + 1 end) with (INR (S i)).
  rewrite Hlen, S_INR.
  field. apply not_0_INR. lia.
Qed.

(** *** [logspace] *)

Lemma zero_point_zero : 0.0 = 0.
Proof. unfold Q2R; simpl; lra. Qed.

Lemma Rpower_10_0 : Rpower 10 0 = 1.
Proof. unfold Rpower. rewrite Rmult_0_l. apply exp_0. Qed.

Lemma Rpower_10_log (x : R) : 0 < x -> Rpower 10 (ln x / ln 10) = x.
Proof.
  intros H. unfold Rpower.
  assert (L : ln 10 <> 0).
  { assert (0 < ln 10); [|lra]. rewrite <- ln_1. apply ln_increasing; lra. }
  replace (ln x / ln 10 * ln 10) with (ln x) by (field; exact L).
  apply exp_ln, H.
Qed.

(** The positive half [x] of the grid, as [logspace] builds it. *)
Lemma half_shape (start k : R) (num : Z) :
  (0 <= num)%Z ->
  exists y, linspace start k num = Ok y /\ length y = Z.to_nat num /\
    np_logspace start k num = Ok (map (fun t => Rpower 10 t) y).
Proof.
  intros H. destruct (linspace_shape start k num H) as (y & E & Hlen & _).
  exists y. split; [exact E|]. split; [exact Hlen|].
  unfold np_logspace. rewrite E. reflexivity.
Qed.

Lemma length_mirror (x : list R) :
  length (map Ropp (rev x) ++ drop 1 x) = (length x + (length x - 1))%nat.
Proof.
  rewrite length_app, length_map, length_rev, length_drop. reflexivity.
Qed.

(** X26: [logspace(n, length)] returns n points when n is odd, and n - 1
    points when n is even and positive (none for n = 0). *)
Theorem logspace_number_of_points (n : Z) (len : R) :
  (0 <= n)%Z -> -1 < len ->
  exists l, logspace n len = Ok l /\
    length l = if Z.even n then (Z.to_nat n - 1)%nat else Z.to_nat n.
Proof.
  intros Hn Hlen. unfold logspace. rewrite is_even_even.
  pose proof (Z.div_mod n 2 ltac:(lia)) as D.
  pose proof (Z.mod_pos_bound n 2 ltac:(lia)) as B.
  destruct (Z.even n) eqn:Ev.
  - assert (M : (n mod 2 = 0)%Z).
    { rewrite Zeven_mod in Ev. apply Z.eqb_eq in Ev. exact Ev. }
    destruct (half_shape 0.01 (ln (len + 1) / ln 10) (n / 2) ltac:(lia))
      as (y & _ & Hy & ->).
    simpl rbind. eexists. split; [reflexivity|].
    rewrite length_mirror, !length_map, Hy. lia.
  - assert (M : (n mod 2 = 1)%Z).
    { rewrite Zeven_mod in Ev. apply Z.eqb_neq in Ev. lia. }
    destruct (half_shape 0.0 (ln (len + 1) / ln 10) (n / 2 + 1) ltac:(lia))
      as (y & _ & Hy & ->).
    simpl rbind. eexists. split; [reflexivity|].
    rewrite length_mirror, !length_map, Hy. lia.
Qed.

Lemma logspace_number_of_points_witness :
  exists l, logspace 6 2 = Ok l /\ length l = 5%nat.
Proof.
  apply (logspace_number_of_points 6 2); [lia | lra].
Defined.

Lemma map_opp_opp (l : list R) : map Ropp (map Ropp l) = l.
Proof.
  induction l as [|a l IH]; [reflexivity|].
  simpl. rewrite IH, Ropp_involutive. reflexivity.
Qed.

Lemma mirror_symmetric (x' : list R) :
  rev (map Ropp (map Ropp (rev (0 :: x')) ++ drop 1 (0 :: x')))
  = map Ropp (rev (0 :: x')) ++ drop 1 (0 :: x').
Proof.
  simpl drop. rewrite drop_0.
  rewrite map_app, rev_app_distr, map_opp_opp, rev_involutive.
  simpl rev. rewrite map_app. simpl map. rewrite Ropp_0.
  rewrite <- app_assoc. simpl app. rewrite map_rev. reflexivity.
Qed.

(** X27: for an odd number of points the grid of [logspace] is symmetric
    about its middle point, which is 0. *)
Theorem logspace_odd_is_symmetric (n : Z) (len : R) :
  (0 <= n)%Z -> Z.odd n = true -> -1 < len ->
  exists l, logspace n len = Ok l /\
    rev (map Ropp l) = l /\ l !! Z.to_nat (n / 2) = Some 0.
Proof.
  intros Hn Ho Hlen. unfold logspace. rewrite is_even_even.
  rewrite <- Z.negb_odd, Ho. simpl negb. cbv iota.
  pose proof (Z.div_mod n 2 ltac:(lia)) as D.
  pose proof (Z.mod_pos_bound n 2 ltac:(lia)) as B.
  destruct (half_shape 0.0 (ln (len + 1) / ln 10) (n / 2 + 1) ltac:(lia))
    as (y & Ey & Hy & ->).
  assert (H1 : (1 <= n / 2 + 1)%Z) by lia.
  destruct (linspace_first _ _ _ _ H1 Ey) as (y' & ->).
  simpl rbind. eexists. split; [reflexivity|].
  rewrite zero_point_zero, Rpower_10_0.
  replace (1 - 1) with 0 by ring.
  set (x' := map (fun t => t - 1) (map (fun t => Rpower 10 t) y')).
  split; [exact (mirror_symmetric x')|].
  rewrite map_app. simpl map. rewrite Ropp_0, drop_0, <- app_assoc.
  simpl app.
  assert (Hx : length (map Ropp (rev x')) = Z.to_nat (n / 2)).
  { rewrite length_map, length_rev. unfold x'. rewrite !length_map.
    simpl in Hy. lia. }
  rewrite lookup_app_r by lia. rewrite Hx, Nat.sub_diag. reflexivity.
Qed.

Lemma logspace_odd_is_symmetric_witness :
  exists l, logspace 5 2 = Ok l /\
    rev (map Ropp l) = l /\ l !! Z.to_nat (5 / 2) = Some 0.
Proof.
  apply (logspace_odd_is_symmetric 5 2); [lia | reflexivity | lra].
Defined.

Lemma last_map {A B : Type} (f : A -> B) (l : list A) :
  last (map f l) = option_map f (last l).
Proof.
  induction l as [|a [|b l] IH]; [reflexivity|reflexivity|].
  exact IH.
Qed.

Lemma head_rev {A : Type} (l : list A) : head (rev l) = last l.
Proof.
  destruct l as [|a l] using rev_ind; [reflexivity|].
  rewrite rev_app_distr, last_snoc. reflexivity.
Qed.

Lemma last_drop_1 {A : Type} (l : list A) :
  (2 <= length l)%nat -> last (drop 1 l) = last l.
Proof.
  destruct l as [|a [|b l]]; simpl length; try lia. reflexivity.
Qed.

Lemma mirror_ends (x : list R) (len : R) :
  (2 <= length x)%nat -> last x = Some len ->
  head (map Ropp (rev x) ++ drop 1 x) = Some (- len) /\
  last (map Ropp (rev x) ++ drop 1 x) = Some len.
Proof.
  intros H2 Hl. split.
  - destruct (rev x) as [|a r] eqn:Er.
    + apply (f_equal (@length R)) in Er. rewrite length_rev in Er.
      simpl in Er. lia.
    + pose proof (head_rev x) as Hh. rewrite Er, Hl in Hh.
      simpl in Hh. injection Hh as ->. reflexivity.
  - destruct (drop 1 x) as [|a r] eqn:Ed.
    + apply (f_equal (@length R)) in Ed. rewrite length_drop in Ed.
      simpl in Ed. lia.
    + rewrite last_app_cons, <- Ed, last_drop_1 by exact H2. exact Hl.
Qed.

(** X28: with three points or more the grid of [logspace] starts at
    [-length] and ends at [length]. *)
Theorem logspace_spans_the_length (n : Z) (len : R) :
  (3 <= n)%Z -> -1 < len ->
  exists l, logspace n len = Ok l /\
    head l = Some (- len) /\ last l = Some len.
Proof.
  intros Hn Hlen. unfold logspace.
  pose proof (Z.div_mod n 2 ltac:(lia)) as D.
  pose proof (Z.mod_pos_bound n 2 ltac:(lia)) as B.
  assert (K : Rpower 10 (ln (len + 1) / ln 10) - 1 = len).
  { rewrite Rpower_10_log by lra. ring. }
  destruct (is_even n) eqn:Ev.
  - rewrite is_even_even, Zeven_mod in Ev. apply Z.eqb_eq in Ev.
    assert (H2 : (2 <= n / 2)%Z) by lia.
    destruct (half_shape 0.01 (ln (len + 1) / ln 10) (n / 2) ltac:(lia))
      as (y & Ey & Hy & ->).
    simpl rbind. eexists. split; [reflexivity|].
    apply mirror_ends.
    + rewrite !length_map, Hy. lia.
    + rewrite !last_map, (linspace_last _ _ _ _ H2 Ey). simpl.
      rewrite K. reflexivity.
  - rewrite is_even_even, Zeven_mod in Ev. apply Z.eqb_neq in Ev.
    assert (H2 : (2 <= n / 2 + 1)%Z) by lia.
    destruct (half_shape 0.0 (ln (len + 1) / ln 10) (n / 2 + 1) ltac:(lia))
      as (y & Ey & Hy & ->).
    simpl rbind. eexists. split; [reflexivity|].
    apply mirror_ends.
    + rewrite !length_map, Hy. lia.
    + rewrite !last_map, (linspace_last _ _ _ _ H2 Ey). simpl.
      rewrite K. reflexivity.
Qed.

Lemma logspace_spans_the_length_witness :
  exists l, logspace 6 2 = Ok l /\ head l = Some (- 2) /\ last l = Some 2.
Proof.
  apply (logspace_spans_the_length 6 2); [lia | lra].
Defined.

(** *** [get_boundaries] *)

Lemma vnth_vmin (k : nat) (a b : vec3) :
  vnth k (vmin a b) = Rmin (vnth k a) (vnth k b).
Proof. destruct k as [|[|k]]; reflexivity. Qed.

Lemma vnth_vmax (k : nat) (a b : vec3) :
  vnth k (vmax a b) = Rmax (vnth k a) (vnth k b).
Proof. destruct k as [|[|k]]; reflexivity. Qed.

Lemma fold_vmin_spec (k : nat) (rows : list vec3) (a : vec3) :
  (forall b, b ∈ a :: rows -> vnth k (foldl vmin a rows) <= vnth k b) /\
  (exists b, b ∈ a :: rows /\ vnth k b = vnth k (foldl vmin a rows)).
Proof.
  revert a. induction rows as [|c rows IH]; intros a.
  - simpl. split.
    + intros b Hb. apply list_elem_of_singleton in Hb as ->. lra.
    + exists a. split; [left|reflexivity].
  - simpl foldl. destruct (IH (vmin a c)) as [Hle (b & Hb & Eb)]. split.
    + intros d Hd.
      assert (M : vnth k (foldl vmin (vmin a c) rows) <= vnth k (vmin a c))
        by (apply Hle; left).
      rewrite vnth_vmin in M.
      apply elem_of_cons in Hd as [->|Hd].
      * pose proof (Rmin_l (vnth k a) (vnth k c)). lra.
      * apply elem_of_cons in Hd as [->|Hd].
        -- pose proof (Rmin_r (vnth k a) (vnth k c)). lra.
        -- apply Hle. right. exact Hd.
    + apply elem_of_cons in Hb as [->|Hb].
      * rewrite vnth_vmin in Eb. rewrite <- Eb.
        destruct (Rle_dec (vnth k a) (vnth k c)) as [L|L].
        -- exists a. split; [left|]. rewrite Rmin_left by exact L. reflexivity.
        -- exists c. split; [right; left|].
           rewrite Rmin_right by lra. reflexivity.
      * exists b. split; [right; right; exact Hb | exact Eb].
Qed.

Lemma fold_vmax_spec (k : nat) (rows : list vec3) (a : vec3) :
  (forall b, b ∈ a :: rows -> vnth k b <= vnth k (foldl vmax a rows)) /\
  (exists b, b ∈ a :: rows /\ vnth k b = vnth k (foldl vmax a rows)).
Proof.
  revert a. induction rows as [|c rows IH]; intros a.
  - simpl. split.
    + intros b Hb. apply list_elem_of_singleton in Hb as ->. lra.
    + exists a. split; [left|reflexivity].
  - simpl foldl. destruct (IH (vmax a c)) as [Hle (b & Hb & Eb)]. split.
    + intros d Hd.
      assert (M : vnth k (vmax a c) <= vnth k (foldl vmax (vmax a c) rows))
        by (apply Hle; left).
      rewrite vnth_vmax in M.
      apply elem_of_cons in Hd as [->|Hd].
      * pose proof (Rmax_l (vnth k a) (vnth k c)). lra.
      * apply elem_of_cons in Hd as [->|Hd].
        -- pose proof (Rmax_r (vnth k a) (vnth k c)). lra.
        -- apply Hle. right. exact Hd.
    + apply elem_of_cons in Hb as [->|Hb].
      * rewrite vnth_vmax in Eb. rewrite <- Eb.
        destruct (Rle_dec (vnth k a) (vnth k c)) as [L|L].
        -- exists c. split; [right; left|]. rewrite Rmax_right by exact L.
           reflexivity.
        -- exists a. split; [left|].
           rewrite Rmax_left by lra. reflexivity.
      * exists b. split; [right; right; exact Hb | exact Eb].
Qed.

Lemma vnth_shift (k : nat) (p : vec3) (d : R) :
  vnth k (V3 (vx p + d) (vy p + d) (vz p + d)) = vnth k p + d.
Proof. destruct k as [|[|k]]; reflexivity. Qed.

Lemma get_boundaries_nonempty (p : positions) (a : vec3) (rows : list vec3)
    (border : R) :
  holds p (a :: rows) ->
  get_boundaries p border
  = Ok (V3 (vx (foldl vmin a rows) - border) (vy (foldl vmin a rows) - border)
           (vz (foldl vmin a rows) - border),
        V3 (vx (foldl vmax a rows) + border) (vy (foldl vmax a rows) + border)
           (vz (foldl vmax a rows) + border)).
Proof.
  intros [->|[->| ->]]; reflexivity.
Qed.

(** X29: for one atom or more [get_boundaries] returns the corners of the
    smallest box that keeps every atom [border_length] away from its
    faces, whichever of the three accepted types holds the positions. *)
Theorem boundaries_enclose_the_atoms (p : positions) (rows : list vec3)
    (border : R) :
  holds p rows -> rows <> [] ->
  exists pmin pmax, get_boundaries p border = Ok (pmin, pmax) /\
    tight_box rows border pmin pmax.
Proof.
  intros Hp Hne. destruct rows as [|a rows]; [contradiction|].
  rewrite (get_boundaries_nonempty p a rows border Hp).
  eexists _, _. split; [reflexivity|].
  intros k.
  destruct (fold_vmin_spec k rows a) as [Hmin (b & Hb & Eb)].
  destruct (fold_vmax_spec k rows a) as [Hmax (c & Hc & Ec)].
  assert (Emin : forall q : vec3,
            vnth k (V3 (vx q - border) (vy q - border) (vz q - border))
            = vnth k q - border)
    by (intros q; destruct k as [|[|k]]; reflexivity).
  rewrite Emin, vnth_shift.
  split; [|split].
  - intros d Hd. specialize (Hmin d Hd). specialize (Hmax d Hd). lra.
  - exists b. split; [exact Hb|]. lra.
  - exists c. split; [exact Hc|]. lra.
Qed.

Lemma boundaries_enclose_the_atoms_witness :
  exists pmin pmax,
    get_boundaries (PyList [V3 0 0 0; V3 0 0 1]) 2 = Ok (pmin, pmax) /\
    tight_box [V3 0 0 0; V3 0 0 1] 2 pmin pmax.
Proof.
  apply (boundaries_enclose_the_atoms (PyList [V3 0 0 0; V3 0 0 1])).
  - right; right; reflexivity.
  - discriminate.
Defined.

(** *** [get_reg_grid] *)

Lemma boundaries_ordered (p : positions) (rows : list vec3) (border : R) :
  holds p rows -> rows <> [] -> 0 <= border ->
  exists pmin pmax, get_boundaries p border = Ok (pmin, pmax) /\
    forall k, vnth k pmin <= vnth k pmax.
Proof.
  intros Hp Hne Hb. destruct rows as [|a rows]; [contradiction|].
  rewrite (get_boundaries_nonempty p a rows border Hp).
  eexists _, _. split; [reflexivity|].
  intros k.
  destruct (fold_vmin_spec k rows a) as [Hmin _].
  destruct (fold_vmax_spec k rows a) as [Hmax _].
  assert (Emin : forall q : vec3,
            vnth k (V3 (vx q - border) (vy q - border) (vz q - border))
            = vnth k q - border)
    by (intros q; destruct k as [|[|k]]; reflexivity).
  rewrite Emin, vnth_shift.
  specialize (Hmin a ltac:(left)). specialize (Hmax a ltac:(left)). lra.
Qed.

Lemma linspace_regular (lo hi : R) (n : Z) :
  (0 <= n)%Z -> lo <= hi ->
  exists g, linspace lo hi n = Ok g /\ regular_axis lo hi n g.
Proof.
  intros Hn Hle.
  destruct (linspace_shape lo hi n Hn) as (g & E & Hlen & Hg).
  exists g. split; [exact E|].
  split; [exact Hlen|]. split; [|split; [|split]].
  - intros H1. destruct (linspace_first lo hi n g H1 E) as (g' & ->).
    reflexivity.
  - intros H2. exact (linspace_last lo hi n g H2 E).
  - intros i a b Ha Hb. exact (linspace_step lo hi n g i a b E Ha Hb).
  - apply Forall_lookup. intros i t Ht.
    assert (Hi : (i < Z.to_nat n)%nat)
      by (rewrite <- Hlen; eapply lookup_lt_Some; exact Ht).
    rewrite (Hg i Hi) in Ht. injection Ht as <-.
    destruct (Nat.ltb_spec 0 (Z.to_nat n - 1)) as [Hm|Hm].
    + set (m := INR (Z.to_nat n - 1)).
      assert (M : 0 < m) by (apply lt_0_INR; exact Hm).
      assert (I0 : 0 <= INR i) by apply pos_INR.
      assert (I1 : INR i <= m) by (apply le_INR; lia).
      set (c := (hi - lo) / m).
      assert (C : 0 <= c).
      { unfold c, Rdiv. apply Rmult_le_pos; [lra|].
        left. apply Rinv_0_lt_compat. exact M. }
      assert (D : m * c = hi - lo) by (unfold c; field; lra).
      split; nra.
    + assert (i = 0)%nat as -> by lia. simpl INR. lra.
Qed.

(** X30: for one atom or more and a border that is not negative,
    [get_reg_grid] returns on each axis the points that [np.linspace] puts
    between the lower and the upper boundary of [get_boundaries]: as many
    as the count computed for the axis, starting at the lower boundary,
    ending at the upper one when there are two or more, evenly spaced and
    all inside the box.  A negative count raises [ValueError]. *)
Theorem reg_grid_is_regular (npts_of : R -> R -> Z) (p : positions)
    (rows : list vec3) (resolution border : R) :
  holds p rows -> rows <> [] -> 0 <= border ->
  exists pmin pmax,
    get_boundaries p border = Ok (pmin, pmax) /\
    ((forall k, (0 <= npts_of (vnth k pmax - vnth k pmin)%R resolution)%Z) ->
     exists x y z,
       get_reg_grid npts_of p resolution border = Ok (x, y, z) /\
       regular_axis (vx pmin) (vx pmax)
                    (npts_of (vx pmax - vx pmin)%R resolution) x /\
       regular_axis (vy pmin) (vy pmax)
                    (npts_of (vy pmax - vy pmin)%R resolution) y /\
       regular_axis (vz pmin) (vz pmax)
                    (npts_of (vz pmax - vz pmin)%R resolution) z) /\
    ((exists k, (npts_of (vnth k pmax - vnth k pmin)%R resolution < 0)%Z) ->
     get_reg_grid npts_of p resolution border = Raise ValueError).
Proof.
  intros Hp Hne Hb.
  destruct (boundaries_ordered p rows border Hp Hne Hb) as (pmin & pmax & E & L).
  exists pmin, pmax. split; [exact E|]. split.
  - intros Hn.
    destruct (linspace_regular _ _ _ (Hn 0%nat) (L 0%nat)) as (x & Ex & Ax).
    destruct (linspace_regular _ _ _ (Hn 1%nat) (L 1%nat)) as (y & Ey & Ay).
    destruct (linspace_regular _ _ _ (Hn 2%nat) (L 2%nat)) as (z & Ez & Az).
    exists x, y, z. unfold get_reg_grid. rewrite E.
    cbn [rbind fst snd]. rewrite Ex. cbn [rbind]. rewrite Ey. cbn [rbind].
    rewrite Ez. cbn [rbind]. auto.
  - intros [k Hk]. unfold get_reg_grid. rewrite E. cbn [rbind fst snd].
    assert (Hr : forall j, (npts_of (vnth j pmax - vnth j pmin)%R resolution < 0)%Z ->
               linspace (vnth j pmin) (vnth j pmax)
                        (npts_of (vnth j pmax - vnth j pmin)%R resolution)
               = Raise ValueError)
      by (intros j Hj; apply linspace_negative; exact Hj).
    assert (Hcase : forall j, linspace (vnth j pmin) (vnth j pmax)
                       (npts_of (vnth j pmax - vnth j pmin)%R resolution)
                     = Raise ValueError \/
                     exists g, linspace (vnth j pmin) (vnth j pmax)
                       (npts_of (vnth j pmax - vnth j pmin)%R resolution) = Ok g).
    { intros j.
      destruct (Z.ltb_spec (npts_of (vnth j pmax - vnth j pmin)%R resolution) 0)
        as [Hj|Hj]; [left; apply Hr; exact Hj|].
      right.
      destruct (linspace_shape (vnth j pmin) (vnth j pmax) _ Hj) as (g & Eg & _).
      exists g. apply Eg. }
    destruct (Hcase 0%nat) as [-> | [x Ex]]; [reflexivity|].
    destruct (Hcase 1%nat) as [Ey | [y Ey]];
      [rewrite Ex; cbn [rbind]; rewrite Ey; reflexivity|].
    destruct (Hcase 2%nat) as [Ez | [z Ez]];
      [rewrite Ex; cbn [rbind]; rewrite Ey; cbn [rbind]; rewrite Ez;
       reflexivity|].
    exfalso.
    assert (Hall : forall j, (0 <= npts_of (vnth j pmax - vnth j pmin)%R resolution)%Z).
    { intros j.
      assert (Hj : exists g, linspace (vnth j pmin) (vnth j pmax)
                     (npts_of (vnth j pmax - vnth j pmin)%R resolution) = Ok g)
        by (destruct j as [|[|j]]; eauto).
      destruct Hj as [g Eg].
      destruct (Z.ltb_spec (npts_of (vnth j pmax - vnth j pmin)%R resolution) 0)
        as [Hj|Hj]; [|exact Hj].
      rewrite (Hr j Hj) in Eg. discriminate. }
    specialize (Hall k). lia.
Qed.

Lemma ceiling_not_negative (q : R) : 0 <= q -> (0 <= 1 - up (- q))%Z.
Proof.
  intros Hq. destruct (archimed (- q)) as [_ B].
  assert (H : IZR (up (- q)) <= 1) by lra.
  apply le_IZR in H. lia.
Qed.

Lemma ceiling_positive (q : R) : 1 <= q -> (1 <= 1 - up (- q))%Z.
Proof.
  intros Hq. destruct (archimed (- q)) as [_ B].
  assert (H : IZR (up (- q)) <= 0) by lra.
  apply le_IZR in H. lia.
Qed.

Lemma reg_grid_is_regular_witness :
  exists pmin pmax x y z,
    get_boundaries (NdArray [V3 0 0 0; V3 0 0 1]) 2 = Ok (pmin, pmax) /\
    get_reg_grid (fun length resolution => (1 - up (- (length / resolution))%R)%Z)
                 (NdArray [V3 0 0 0; V3 0 0 1]) 1 2 = Ok (x, y, z) /\
    head x = Some (vx pmin) /\ head y = Some (vy pmin) /\
    head z = Some (vz pmin) /\
    Forall (fun t => vz pmin <= t <= vz pmax) z.
Proof.
  destruct (reg_grid_is_regular
              (fun length resolution => (1 - up (- (length / resolution))%R)%Z)
              (NdArray [V3 0 0 0; V3 0 0 1]) [V3 0 0 0; V3 0 0 1] 1 2)
    as (pmin & pmax & E & Hok & _).
  - right; left; reflexivity.
  - discriminate.
  - lra.
  - assert (R1 : Rmin 0 0 = 0) by (apply Rmin_left; lra).
    assert (R2 : Rmax 0 0 = 0) by (apply Rmax_left; lra).
    assert (R3 : Rmin 0 1 = 0) by (apply Rmin_left; lra).
    assert (R4 : Rmax 0 1 = 1) by (apply Rmax_right; lra).
    cbv [get_boundaries rbind min0 max0 foldl vmin vmax vx vy vz fst snd] in E.
    injection E as <- <-.
    destruct Hok as (x & y & z & G & Ax & Ay & Az).
    { intros k. apply ceiling_not_negative.
      destruct k as [|[|k]]; cbn [vnth vx vy vz];
        rewrite ?R1, ?R2, ?R3, ?R4; lra. }
    cbn [vx vy vz] in Ax, Ay, Az.
    destruct Ax as (_ & Hx & _). destruct Ay as (_ & Hy & _).
    destruct Az as (_ & Hz & _ & _ & Fz).
    eexists _, _, x, y, z. split; [reflexivity|]. split; [exact G|].
    cbn [vx vy vz].
    split; [apply Hx, ceiling_positive; rewrite ?R1, ?R2; lra|].
    split; [apply Hy, ceiling_positive; rewrite ?R1, ?R2; lra|].
    split; [apply Hz, ceiling_positive; rewrite ?R3, ?R4; lra|].
    exact Fz.
Defined.

End InterpolateFacts.
